(** * family-chart: layout engine, store and edit operations

    A shallow embedding of the parts of the family-chart bundle
    (src/unnamed/part_000) that the specification's claims are about:
    the person graph, [setupTid], the tidy-tree separation function,
    the store's [updateMainId], [deletePerson] with its connectivity
    check, the synthetic augmentor [createRelsToAdd], [toggleRels], the
    duplicate-branch toggle resolution and the layout pipeline of
    [CalculateTree] (with the d3 tidy-tree layout it calls).

    JavaScript values are modelled as follows: an absent property or
    [undefined] is [None]; ids are [string]s; arrays are lists; a
    mutated array or object is threaded through explicitly; a function
    that can throw a [TypeError] returns an [option] ([None] = throws). *)

From Stdlib Require Import String Ascii List Bool Arith ZArith QArith Lia Lqa Permutation Sorted.
Import ListNotations.
Open Scope nat_scope.
Open Scope string_scope.

(* ------------------------------------------------------------------ *)
(** ** Generic helpers for JavaScript array and string operations *)

Module JS.

(** [Array.prototype.includes] on string arrays. *)
Definition includes (l : list string) (x : string) : bool :=
  existsb (String.eqb x) l.

(** [Array.prototype.findIndex] with an equality test; [-1] when absent. *)
Fixpoint findIndex {A} (p : A -> bool) (l : list A) : Z :=
  match l with
  | [] => (-1)%Z
  | x :: l' => if p x then 0%Z else
                 match findIndex p l' with
                 | (-1)%Z => (-1)%Z
                 | k => (k + 1)%Z
                 end
  end.

(** [arr.splice(i, 1)]: removes one element at [i]; a negative index
    counts from the end ([-1] is the last element). *)
Definition splice1 {A} (l : list A) (i : Z) : list A :=
  let n := Z.of_nat (length l) in
  let j := if (i <? 0)%Z then Z.max 0 (n + i) else i in
  if (j <? n)%Z then (firstn (Z.to_nat j) l ++ skipn (S (Z.to_nat j)) l)%list else l.

(** [arr.slice(-k)]: the last [k] elements (all of them when fewer). *)
Definition slice_neg {A} (k : nat) (l : list A) : list A :=
  skipn (length l - k) l.

(** Decimal rendering of a natural number, as template literals do. *)
Fixpoint digits (fuel n : nat) (acc : string) : string :=
  match fuel with
  | O => acc
  | S f =>
      let d := ascii_of_nat (48 + n mod 10) in
      let acc' := String d acc in
      if Nat.ltb n 10 then acc' else digits f (n / 10) acc'
  end.

Definition nat_to_string (n : nat) : string := digits (S n) n "".

End JS.

(* ------------------------------------------------------------------ *)
(** ** Assigning layout ids: [setupTid] *)

Module Tid.

(** The part of a layout node that [setupTid] reads and writes:
    [d.data.id], [d.tid] and [d.duplicate]. *)
Record node := mkNode {
  data_id : string;
  tid : option string;
  duplicate : option nat
}.

Definition set_tid (d : node) (t : string) (dup : option nat) : node :=
  mkNode (data_id d) (Some t) dup.

(** The inner [duplicates.forEach((d0, i) => ...)]: every node carrying
    [id], in tree order, gets [id--x(i+1)] and the multiplicity. *)
Fixpoint mark_duplicates (id : string) (count : nat) (i : nat)
    (tree : list node) : list node :=
  match tree with
  | [] => []
  | d0 :: rest =>
      if String.eqb (data_id d0) id then
        set_tid d0 (id ++ "--x" ++ JS.nat_to_string (S i)) (Some count)
          :: mark_duplicates id count (S i) rest
      else d0 :: mark_duplicates id count i rest
  end.

Definition count_id (id : string) (tree : list node) : nat :=
  length (filter (fun d0 => String.eqb (data_id d0) id) tree).

(** One iteration of [tree.forEach] at position [k], with the [ids]
    array it accumulates. *)
Definition setupTid_step (st : list node * list string) (k : nat)
    : list node * list string :=
  let '(tree, ids) := st in
  match nth_error tree k with
  | None => st
  | Some d =>
      if JS.includes ids (data_id d) then
        let n := count_id (data_id d) tree in
        (mark_duplicates (data_id d) n 0 tree, (ids ++ repeat (data_id d) n)%list)
      else
        ((firstn k tree ++ set_tid d (data_id d) (duplicate d) :: skipn (S k) tree)%list,
         (ids ++ [data_id d])%list)
  end.

Definition setupTid (tree : list node) : list node :=
  fst (fold_left setupTid_step (seq 0 (length tree)) (tree, [])).

(** What the amended claim says a node ends up with: with [n] occurrences
    of its id in the tree, [n >= 2] gives [id--x(j+1)] to the occurrence
    preceded by [j] earlier ones, and [n = 1] gives the plain id. *)
Definition final_tid (tree : list node) (p : nat) (d : node) : node :=
  let n := count_id (data_id d) tree in
  if Nat.leb 2 n then
    set_tid d (data_id d ++ "--x"
                 ++ JS.nat_to_string (S (count_id (data_id d) (firstn p tree))))
            (Some n)
  else set_tid d (data_id d) (duplicate d).

(** State of the node at position [p] after the first [k] iterations of
    [setupTid]'s loop (used to state its loop invariant). *)
Definition tid_after (tree : list node) (k p : nat) (d : node) : node :=
  let c := count_id (data_id d) (firstn k tree) in
  if Nat.leb 2 c then
    set_tid d (data_id d ++ "--x"
                 ++ JS.nat_to_string (S (count_id (data_id d) (firstn p tree))))
            (Some (count_id (data_id d) tree))
  else if Nat.eqb c 1 && Nat.ltb p k then set_tid d (data_id d) (duplicate d)
  else d.

Definition tid_inv (tree : list node) (k : nat) (st : list node * list string) : Prop :=
  map data_id (fst st) = map data_id tree /\
  (forall p, nth_error (fst st) p = option_map (tid_after tree k p) (nth_error tree p)) /\
  (forall x, JS.includes (snd st) x
             = existsb (fun a => String.eqb (data_id a) x) (firstn k tree)).

End Tid.

(* ------------------------------------------------------------------ *)
(** ** The person graph *)

Module Person.

(** Relation slots of a person ([rels], and the hidden mirror [_rels]);
    an absent slot is [None]. *)
Record rels_t := mkRels {
  father : option string;
  mother : option string;
  spouses : option (list string);
  children : option (list string)
}.

Definition no_rels : rels_t := mkRels None None None None.

(** [data] is an object of scalar attributes: an association list in
    insertion order; a key whose value is [undefined] maps to [None]. *)
Definition attrs := list (string * option string).

(** A person record: [id], [data], [rels], the hidden mirror [_rels]
    and the transient flags [to_add] and [unknown]. *)
Record person := mkPerson {
  id : string;
  data : attrs;
  rels : rels_t;
  hidden_rels : option rels_t;
  to_add : bool;
  unknown : bool
}.

Definition set_rels (p : person) (r : rels_t) : person :=
  mkPerson (id p) (data p) r (hidden_rels p) (to_add p) (unknown p).
Definition set_data (p : person) (a : attrs) : person :=
  mkPerson (id p) a (rels p) (hidden_rels p) (to_add p) (unknown p).
Definition set_hidden (p : person) (r : option rels_t) : person :=
  mkPerson (id p) (data p) (rels p) r (to_add p) (unknown p).

(** [obj.key] on [data]. *)
Definition get_attr (k : string) (a : attrs) : option string :=
  match find (fun kv => String.eqb (fst kv) k) a with
  | Some (_, v) => v
  | None => None
  end.

(** [delete obj[key]]. *)
Definition delete_attr (k : string) (a : attrs) : attrs :=
  filter (fun kv => negb (String.eqb (fst kv) k)) a.

Definition gender (p : person) : option string := get_attr "gender" (data p).

(** [data_stash.find(d => d.id === x)] and its index. *)
Definition find_person (ds : list person) (x : string) : option person :=
  find (fun d => String.eqb (id d) x) ds.

Fixpoint find_index (ds : list person) (x : string) : option nat :=
  match ds with
  | [] => None
  | d :: ds' => if String.eqb (id d) x then Some 0
                else option_map S (find_index ds' x)
  end.

(** Mutating the object at index [j] of an array. *)
Fixpoint update_at {A} (j : nat) (f : A -> A) (l : list A) : list A :=
  match l, j with
  | [], _ => []
  | x :: l', O => f x :: l'
  | x :: l', S j' => x :: update_at j' f l'
  end.

(** JavaScript truthiness of an optional string ([undefined] and [""]
    are falsy). *)
Definition truthy (v : option string) : bool :=
  match v with Some s => negb (String.eqb s "") | None => false end.

(** [[r.father, r.mother, ...(r.spouses || []), ...(r.children || [])]
     .filter(r_id => !!r_id)]. *)
Definition rel_ids (r : rels_t) : list string :=
  filter (fun x => truthy (Some x))
    (match father r with Some x => [x] | None => [] end ++
     match mother r with Some x => [x] | None => [] end ++
     match spouses r with Some l => l | None => [] end ++
     match children r with Some l => l | None => [] end)%list.

End Person.

(* ------------------------------------------------------------------ *)
(** ** The store's focus history: [updateMainId] *)

Module Store.

(** The fields of the store's [state] that [updateMainId] touches. *)
Record state := mkState {
  main_id : option string;
  main_id_history : list string
}.

(** [createStore] starts with [state.main_id_history = []]. *)
Definition initial (main : option string) : state := mkState main [].

(** [updateMainId(id)]: nothing when [id === state.main_id]; otherwise
    [history = history.filter(d => d !== id).slice(-10)], then
    [history.push(id)] and [state.main_id = id]. *)
Definition updateMainId (id : string) (s : state) : state :=
  match main_id s with
  | Some m => if String.eqb id m then s else
      mkState (Some id)
        (JS.slice_neg 10 (filter (fun d => negb (String.eqb d id)) (main_id_history s))
         ++ [id])%list
  | None =>
      mkState (Some id)
        (JS.slice_neg 10 (filter (fun d => negb (String.eqb d id)) (main_id_history s))
         ++ [id])%list
  end.

(** A sequence of calls on one store. *)
Definition run (ids : list string) (s : state) : state :=
  fold_left (fun s id => updateMainId id s) ids s.

End Store.

(* ------------------------------------------------------------------ *)
(** ** The tidy-tree separation function of [calculateTreePositions] *)

Module Sep.

Import Person.

(** What [separation] reads from a d3 hierarchy node: the identity of
    its [parent] node ([None] for the root) and [d.data.rels]. *)
Record hnode := mkH {
  parent : option nat;
  hrels : rels_t
}.

Definition opt_eqb (a b : option string) : bool :=
  match a, b with
  | Some x, Some y => String.eqb x y
  | None, None => true
  | _, _ => false
  end.

Definition opt_nat_eqb (a b : option nat) : bool :=
  match a, b with
  | Some x, Some y => Nat.eqb x y
  | None, None => true
  | _, _ => false
  end.

Definition sameParent (a b : hnode) : bool := opt_nat_eqb (parent a) (parent b).

Definition sameBothParents (a b : hnode) : bool :=
  opt_eqb (father (hrels a)) (father (hrels b)) &&
  opt_eqb (mother (hrels a)) (mother (hrels b)).

Definition hasSpouses (d : hnode) : bool :=
  match spouses (hrels d) with
  | Some l => Nat.ltb 0 (length l)
  | None => false
  end.

Definition someSpouses (a b : hnode) : bool := hasSpouses a || hasSpouses b.

Definition spouse_count (d : hnode) : nat :=
  match spouses (hrels d) with Some l => length l | None => 0 end.

Definition offsetOnPartners (a b : hnode) : Q :=
  inject_Z (Z.of_nat (spouse_count a + spouse_count b)) * (1 # 2).

(** [separation(a, b)] inside [calculateTreePositions], closed over
    [is_ancestry] and the [one_level_rels] option. *)
Definition separation (is_ancestry one_level_rels : bool) (a b : hnode) : Q :=
  let offset := 1%Q in
  if negb is_ancestry then
    let offset := if negb (sameParent a b) then (offset + (1 # 4))%Q else offset in
    let offset := if negb one_level_rels then
                    if someSpouses a b then (offset + offsetOnPartners a b)%Q else offset
                  else offset in
    if sameParent a b && negb (sameBothParents a b) then (offset + (1 # 8))%Q else offset
  else offset.

(** The separation the claim describes: 1, plus 1/4 for different
    parents, plus 1/8 for half-siblings (same layout parent, not the
    same father and mother), plus half the spouse counts when one of
    them has spouses; 1 in the ancestor tree. *)
Definition separation_claimed (is_ancestry : bool) (a b : hnode) : Q :=
  if is_ancestry then 1%Q else
  (1 + (if negb (sameParent a b) then 1 # 4 else 0)
     + (if sameParent a b && negb (sameBothParents a b) then 1 # 8 else 0)
     + (if someSpouses a b then offsetOnPartners a b else 0))%Q.

End Sep.

(* ------------------------------------------------------------------ *)
(** ** String operations used on [__ref__] keys *)

Module Str.

(** [s.includes(sep)]. *)
Definition includes (s sep : string) : bool :=
  match String.index 0 sep s with Some _ => true | None => false end.

(** [s.split(sep)] for a non-empty separator. *)
Fixpoint split_fuel (fuel : nat) (sep s cur : string) : list string :=
  match fuel with
  | O => [cur ++ s]
  | S f =>
      match s with
      | EmptyString => [cur]
      | String c s' =>
          if String.prefix sep s
          then cur :: split_fuel f sep
                        (substring (String.length sep) (String.length s - String.length sep) s) ""
          else split_fuel f sep s' (cur ++ String c EmptyString)
      end
  end.

Definition split (s sep : string) : list string := split_fuel (S (String.length s)) sep s "".

End Str.

(* ------------------------------------------------------------------ *)
(** ** Deleting a person: [deletePerson] *)

Module Delete.
Import Person.

(** [checkIfRelativesConnectedWithoutPerson]'s inner search
    [checkIfAnyRelIsMain(d0, history)] for [datum]'s relative: it
    succeeds when some relative id of [d0] (not [without] and not on the
    current path) is the first person's id, or when the search succeeds
    from one of those relatives.  The shared [line] variable stops the
    search at the first success, which [||] and [existsb] reproduce.
    [d0 = None] is the [undefined] of a missing person.  Each recursive
    call adds a person with a fresh id to [history], so
    [length data_stash + 2] units of fuel are enough. *)
Fixpoint checkIfAnyRelIsMain (fuel : nat) (ds : list person) (first_id : string)
    (without : list person) (d0 : option person) (history : list person) : bool :=
  match fuel with
  | O => false
  | S f =>
      match d0 with
      | None => false
      | Some p =>
          let history' := (history ++ [p])%list in
          let cand := filter
                (fun d_id => negb (existsb (fun d => String.eqb (id d) d_id)
                                           (without ++ history')%list))
                (rel_ids (rels p)) in
          existsb (fun d_id => String.eqb d_id first_id) cand ||
          existsb (fun d_id => checkIfAnyRelIsMain f ds first_id without
                                 (find_person ds d_id) history') cand
      end
  end.

(** [isM(d0)] on a person object or [undefined]. *)
Definition isM_person (first_id : string) (d : option person) : bool :=
  match d with Some p => String.eqb (id p) first_id | None => false end.

(** [findPersonLineToMain(rel, [datum])] returns a truthy line. *)
Definition findPersonLineToMain (ds : list person) (first_id : string)
    (datum : person) (rel : option person) : bool :=
  isM_person first_id rel ||
  checkIfAnyRelIsMain (S (S (length ds))) ds first_id [datum] rel
    (match rel with Some p => [p] | None => [] end).

(** [checkIfRelativesConnectedWithoutPerson(datum, data_stash)]; [None]
    is the [TypeError] of reading [data_stash[0].id] on an empty stash. *)
Definition checkIfRelativesConnectedWithoutPerson (datum : person) (ds : list person)
    : option bool :=
  let r_ids := rel_ids (rels datum) in
  match r_ids with
  | [] => Some true
  | _ =>
      match ds with
      | [] => None
      | first :: _ =>
          Some (forallb (fun rid => findPersonLineToMain ds (id first) datum
                                      (find_person ds rid)) r_ids)
      end
  end.

(** [arr.splice(arr.findIndex(did => did === x), 1)] after an
    [includes] test: drops the first occurrence of [x]. *)
Fixpoint remove_first (x : string) (l : list string) : list string :=
  match l with
  | [] => []
  | y :: l' => if String.eqb y x then l' else y :: remove_first x l'
  end.

(** The body of [executeDelete]'s first loop for one person [d]:
    [for (let k in d.rels)] deletes a slot equal to the id and splices
    the id out of an array slot. *)
Definition remove_refs (x : string) (d : person) : person :=
  let r := rels d in
  let drop v := match v with
                | Some y => if String.eqb y x then None else Some y
                | None => None
                end in
  set_rels d (mkRels (drop (father r)) (drop (mother r))
                     (option_map (remove_first x) (spouses r))
                     (option_map (remove_first x) (children r))).

(** [onDeleteSyncRelReference(datum, data_stash)]: for each key
    [<f>__ref__<other>] of [datum.data], delete [<f>__ref__<datum.id>]
    from the data of the person [<other>]. *)
Definition onDeleteSyncRelReference (datum : person) (ds : list person) : list person :=
  fold_left
    (fun ds kv =>
       let k := fst kv in
       if Str.includes k "__ref__" then
         let parts := Str.split k "__ref__" in
         match find_index ds (nth 1 parts "") with
         | None => ds
         | Some j =>
             update_at j (fun rel => set_data rel
                            (delete_attr (nth 0 parts "" ++ "__ref__" ++ id datum)
                                         (data rel))) ds
         end
       else ds)
    (data datum) ds.

(** [changeToUnknown] on the stash element [i] (the [datum] object). *)
Definition changeToUnknown (i : nat) (datum : person) (ds : list person) : list person :=
  let ds := onDeleteSyncRelReference datum ds in
  update_at i (fun d => mkPerson (id d) [("gender", gender datum)] (rels d)
                                 (hidden_rels d) (to_add d) true) ds.

(** [createTreeDataWithMainNode({}).data[0]]: a blank person whose id
    is the uuid drawn for it. *)
Definition blank_person (new_id : string) : person :=
  mkPerson new_id [] no_rels None false false.

Record delete_result := mkResult { success : bool }.

(** The cascade [data_stash.forEach(d => {if (d.to_add) deletePerson(d,
    data_stash);})]: [forEach] visits the indices below the initial
    length that still exist, reading the current element each time;
    [del k ds] is the nested [deletePerson] on element [k]. *)
Fixpoint cascade (del : nat -> list person -> option (delete_result * list person))
    (ks : list nat) (ds : list person) : option (list person) :=
  match ks with
  | [] => Some ds
  | k :: ks' =>
      match nth_error ds k with
      | None => cascade del ks' ds
      | Some d =>
          if to_add d then
            match del k ds with
            | None => None
            | Some (_, ds') => cascade del ks' ds'
            end
          else cascade del ks' ds
      end
  end.

(** [executeDelete]'s first three steps: drop every reference to
    [datum] from the relation slots, strip mirrored [__ref__] fields and
    splice [datum] out. *)
Definition remove_person (datum : person) (ds : list person) : list person :=
  let ds1 := map (remove_refs (id datum)) ds in
  let ds2 := onDeleteSyncRelReference datum ds1 in
  JS.splice1 ds2 (JS.findIndex (fun d => String.eqb (id d) (id datum)) ds2).

(** [deletePerson(datum, data_stash)] with [datum] the element at index
    [i] of the stash.  [new_id] is the uuid a blank person would get when
    the stash ends up empty.  [None] is a thrown [TypeError] (or [datum]
    not being an element); the recursion through the [to_add] cascade
    shortens the stash each time, so [length data_stash + 1] units of
    fuel are enough. *)
Fixpoint deletePerson_fuel (fuel : nat) (new_id : string) (i : nat) (ds : list person)
    : option (delete_result * list person) :=
  match fuel with
  | O => None
  | S f =>
      match nth_error ds i with
      | None => None
      | Some datum =>
          match checkIfRelativesConnectedWithoutPerson datum ds with
          | None => None
          | Some false => Some (mkResult true, changeToUnknown i datum ds)
          | Some true =>
              let ds3 := remove_person datum ds in
              match cascade (deletePerson_fuel f new_id) (seq 0 (length ds3)) ds3 with
              | None => None
              | Some [] => Some (mkResult true, [blank_person new_id])
              | Some ds4 => Some (mkResult true, ds4)
              end
          end
      end
  end.

Definition deletePerson (new_id : string) (i : nat) (ds : list person)
    : option (delete_result * list person) :=
  deletePerson_fuel (S (length ds)) new_id i ds.

(** Whether [x] occurs in a relation slot of [d]. *)
Definition mentions (x : string) (d : person) : bool :=
  let r := rels d in
  match father r with Some y => String.eqb y x | None => false end ||
  match mother r with Some y => String.eqb y x | None => false end ||
  match spouses r with Some l => JS.includes l x | None => false end ||
  match children r with Some l => JS.includes l x | None => false end.

(** No person of [ds] has the id [x] or a relation slot holding it. *)
Definition gone (x : string) (ds : list person) : Prop :=
  forall d, In d ds -> id d <> x /\ mentions x d = false.

End Delete.

(* ------------------------------------------------------------------ *)
(** ** The synthetic augmentor: [createRelsToAdd] *)

Module Augment.
Import Person.

(** The mutable state of one call: the [data] array, the
    [to_add_spouses] array and the number of uuids drawn so far. *)
Record st := mkSt { sdata : list person; pend : list person; cnt : nat }.

(** Where [to_add_spouse] lives: in [data] or in [to_add_spouses]. *)
Inductive sref := InData (j : nat) | InPend (j : nat).

Definition get_ref (s : st) (r : sref) : option person :=
  match r with
  | InData j => nth_error (sdata s) j
  | InPend j => nth_error (pend s) j
  end.

Definition upd_ref (r : sref) (f : person -> person) (s : st) : st :=
  match r with
  | InData j => mkSt (update_at j f (sdata s)) (pend s) (cnt s)
  | InPend j => mkSt (sdata s) (update_at j f (pend s)) (cnt s)
  end.

(** [d.data.gender === "M"]. *)
Definition is_male (d : person) : bool :=
  match gender d with Some g => String.eqb g "M" | None => false end.

(** [rels[is_father ? 'father' : 'mother']], read and written. *)
Definition slot (is_f : bool) (r : rels_t) : option string :=
  if is_f then father r else mother r.

Definition set_slot (is_f : bool) (v : option string) (r : rels_t) : rels_t :=
  if is_f then mkRels v (mother r) (spouses r) (children r)
  else mkRels (father r) v (spouses r) (children r).

Definition set_spouses (v : option (list string)) (r : rels_t) : rels_t :=
  mkRels (father r) (mother r) v (children r).

Definition set_children (v : option (list string)) (r : rels_t) : rels_t :=
  mkRels (father r) (mother r) (spouses r) v.

(** [arr.push(x)] on an array slot (callers rule out [undefined]). *)
Definition push_spouses (x : string) (p : person) : person :=
  set_rels p (set_spouses (option_map (fun l => (l ++ [x])%list) (spouses (rels p))) (rels p)).

Definition push_children (x : string) (p : person) : person :=
  set_rels p (set_children (option_map (fun l => (l ++ [x])%list) (children (rels p))) (rels p)).

(** [v !== d.id] for an optional slot value. *)
Definition opt_str_eqb (a b : option string) : bool :=
  match a, b with
  | Some x, Some y => String.eqb x y
  | None, None => true
  | _, _ => false
  end.

Section Gen.

(** [uuid.v4()]: the [k]-th uuid drawn. *)
Variable gen : nat -> string.

(** [createToAddSpouse(d)] for the person [d] at index [i]. *)
Definition createToAddSpouse (i : nat) (s : st) : option (sref * st) :=
  match nth_error (sdata s) i with
  | None => None
  | Some d =>
      let sp := mkPerson (gen (cnt s))
                  [("gender", Some (if is_male d then "F" else "M"))]
                  (mkRels None None (Some [id d]) (Some [])) None true false in
      match spouses (rels d) with
      | None => None
      | Some _ =>
          Some (InPend (length (pend s)),
                mkSt (update_at i (push_spouses (id sp)) (sdata s))
                     (pend s ++ [sp])%list (S (cnt s)))
      end
  end.

(** [spouses.find(sp => sp.to_add)] over [d.rels.spouses] mapped through
    [data.find]: [Some (Some j)] finds [data[j]], [Some None] finds
    nothing, [None] reads [to_add] of [undefined]. *)
Fixpoint find_to_add (ds : list person) (ids : list string) : option (option nat) :=
  match ids with
  | [] => Some None
  | x :: ids' =>
      match find_index ds x with
      | None => None
      | Some j =>
          match nth_error ds j with
          | None => None
          | Some sp => if to_add sp then Some (Some j) else find_to_add ds ids'
          end
      end
  end.

(** [findOrCreateToAddSpouse(d)] for the person [d] at index [i]. *)
Definition findOrCreateToAddSpouse (i : nat) (s : st) : option (sref * st) :=
  match nth_error (sdata s) i with
  | None => None
  | Some d =>
      match spouses (rels d) with
      | None => None
      | Some l =>
          match find_to_add (sdata s) l with
          | None => None
          | Some (Some j) => Some (InData j, s)
          | Some None => createToAddSpouse i s
          end
      end
  end.

(** The body of [d.rels.children.forEach(d0 => ...)] for the person at
    index [i], threading the state and [to_add_spouse]. *)
Definition child_step (i : nat) (is_f : bool) (acc : option (st * option sref))
    (c0 : string) : option (st * option sref) :=
  match acc with
  | None => None
  | Some (s, tas) =>
      match nth_error (sdata s) i with
      | None => None
      | Some d =>
          match find_index (sdata s) c0 with
          | None => None
          | Some j =>
              match nth_error (sdata s) j with
              | None => None
              | Some child =>
                  if negb (opt_str_eqb (slot is_f (rels child)) (Some (id d))) then Some (s, tas)
                  else if truthy (slot (negb is_f) (rels child)) then Some (s, tas)
                  else
                    match match tas with
                          | Some r => Some (r, s)
                          | None => findOrCreateToAddSpouse i s
                          end with
                    | None => None
                    | Some (r, s1) =>
                        match get_ref s1 r with
                        | None => None
                        | Some sp =>
                            match children (rels sp) with
                            | None => None
                            | Some _ =>
                                let s2 := upd_ref r (push_children (id child)) s1 in
                                Some (upd_ref (InData j)
                                        (fun c => set_rels c (set_slot (negb is_f) (Some (id sp)) (rels c)))
                                        s2, Some r)
                            end
                        end
                    end
              end
          end
      end
  end.

(** One iteration [i] of the [for] loop over [data]. *)
Definition person_step (s : st) (i : nat) : option st :=
  match nth_error (sdata s) i with
  | None => Some s
  | Some d =>
      match children (rels d) with
      | Some (c :: cs) =>
          let s1 := match spouses (rels d) with
                    | None => upd_ref (InData i) (fun p => set_rels p (set_spouses (Some []) (rels p))) s
                    | Some _ => s
                    end in
          match fold_left (child_step i (is_male d)) (c :: cs) (Some (s1, None)) with
          | None => None
          | Some (s2, _) => Some s2
          end
      | _ => Some s
      end
  end.

Definition loop (ks : list nat) (s : st) : option st :=
  fold_left (fun acc i => match acc with None => None | Some s => person_step s i end) ks (Some s).

(** [createRelsToAdd(data)] with [n] uuids drawn before: the augmented
    array and the new uuid count; [None] is a thrown [TypeError]. *)
Definition createRelsToAdd (n : nat) (data : list person) : option (list person * nat) :=
  match loop (seq 0 (length data)) (mkSt data [] n) with
  | None => None
  | Some s => Some ((sdata s ++ pend s)%list, cnt s)
  end.

End Gen.

(** Whether the child [c] of [p] is left alone by [p]'s iteration: its
    [p]-side slot is not [p]'s id, or its other slot is truthy. *)
Definition good (p c : person) : bool :=
  negb (opt_str_eqb (slot (is_male p) (rels c)) (Some (id p))) ||
  truthy (slot (negb (is_male p)) (rels c)).

(** The child id [x] of [p] resolves in [ds] to a child left alone. *)
Definition settled (ds : list person) (p : person) (x : string) : Prop :=
  exists j c, find_index ds x = Some j /\ nth_error ds j = Some c /\ good p c = true.

(** [p]'s iteration changes nothing in [ds]. *)
Definition done (ds : list person) (p : person) : Prop :=
  (forall l, children (rels p) = Some l -> l <> [] -> spouses (rels p) <> None) /\
  (forall l, children (rels p) = Some l -> forall x, In x l -> settled ds p x).


(** What no step of [createRelsToAdd] changes: id, data and [to_add]. *)
Definition key (p : person) : string * attrs * bool := (id p, data p, to_add p).

(** Both parent slots truthy. *)
Definition full (c : person) : bool :=
  truthy (father (rels c)) && truthy (mother (rels c)).

(** Parent slots are only ever filled pairwise: either unchanged or
    both truthy afterwards. *)
Definition slots_le (c c' : person) : Prop :=
  (father (rels c') = father (rels c) /\ mother (rels c') = mother (rels c)) \/
  full c' = true.

Definition grows (ds ds' : list person) : Prop :=
  map key ds' = map key ds /\
  forall j c', nth_error ds' j = Some c' -> exists c, nth_error ds j = Some c /\ slots_le c c'.

(** How one step changes a person: same key, a [spouses] array stays an
    array, and [children] is unchanged or gets an id satisfying [Q]
    pushed onto an array, on a person with a [spouses] array. *)
Definition step_ok (Q : string -> Prop) (p p' : person) : Prop :=
  key p' = key p /\
  (spouses (rels p) <> None -> spouses (rels p') <> None) /\
  (children (rels p') = children (rels p) \/
   exists l x, children (rels p) = Some l /\ children (rels p') = Some (l ++ [x])%list /\
               Q x /\ spouses (rels p) <> None).

(** The state after the iterations [0 .. i-1] of the [for] loop, on an
    array of length [n]. *)
Definition Inv (n i : nat) (s : st) : Prop :=
  length (sdata s) = n /\
  (forall k p, nth_error (sdata s) k = Some p ->
     id p <> "" /\ (to_add p = true -> spouses (rels p) <> None) /\
     (k < i -> done (sdata s) p)) /\
  (forall p, In p (pend s) ->
     id p <> "" /\ spouses (rels p) <> None /\ done (sdata s) p).

(** Inside iteration [i] (with [is_father = is_f]), the child ids [rem]
    are still to visit; every other child of the person is settled. *)
Definition dpart (i : nat) (is_f : bool) (rem : list string) (s : st) : Prop :=
  exists d, nth_error (sdata s) i = Some d /\ is_male d = is_f /\
    spouses (rels d) <> None /\
    forall l, children (rels d) = Some l -> forall y, In y l -> In y rem \/ settled (sdata s) d y.

(** [to_add_spouse] is a [to_add] person of [data] or an element of
    [to_add_spouses]. *)
Definition taspart (tas : option sref) (s : st) : Prop :=
  (forall p sp, tas = Some (InData p) -> nth_error (sdata s) p = Some sp -> to_add sp = true) /\
  (forall p, tas = Some (InPend p) -> p < length (pend s)).

Definition InvIn (n i : nat) (is_f : bool) (rem : list string) (s : st)
    (tas : option sref) : Prop :=
  Inv n i s /\ dpart i is_f rem s /\ taspart tas s.

End Augment.

(* ------------------------------------------------------------------ *)
(** ** [toggleRels]: moving relation slots between [rels] and [_rels] *)

Module Toggle.
Import Person.

(** The fields of a tree node that [toggleRels] reads: the index of its
    person ([tree_datum.data]) in the data array, [is_ancestry], the
    person's [main] flag, and the indices of the persons of
    [tree_datum.spouse] and [tree_datum.spouses]. *)
Record tnode := mkT {
  tdata : nat;
  is_ancestry : bool;
  data_main : bool;
  tspouse : option nat;
  tspouses : option (list nat)
}.

(** [datum[key]] for [key = 'rels'] ([true]) or [key = '_rels']
    ([false]); [rels] is always present. *)
Definition get_obj (is_rels : bool) (p : person) : option rels_t :=
  if is_rels then Some (rels p) else hidden_rels p.

Definition set_obj (is_rels : bool) (p : person) (r : rels_t) : person :=
  if is_rels then set_rels p r else set_hidden p (Some r).

(** [showHideAncestry(rel_type)] on the person [p]; [hide] is
    [hide_rels], so the source object is [get_obj hide] and the target
    [get_obj (negb hide)]. *)
Definition showHideAncestry (hide is_f : bool) (p : person) : person :=
  match get_obj hide p with
  | None => p
  | Some r =>
      if truthy (Augment.slot is_f r) then
        let d0 := match get_obj (negb hide) p with Some d => d | None => no_rels end in
        let p1 := set_obj (negb hide) p (Augment.set_slot is_f (Augment.slot is_f r) d0) in
        set_obj hide p1 (Augment.set_slot is_f None r)
      else p
  end.

(** The body of the inner [forEach] of [showHideChildren] for one spouse
    person [q] and one child id [ch]; [None] is the [TypeError] raised
    when [q.data[rels]] or its [children] is [undefined]. *)
Definition move_child (hide : bool) (ch : string) (q : person) : option person :=
  match get_obj hide q with
  | None => None
  | Some r =>
      match children r with
      | None => None
      | Some l =>
          if JS.includes l ch then
            let d0 := match get_obj (negb hide) q with Some d => d | None => no_rels end in
            let dl := match children d0 with Some dl => dl | None => [] end in
            let q1 := set_obj (negb hide) q (Augment.set_children (Some (dl ++ [ch])%list) d0) in
            Some (set_obj hide q1 (Augment.set_children (Some (Delete.remove_first ch l)) r))
          else Some q
      end
  end.

(** [tree_datum.spouse ? [tree_datum.spouse] : tree_datum.spouses || []]. *)
Definition spouse_idx (t : tnode) : list nat :=
  match tspouse t with
  | Some j => [j]
  | None => match tspouses t with Some l => l | None => [] end
  end.

(** One step [(sp, ch_id)] of the nested [forEach], on the data array. *)
Definition child_at (hide : bool) (k : nat) (acc : option (list person)) (ch : string)
  : option (list person) :=
  match acc with
  | None => None
  | Some ds =>
      match nth_error ds k with
      | None => None
      | Some q =>
          match move_child hide ch q with
          | None => None
          | Some q' => Some (update_at k (fun _ => q') ds)
          end
      end
  end.

Definition showHideChildren (t : tnode) (hide : bool) (ds : list person)
  : option (list person) :=
  match nth_error ds (tdata t) with
  | None => None
  | Some p =>
      match get_obj hide p with
      | None => Some ds
      | Some r =>
          match children r with
          | None => Some ds
          | Some cs =>
              fold_left (fun acc k => fold_left (child_at hide k) cs acc)
                (tdata t :: spouse_idx t) (Some ds)
          end
      end
  end.

(** [toggleRels(tree_datum, hide_rels)]. *)
Definition toggleRels (t : tnode) (hide : bool) (ds : list person)
  : option (list person) :=
  if is_ancestry t || data_main t then
    match nth_error ds (tdata t) with
    | None => None
    | Some p =>
        Some (update_at (tdata t)
                (fun _ => showHideAncestry hide false (showHideAncestry hide true p)) ds)
    end
  else showHideChildren t hide ds.

End Toggle.

(* ------------------------------------------------------------------ *)
(** ** The d3 tidy-tree layout used by [calculateTreePositions]

    [d3.hierarchy] and [d3.tree] come from the d3-hierarchy package
    (files [hierarchy/index.js], [hierarchy/each*.js] and [tree.js]);
    they are translated here over an array of nodes indexed by creation
    order. Traversals take a fuel bound; running out of fuel stands for
    a non-terminating run. *)

Module D3.
Import Person.
Local Open Scope Q_scope.

(** A hierarchy [Node]: its datum, [parent], [depth] and [children]
    (the empty list is an absent [children] field). *)
Record hn := mkHN { hdata : person; hpar : option nat; hdepth : nat; hch : list nat }.

Definition dummy : person := mkPerson "" [] no_rels None false false.
Definition hn0 : hn := mkHN dummy None 0 [].

(** [d3.hierarchy(data, children)]: nodes are popped from a stack; the
    children of a popped node are created from the last to the first and
    pushed, so the first child is popped next. A child datum that is
    [undefined] makes the accessor throw when that node is popped; the
    accessor here returns [None] as soon as one is [undefined]. *)
Fixpoint hier_loop (fuel : nat) (getter : person -> option (list person))
    (H : list hn) (stack : list nat) : option (list hn) :=
  match fuel with
  | O => None
  | S f =>
      match stack with
      | [] => Some H
      | v :: stack' =>
          let node := nth v H hn0 in
          match getter (hdata node) with
          | None => None
          | Some childs =>
              let n := length H in
              let k := length childs in
              let idx := map (fun i => n + (k - 1 - i))%nat (seq 0 k) in
              let created := rev (map (fun c => mkHN c (Some v) (S (hdepth node)) []) childs) in
              let H' := update_at v (fun nd => mkHN (hdata nd) (hpar nd) (hdepth nd) idx)
                          (H ++ created)%list in
              hier_loop f getter H' (idx ++ stack')%list
          end
      end
  end.

Definition hierarchy (fuel : nat) (getter : person -> option (list person)) (root : person)
  : option (list hn) :=
  hier_loop fuel getter [mkHN root None 0 []] [0%nat].

(** [node.eachAfter], [node.eachBefore] and [node.descendants()]
    (breadth first) from the root [0]. *)
Fixpoint post_order (fuel : nat) (ch : nat -> list nat) (v : nat) : list nat :=
  match fuel with
  | O => []
  | S f => (concat (map (post_order f ch) (ch v)) ++ [v])%list
  end.

Fixpoint pre_order (fuel : nat) (ch : nat -> list nat) (v : nat) : list nat :=
  match fuel with
  | O => []
  | S f => v :: concat (map (pre_order f ch) (ch v))
  end.

Fixpoint bfs (fuel : nat) (ch : nat -> list nat) (level : list nat) : list nat :=
  match fuel with
  | O => []
  | S f => match level with
           | [] => []
           | _ => (level ++ bfs f ch (concat (map ch level)))%list
           end
  end.

(** A [TreeNode] of [tree.js]: [parent], [children], [i], the default
    ancestor [A], the ancestor [a], [z] (prelim), [m] (mod), [c]
    (change), [s] (shift) and the thread [t]. *)
Record tn := mkTN {
  tpar : option nat; tch : list nat; ti : nat; tA : option nat; ta : nat;
  tz : Q; tm : Q; tc : Q; ts : Q; tt : option nat
}.

Definition tn0 : tn := mkTN None [] 0 None 0 0 0 0 0 None.

(** [a < b] on rationals. *)
Definition Qlt_bool (a b : Q) : bool := negb (Qle_bool b a).

Definition tget (T : list tn) (v : nat) : tn := nth v T tn0.

Definition set_z (q : Q) (x : tn) : tn :=
  mkTN (tpar x) (tch x) (ti x) (tA x) (ta x) q (tm x) (tc x) (ts x) (tt x).
Definition set_m (q : Q) (x : tn) : tn :=
  mkTN (tpar x) (tch x) (ti x) (tA x) (ta x) (tz x) q (tc x) (ts x) (tt x).
Definition set_c (q : Q) (x : tn) : tn :=
  mkTN (tpar x) (tch x) (ti x) (tA x) (ta x) (tz x) (tm x) q (ts x) (tt x).
Definition set_s (q : Q) (x : tn) : tn :=
  mkTN (tpar x) (tch x) (ti x) (tA x) (ta x) (tz x) (tm x) (tc x) q (tt x).
Definition set_t (t : option nat) (x : tn) : tn :=
  mkTN (tpar x) (tch x) (ti x) (tA x) (ta x) (tz x) (tm x) (tc x) (ts x) t.
Definition set_a (a : nat) (x : tn) : tn :=
  mkTN (tpar x) (tch x) (ti x) (tA x) a (tz x) (tm x) (tc x) (ts x) (tt x).
Definition set_A (a : option nat) (x : tn) : tn :=
  mkTN (tpar x) (tch x) (ti x) a (ta x) (tz x) (tm x) (tc x) (ts x) (tt x).

(** [treeRoot(root)]: one [TreeNode] per hierarchy node, with [i] its
    position among its siblings, and an extra parent (index [length H])
    whose only child is the root [0]. *)
Definition treeRoot (H : list hn) : list tn :=
  let n := length H in
  let base := map (fun v => let h := nth v H hn0 in
                    mkTN (match v with O => Some n | _ => hpar h end) (hch h) 0 None v 0 0 0 0 None)
                (seq 0 n) in
  let with_i := fold_left (fun T v =>
                  fold_left (fun T '(i, c) =>
                      update_at c (fun x => mkTN (tpar x) (tch x) i (tA x) (ta x)
                                              (tz x) (tm x) (tc x) (ts x) (tt x)) T)
                    (combine (seq 0 (length (hch (nth v H hn0)))) (hch (nth v H hn0))) T)
                  (seq 0 n) base in
  (with_i ++ [mkTN None [0%nat] 0 None n 0 0 0 0 None])%list.

Definition nextLeft (T : list tn) (v : nat) : option nat :=
  match tch (tget T v) with c :: _ => Some c | [] => tt (tget T v) end.

Definition nextRight (T : list tn) (v : nat) : option nat :=
  match tch (tget T v) with [] => tt (tget T v) | c :: cs => Some (last cs c) end.

Definition q_of_nat (k : nat) : Q := inject_Z (Z.of_nat k).

(** [moveSubtree(wm, wp, shift)]. *)
Definition moveSubtree (T : list tn) (wm wp : nat) (shift : Q) : list tn :=
  let change := shift / (q_of_nat (ti (tget T wp)) - q_of_nat (ti (tget T wm))) in
  let T := update_at wp (fun x => set_c (tc x - change) x) T in
  let T := update_at wp (fun x => set_s (ts x + shift) x) T in
  let T := update_at wm (fun x => set_c (tc x + change) x) T in
  let T := update_at wp (fun x => set_z (tz x + shift) x) T in
  update_at wp (fun x => set_m (tm x + shift) x) T.

(** [executeShifts(v)]: the children from the last to the first. *)
Definition executeShifts (T : list tn) (v : nat) : list tn :=
  let '(T, _, _) :=
    fold_left (fun '(T, shift, change) w =>
        let T := update_at w (fun x => set_z (tz x + shift) x) T in
        let T := update_at w (fun x => set_m (tm x + shift) x) T in
        let change := change + tc (tget T w) in
        (T, shift + ts (tget T w) + change, change))
      (rev (tch (tget T v))) (T, 0, 0) in
  T.

Definition opt_nat_eqb (a b : option nat) : bool :=
  match a, b with Some x, Some y => Nat.eqb x y | None, None => true | _, _ => false end.

(** [nextAncestor(vim, v, ancestor)]. *)
Definition nextAncestor (T : list tn) (vim v ancestor : nat) : nat :=
  let a := ta (tget T vim) in
  if opt_nat_eqb (tpar (tget T a)) (tpar (tget T v)) then a else ancestor.

Section Walks.
(** [separation(a, b)] on the hierarchy nodes of two tree nodes. *)
Variable sep : nat -> nat -> Q.

(** The [while] loop of [apportion]; [None] is a [TypeError] on a
    [null] contour node. *)
Fixpoint apportion_loop (fuel : nat) (T : list tn) (v ancestor : nat)
    (vip vop vim vom : nat) (sip sop sim som : Q)
  : option (list tn * option nat * option nat * nat * nat * Q * Q * Q * Q) :=
  match fuel with
  | O => None
  | S f =>
      let vim' := nextRight T vim in
      let vip' := nextLeft T vip in
      match vim', vip' with
      | Some vim, Some vip =>
          match nextLeft T vom, nextRight T vop with
          | Some vom, Some vop =>
              let T := update_at vop (set_a v) T in
              let shift := tz (tget T vim) + sim - tz (tget T vip) - sip + sep vim vip in
              let '(T, sip, sop) :=
                if Qlt_bool 0 shift
                then (moveSubtree T (nextAncestor T vim v ancestor) v shift,
                      sip + shift, sop + shift)
                else (T, sip, sop) in
              apportion_loop f T v ancestor vip vop vim vom
                (sip + tm (tget T vip)) (sop + tm (tget T vop))
                (sim + tm (tget T vim)) (som + tm (tget T vom))
          | _, _ => None
          end
      | _, _ => Some (T, vim', vip', vop, vom, sip, sop, sim, som)
      end
  end.

(** [apportion(v, w, ancestor)]. *)
Definition apportion (fuel : nat) (T : list tn) (v : nat) (w : option nat) (ancestor : nat)
  : option (list tn * nat) :=
  match w with
  | None => Some (T, ancestor)
  | Some w =>
      let vom := match tpar (tget T v) with
                 | Some p => match tch (tget T p) with c :: _ => c | [] => v end
                 | None => v
                 end in
      match apportion_loop fuel T v ancestor v v w vom
              (tm (tget T v)) (tm (tget T v)) (tm (tget T w)) (tm (tget T vom)) with
      | None => None
      | Some (T, vim, vip, vop, vom, sip, sop, sim, som) =>
          let T := match vim with
                   | Some vim => match nextRight T vop with
                                 | None => update_at vop (fun x => set_m (tm x + sim - sop) (set_t (Some vim) x)) T
                                 | Some _ => T
                                 end
                   | None => T
                   end in
          match vip with
          | Some vip => match nextLeft T vom with
                        | None => Some (update_at vom (fun x => set_m (tm x + sip - som) (set_t (Some vip) x)) T, v)
                        | Some _ => Some (T, ancestor)
                        end
          | None => Some (T, ancestor)
          end
      end
  end.

(** [firstWalk(v)]. *)
Definition firstWalk (fuel : nat) (T : list tn) (v : nat) : option (list tn) :=
  let p := match tpar (tget T v) with Some p => p | None => v end in
  let siblings := tch (tget T p) in
  let w := match ti (tget T v) with O => None | S k => Some (nth k siblings 0%nat) end in
  let T :=
    match tch (tget T v) with
    | c0 :: cs =>
        let T := executeShifts T v in
        let midpoint := (tz (tget T c0) + tz (tget T (last cs c0))) / 2 in
        match w with
        | Some w => let z := tz (tget T w) + sep v w in
                    update_at v (fun x => set_m (z - midpoint) (set_z z x)) T
        | None => update_at v (set_z midpoint) T
        end
    | [] =>
        match w with
        | Some w => update_at v (set_z (tz (tget T w) + sep v w)) T
        | None => T
        end
    end in
  let anc := match tA (tget T p) with Some a => a | None => nth 0 siblings 0%nat end in
  match apportion fuel T v w anc with
  | None => None
  | Some (T, a) => Some (update_at p (set_A (Some a)) T)
  end.

End Walks.

(** [d3.tree().nodeSize([dx, dy]).separation(sep)(root)]: the [x] and
    [y] of every hierarchy node, by index. *)
Definition tree_layout (fuel : nat) (sep : nat -> nat -> Q) (dx dy : Q) (H : list hn)
  : option (list (Q * Q)) :=
  let n := length H in
  let T := treeRoot H in
  let ch := fun v => tch (tget T v) in
  let after := post_order (S n) ch 0%nat in
  match fold_left (fun acc v => match acc with
                                | None => None
                                | Some T => firstWalk sep fuel T v
                                end) after (Some T) with
  | None => None
  | Some T =>
      let T := update_at n (set_m (- tz (tget T 0%nat))) T in
      let T := fold_left (fun T v =>
                 let pm := match tpar (tget T v) with Some p => tm (tget T p) | None => 0 end in
                 update_at v (fun x => set_m (tm x + pm) (set_z (tz x + pm) x)) T)
               (pre_order (S n) ch 0%nat) T in
      (* after [secondWalk], [tz] holds [v._.x] *)
      Some (map (fun v => (tz (tget T v) * dx, q_of_nat (hdepth (nth v H hn0)) * dy)) (seq 0 n))
  end.

End D3.

(* ------------------------------------------------------------------ *)
(** ** [CalculateTree]: the layout engine

    The model covers the options [main_id], [node_separation],
    [level_separation], [single_parent_empty_card], [is_horizontal],
    [one_level_rels], [ancestry_depth] and [progeny_depth]; the hooks
    [sortChildrenFunction], [sortSpousesFunction], [modifyTreeHierarchy],
    [private_cards_config] and the flags [show_siblings_of_main] and
    [duplicate_branch_toggle] are at their defaults (absent or [false]).
    A layout node keeps the fields that positions and counts depend on;
    the steps after [nodePositioning] that only add fields ([tid],
    [from]/[to], [all_rels_displayed]) are reduced to the [TypeError]
    they raise on a node whose [data] is [undefined]. *)

Module Layout.
Import Person.
Local Open Scope Q_scope.

Record cfg := mkCfg {
  main_id : option string;
  node_separation : Q;
  level_separation : Q;
  single_parent_empty_card : bool;
  is_horizontal : bool;
  one_level_rels : bool;
  ancestry_depth : option nat;
  progeny_depth : option nat
}.

Definition default_cfg : cfg := mkCfg None 250 150 true false false None None.

(** [arr.sort(cmp)] for a comparator that is a consistent order (the
    sort is stable): insertion of each element after the elements that
    do not compare greater. *)
Fixpoint insert_by {A} (cmp : A -> A -> Z) (x : A) (l : list A) : list A :=
  match l with
  | [] => [x]
  | y :: l' => if Z.leb (cmp y x) 0 then y :: insert_by cmp x l' else x :: l
  end.

Definition sort_by {A} (cmp : A -> A -> Z) (l : list A) : list A :=
  fold_left (fun acc x => insert_by cmp x acc) l [].

(** [otherParent(d, p1, data)]. *)
Definition otherParent (d p1 : person) (ds : list person) : option person :=
  find (fun d0 => negb (String.eqb (id d0) (id p1)) &&
                  (Augment.opt_str_eqb (Some (id d0)) (mother (rels d)) ||
                   Augment.opt_str_eqb (Some (id d0)) (father (rels d)))) ds.

(** [sortChildrenWithSpouses(children, datum, data)]: [indexOf] of the
    other parent's id among [datum]'s spouses ([-1] when there is none). *)
Definition sortChildrenWithSpouses (children_ : list person) (datum : person) (ds : list person)
  : list person :=
  match children (rels datum) with
  | None => children_
  | Some _ =>
      let sps := match spouses (rels datum) with Some l => l | None => [] end in
      let idx c := match otherParent c datum ds with
                   | Some p2 => JS.findIndex (String.eqb (id p2)) sps
                   | None => (-1)%Z
                   end in
      if Augment.is_male datum then sort_by (fun a b => (idx a - idx b)%Z) children_
      else sort_by (fun a b => (idx b - idx a)%Z) children_
  end.

(** [sortAddNewChildren(children)]: the comparator reads [_new_rel_data],
    which the persons of this model do not carry, so it returns [0] on
    every pair and the stable sort keeps the order. *)
Definition sortAddNewChildren (children_ : list person) : list person :=
  sort_by (fun _ _ => 0%Z) children_.

(** [ids.map(id => data_stash.find(d => d.id === id))], [None] when one
    is [undefined] (the hierarchy then throws on that node). *)
Fixpoint find_all (ds : list person) (ids : list string) : option (list person) :=
  match ids with
  | [] => Some []
  | x :: ids' => match find_person ds x, find_all ds ids' with
                 | Some p, Some ps => Some (p :: ps)
                 | _, _ => None
                 end
  end.

Definition hierarchyGetterChildren (ds : list person) (d : person) : option (list person) :=
  match find_all ds (match children (rels d) with Some l => l | None => [] end) with
  | None => None
  | Some cs => Some (sortChildrenWithSpouses (sortAddNewChildren cs) d ds)
  end.

Definition hierarchyGetterParents (ds : list person) (d : person) : option (list person) :=
  find_all ds (map (fun x => match x with Some s => s | None => "" end)
                 (filter truthy [father (rels d); mother (rels d)])).

(** [trimTree(root, is_ancestry)]: the nodes at depth [max_depth] lose
    their children. *)
Definition trimTree (c : cfg) (is_anc : bool) (H : list D3.hn) : list D3.hn :=
  let max_depth := if one_level_rels c then Some 1%nat
                   else if is_anc then ancestry_depth c else progeny_depth c in
  match max_depth with
  | None => H
  | Some md => map (fun h => if Nat.eqb (D3.hdepth h) md
                             then D3.mkHN (D3.hdata h) (D3.hpar h) (D3.hdepth h) []
                             else h) H
  end.

(** A node of the returned layout list. *)
Record lnode := mkL {
  ldata : option person;
  depth : nat;
  x : Q;
  y : Q;
  parent : option nat;
  is_ancestry : bool;
  added : bool;
  spouse : option nat;
  lspouses : list nat;
  lparents : list nat;
  lchildren : list nat
}.

Definition l0 : lnode := mkL None 0 0 0 None false false None [] [] [].

Definition set_x (q : Q) (d : lnode) : lnode :=
  mkL (ldata d) (depth d) q (y d) (parent d) (is_ancestry d) (added d) (spouse d)
      (lspouses d) (lparents d) (lchildren d).
Definition set_y (q : Q) (d : lnode) : lnode :=
  mkL (ldata d) (depth d) (x d) q (parent d) (is_ancestry d) (added d) (spouse d)
      (lspouses d) (lparents d) (lchildren d).

Definition index_of (v : nat) (l : list nat) : option nat :=
  let fix go l k := match l with
                    | [] => None
                    | a :: l' => if Nat.eqb a v then Some k else go l' (S k)
                    end in
  go l 0%nat.

(** [calculateTreePositions(datum, rt, is_ancestry)]: the hierarchy, its
    trimming, the d3 layout and [root.descendants()]. *)
Definition calculateTreePositions (fuel : nat) (c : cfg) (ns ls : Q) (ds : list person)
    (datum : person) (is_anc : bool) : option (list lnode) :=
  let getter := if is_anc then hierarchyGetterParents ds else hierarchyGetterChildren ds in
  match D3.hierarchy fuel getter datum with
  | None => None
  | Some H =>
      let H := trimTree c is_anc H in
      let hnode v := let h := nth v H D3.hn0 in Sep.mkH (D3.hpar h) (rels (D3.hdata h)) in
      let sep v w := Sep.separation is_anc (one_level_rels c) (hnode v) (hnode w) in
      match D3.tree_layout fuel sep ns ls H with
      | None => None
      | Some xy =>
          let order := D3.bfs (S (length H)) (fun v => D3.hch (nth v H D3.hn0)) [0%nat] in
          Some (map (fun v =>
                  let h := nth v H D3.hn0 in
                  let '(px, py) := nth v xy (0, 0) in
                  mkL (Some (D3.hdata h)) (D3.hdepth h) px py
                      (match D3.hpar h with Some p => index_of p order | None => None end)
                      false false None [] [] []) order)
      end
  end.

(** [levelOutEachSide(parents, children)]. *)
Definition levelOutEachSide (parents children_ : list lnode) : list lnode * list lnode :=
  let mid_diff := (x (nth 0 parents l0) - x (nth 0 children_ l0)) / 2 in
  (map (fun d => set_x (x d - mid_diff) d) parents,
   map (fun d => set_x (x d + mid_diff) d) children_).

(** [mergeSides(parents, children)]: positions in [parents] become
    positions in the merged list. *)
Definition mergeSides (parents children_ : list lnode) : list lnode :=
  let n := length children_ in
  let parents := map (fun d =>
      mkL (ldata d) (depth d) (x d) (y d)
          (if Nat.eqb (depth d) 1 then Some 0%nat
           else option_map (fun p => (n + p - 1)%nat) (parent d))
          true (added d) (spouse d) (lspouses d) (lparents d) (lchildren d)) parents in
  (children_ ++ tl parents)%list.

(** [setupChildrenAndParents({tree})]. *)
Definition setupChildrenAndParents (tree : list lnode) : list lnode :=
  let ks := seq 0 (length tree) in
  map (fun j =>
    let d := nth j tree l0 in
    let below := filter (fun k => Sep.opt_nat_eqb (parent (nth k tree l0)) (Some j)) ks in
    mkL (ldata d) (depth d) (x d) (y d) (parent d) (is_ancestry d) (added d) (spouse d)
        (lspouses d)
        (filter (fun k => is_ancestry (nth k tree l0)) below)
        (filter (fun k => negb (is_ancestry (nth k tree l0))) below)) ks.

(** The repositioning of two parents at the end of [setupSpouses]. *)
Definition place_parents (ns : Q) (d : lnode) (tree : list lnode) : list lnode :=
  match lparents d with
  | [p1; p2] =>
      let x1 := x (nth p1 tree l0) in
      let x2 := x (nth p2 tree l0) in
      let midd := x1 - (x1 - x2) / 2 in
      let x2' := midd + (ns / 2) * (if D3.Qlt_bool x1 x2 then 1 else -1) in
      let tree := update_at p2 (set_x x2') tree in
      let x1' := midd + (ns / 2) * (if D3.Qlt_bool x2' x1 then 1 else -1) in
      update_at p1 (set_x x1') tree
  | _ => tree
  end.

(** One iteration [i] of [setupSpouses]; [None] is a [TypeError] on a
    node without [data]. *)
Definition spouses_step (c : cfg) (ns : Q) (ds : list person) (tree : option (list lnode)) (i : nat)
  : option (list lnode) :=
  match tree with
  | None => None
  | Some tree =>
      let d := nth i tree l0 in
      match ldata d with
      | None => None
      | Some p =>
          let sps := match spouses (rels p) with Some l => l | None => [] end in
          if negb (is_ancestry d) && Nat.ltb 0 (length sps) then
            if one_level_rels c && Nat.ltb 0 (depth d) then Some tree
            else
              let side := if Augment.is_male p then -1 else 1 in
              let dx := x d + inject_Z (Z.of_nat (length sps)) / 2 * ns * side in
              let tree := update_at i (set_x dx) tree in
              let tree := fold_left (fun tree '(k, sp_id) =>
                  let n := length tree in
                  let sp := mkL (find_person ds sp_id) (depth d)
                              (dx - (ns * (D3.q_of_nat (S k))) * side) (y d)
                              None false true (Some i) [] [] [] in
                  let tree := update_at i (fun e =>
                      mkL (ldata e) (depth e) (x e) (y e) (parent e) (is_ancestry e) (added e)
                          (spouse e) (lspouses e ++ [n])%list (lparents e) (lchildren e)) tree in
                  (tree ++ [sp])%list)
                (combine (seq 0 (length sps)) sps) tree in
              Some (place_parents ns d tree)
          else Some (place_parents ns d tree)
      end
  end.

Definition setupSpouses (c : cfg) (ns : Q) (ds : list person) (tree : list lnode)
  : option (list lnode) :=
  fold_left (spouses_step c ns ds) (rev (seq 0 (length tree))) (Some tree).

(** [nodePositioning({tree})]. *)
Definition nodePositioning (c : cfg) (tree : list lnode) : list lnode :=
  map (fun d =>
    let d := set_y (y d * (if is_ancestry d then -1 else 1)) d in
    if is_horizontal c then set_y (x d) (set_x (y d) d) else d) tree.

(** [calculateTreeDim]: width, height and the two offsets. *)
Record dim_t := mkDim { width : Q; height : Q; offsets : option (Q * Q) }.

(** [d3.extent]: the least and the greatest value. *)
Definition qmin (l : list Q) : Q :=
  match l with [] => 0 | a :: l' => fold_left (fun m v => if Qle_bool v m then v else m) l' a end.
Definition qmax (l : list Q) : Q :=
  match l with [] => 0 | a :: l' => fold_left (fun m v => if Qle_bool m v then v else m) l' a end.

Definition calculateTreeDim (c : cfg) (tree : list lnode) (ns ls : Q) : dim_t :=
  let '(ns, ls) := if is_horizontal c then (ls, ns) else (ns, ls) in
  let xs := map x tree in
  let ys := map y tree in
  mkDim (qmax xs - qmin xs + ns) (qmax ys - qmin ys + ls)
        (Some (- qmin xs + ns / 2, - qmin ys + ls / 2)).

(** The returned object. *)
Record result := mkRes {
  rdata : list lnode;
  data_stash : list person;
  dim : dim_t;
  rmain_id : option string;
  ris_horizontal : option bool
}.

(** [CalculateTree(props)]; [data] is [None] when missing, [gen] draws
    the uuids of [createRelsToAdd]. *)
Definition CalculateTree (gen : nat -> string) (fuel : nat) (c : cfg)
    (data : option (list person)) : option result :=
  match data with
  | None | Some [] => Some (mkRes [] [] (mkDim 0 0 None) None None)
  | Some ds =>
      let '(ns, ls) := if is_horizontal c then (level_separation c, node_separation c)
                       else (node_separation c, level_separation c) in
      match (if single_parent_empty_card c
             then option_map fst (Augment.createRelsToAdd gen 0 ds) else Some ds) with
      | None => None
      | Some stash =>
          let main := match main_id c with
                      | Some m => match find_person stash m with
                                  | Some p => p
                                  | None => nth 0 stash D3.dummy
                                  end
                      | None => nth 0 stash D3.dummy
                      end in
          match calculateTreePositions fuel c ns ls stash main false,
                calculateTreePositions fuel c ns ls stash main true with
          | Some tree_children, Some tree_parents =>
              let '(tree_parents, tree_children) := levelOutEachSide tree_parents tree_children in
              let tree := mergeSides tree_parents tree_children in
              let tree := setupChildrenAndParents tree in
              match setupSpouses c ns stash tree with
              | None => None
              | Some tree =>
                  let tree := nodePositioning c tree in
                  if forallb (fun d => match ldata d with Some _ => true | None => false end) tree
                  then Some (mkRes tree stash (calculateTreeDim c tree ns ls) (Some (id main))
                                   (Some (is_horizontal c)))
                  else None
              end
          | _, _ => None
          end
      end
  end.

End Layout.

(* ------------------------------------------------------------------ *)
(** ** Duplicate branch toggles: resolving one group of duplicates

    [handleDuplicateHierarchyAncestry] and [handleDuplicateHierarchyProgeny]
    gather the hierarchy nodes of one duplicate group into
    [all_duplicates] and call [assignDuplicateValues] and
    [handleToggleOff] on it. A member's toggle value lives in
    [d.data._tgdp[parent_id]] (ancestry) or
    [d.data._tgdp_sp[parent_id][p2.id]] (progeny); the model names that
    cell by a key (the list of the ids that select it) and keeps the
    cells of all persons in one store. *)

Module Dup.

Definition key := list string.

Fixpoint key_eqb (a b : key) : bool :=
  match a, b with
  | [], [] => true
  | x :: a', y :: b' => String.eqb x y && key_eqb a' b'
  | _, _ => false
  end.

(** The toggle cells, and the stash [__tgdp_sp] of the progeny side. *)
Definition store := list (key * Z).

Definition lookup (s : store) (k : key) : option Z :=
  option_map snd (find (fun kv => key_eqb (fst kv) k) s).

Definition set (s : store) (k : key) (v : Z) : store :=
  (k, v) :: filter (fun kv => negb (key_eqb (fst kv) k)) s.

Definition remove (s : store) (k : key) : store :=
  filter (fun kv => negb (key_eqb (fst kv) k)) s.

(** An element of [all_duplicates]: its position (the identity of the
    object), the key of its cell and its [_toggle] / [val]. *)
Record member := mkM { pos : nat; mkey : key; val : Z }.

(** The first loop of the ancestry [assignDuplicateValues]: a falsy cell
    ([undefined] or [0]) is set to [-1]; [d._toggle] is the cell. *)
Definition assign_anc_step (acc : store * list member) (ik : nat * key)
  : store * list member :=
  let '(s, ms) := acc in
  let '(i, k) := ik in
  let s := match lookup s k with
           | Some v => if Z.eqb v 0 then set s k (-1) else s
           | None => set s k (-1)
           end in
  (s, (ms ++ [mkM i k (match lookup s k with Some v => v | None => 0 end)])%list).

Definition assign_anc (s : store) (ks : list key) : store * list member :=
  fold_left assign_anc_step (combine (seq 0 (length ks)) ks) (s, []).

(** The first loop of the progeny [assignDuplicateValues]:
    [unstashTgdpSpouse] moves a stashed value back into the cell, then a
    cell without the property is set to [1]; [val] is the cell. *)
Definition assign_prog_step (acc : store * store * list member) (ik : nat * key)
  : store * store * list member :=
  let '(s, stash, ms) := acc in
  let '(i, k) := ik in
  let '(s, stash) := match lookup stash k with
                     | Some v => (set s k v, remove stash k)
                     | None => (s, stash)
                     end in
  match lookup s k with
  | Some v => (s, stash, (ms ++ [mkM i k v])%list)
  | None => (set s k 1, stash, (ms ++ [mkM i k 1])%list)
  end.

Definition assign_prog (s stash : store) (ks : list key) : store * store * list member :=
  fold_left assign_prog_step (combine (seq 0 (length ks)) ks) (s, stash, []).

(** [all_duplicates.sort((a, b) => b.val - a.val)]. *)
Definition sort_desc (ms : list member) : list member :=
  Layout.sort_by (fun a b => (val b - val a)%Z) ms.

(** The [forEach] that collapses every member but [latest_duplicate]. *)
Definition close_step (latest : member) (s : store) (m : member) : store :=
  if Nat.eqb (pos m) (pos latest) then s else set s (mkey m) (-1).

(** The [on_toggle_one_close_others] branch of [assignDuplicateValues]. *)
Definition close_others (s : store) (ms : list member) : store :=
  let '(s, ms) :=
    if forallb (fun m => Z.ltb (val m) 0) ms then
      let sorted := sort_desc ms in
      match sorted with
      | first :: _ => (set s (mkey first) 1, sorted)
      | [] => (s, sorted)
      end
    else (s, ms) in
  if Nat.ltb 1 (length (filter (fun m => Z.ltb 0 (val m)) ms)) then
    let sorted := sort_desc ms in
    match sorted with
    | latest :: _ =>
        fold_left (close_step latest) sorted s
    | [] => s
    end
  else s.

(** [handleToggleOff]: whether each member loses its children (the cell
    is negative). *)
Definition toggled_off (s : store) (ms : list member) : list bool :=
  map (fun m => match lookup s (mkey m) with Some v => Z.ltb v 0 | None => false end) ms.

(** One group, with [on_toggle_one_close_others = true]. *)
(** Every stored or stashed toggle value is non-zero (the click
    handler writes [+-Date.now()] and the layout writes [1] or [-1]). *)
Definition nonzero (s : store) : Prop := Forall (fun kv => snd kv <> 0%Z) s.

Definition resolve_anc (s : store) (ks : list key) : store * list member :=
  let '(s, ms) := assign_anc s ks in (close_others s ms, ms).

Definition resolve_prog (s stash : store) (ks : list key) : store * list member :=
  let '(s, _, ms) := assign_prog s stash ks in (close_others s ms, ms).

End Dup.

(* ------------------------------------------------------------------ *)
(** ** The store's fallback focus: [getLastAvailableMainDatum] *)

Module StoreMain.
Import Person.

(** [getDatum(id)] as a truth value: the found object is truthy. *)
Definition has_datum (ds : list person) (x : string) : bool :=
  match find_person ds x with Some _ => true | None => false end.

(** [getLastAvailableMainDatum()] on [state.data = ds]: the latest
    history id naming a person of the data, else [state.data[0].id]
    (an empty string found in the history is falsy and also falls back);
    [None] is the [TypeError] of [state.data[0].id] on empty data. *)
Definition getLastAvailableMainDatum (ds : list person) (s : Store.state)
  : option (option person * Store.state) :=
  let found := find (has_datum ds) (rev (Store.main_id_history s)) in
  let main_id := match found with
                 | Some m => if String.eqb m "" then option_map id (hd_error ds) else Some m
                 | None => option_map id (hd_error ds)
                 end in
  match main_id with
  | None => None
  | Some m =>
      let s := if negb (Sep.opt_eqb (Some m) (Store.main_id s)) then Store.updateMainId m s else s in
      Some (find_person ds m, s)
  end.

End StoreMain.

(* ------------------------------------------------------------------ *)
(** ** The undo history: [createHistory] *)

Module History.
Import Person.

(** A saved copy of the data: the array and the [main_id] property
    that [changed] attaches to it. *)
Record snapshot := mkSnap { snap : list person; snap_main : option string }.

(** [JSON.parse(JSON.stringify(data))]: the array's elements survive,
    keys whose value is [undefined] are dropped, and a property set on
    the array itself ([main_id]) is not serialised. *)
Definition json_person (p : person) : person :=
  set_data p (filter (fun kv => match snd kv with Some _ => true | None => false end) (data p)).

Definition json_copy (d : snapshot) : snapshot := mkSnap (map json_person (snap d)) None.

(** The store fields the history reads and writes; the focus and the
    focus history hold [undefined] as [None]. *)
Record hstore := mkHS { smain : option string; shist : list (option string); sdata : list person }.

(** The store's [updateMainId(id)] on such a state. *)
Definition updateMainId (i : option string) (s : hstore) : hstore :=
  if Sep.opt_eqb i (smain s) then s
  else mkHS i (JS.slice_neg 10 (filter (fun d => negb (Sep.opt_eqb d i)) (shist s)) ++ [i])%list
            (sdata s).

(** [updateData(data)] of the history; the [onUpdate] callback is the
    caller's and is not part of the model. *)
Definition updateData (d : snapshot) (st : hstore) : hstore :=
  let d := json_copy d in
  let st := if existsb (fun p => Sep.opt_eqb (Some (id p)) (smain st)) (snap d) then st
            else updateMainId (snap_main d) st in
  mkHS (smain st) (shist st) (snap d).

(** [history] and [history_index]. *)
Record hist := mkH { entries : list snapshot; index : Z }.

Definition init : hist := mkH [] (-1).

Definition canForward (h : hist) : bool := Z.ltb (index h) (Z.of_nat (length (entries h)) - 1).

Definition canBack (h : hist) : bool := Z.ltb 0 (index h).

(** [changed()]; [copy] is what [getStoreDataCopy()] returned. *)
Definition changed (copy : list person) (st : hstore) (h : hist) : hist :=
  let e := if Z.ltb (index h) (Z.of_nat (length (entries h)) - 1)
           then firstn (Z.to_nat (index h + 1)) (entries h) else entries h in
  mkH (e ++ [mkSnap copy (smain st)])%list (index h + 1).

Definition snap0 : snapshot := mkSnap [] None.

Definition back (h : hist) (st : hstore) : hist * hstore :=
  if negb (canBack h) then (h, st)
  else let h := mkH (entries h) (index h - 1) in
       (h, updateData (nth (Z.to_nat (index h)) (entries h) snap0) st).

Definition forward (h : hist) (st : hstore) : hist * hstore :=
  if negb (canForward h) then (h, st)
  else let h := mkH (entries h) (index h + 1) in
       (h, updateData (nth (Z.to_nat (index h)) (entries h) snap0) st).

(** What can happen between two calls: the history's three operations,
    and any change the rest of the program makes to the store. *)
Inductive op := Changed (copy : list person) | Back | Forward | Edit (st : hstore).

Definition step (hs : hist * hstore) (o : op) : hist * hstore :=
  let '(h, st) := hs in
  match o with
  | Changed c => (changed c st h, st)
  | Back => back h st
  | Forward => forward h st
  | Edit st' => (h, st')
  end.

Definition run (os : list op) (hs : hist * hstore) : hist * hstore := fold_left step os hs.

End History.

(* ------------------------------------------------------------------ *)
(** ** Fitting the view: [calculateTreeFit], [positionTree] and
       [calculateDelay] *)

Module Fit.

Local Open Scope Q_scope.

(** [Math.min(a, b)] on numbers. *)
Definition qmin2 (a b : Q) : Q := if Qle_bool a b then a else b.

(** [calculateTreeFit(svg_dim, tree_dim)]: the scale [k] and the
    translation [x], [y]. *)
Definition calculateTreeFit (sw sh tw th x_off y_off : Q) : Q * Q * Q :=
  let k := qmin2 (sw / tw) (sh / th) in
  let k := if D3.Qlt_bool 1 k then 1 else k in
  (k, x_off + (sw - tw * k) / k / 2, y_off + (sh - th * k) / k / 2).

(** [treeFit] on the [dim] of a layout. *)
Definition treeFit (sw sh : Q) (dm : Layout.dim_t) : option (Q * Q * Q) :=
  match Layout.offsets dm with
  | Some (xo, yo) => Some (calculateTreeFit sw sh (Layout.width dm) (Layout.height dm) xo yo)
  | None => None
  end.

(** Where [positionTree]'s [zoomIdentity.scale(k).translate(x, y)]
    puts the point [(px, py)] on the screen. *)
Definition screen (t : Q * Q * Q) (px py : Q) : Q * Q :=
  let '(k, x, y) := t in (k * (px + x), k * (py + y)).

(** [calculateDelay(tree, d, transition_time)]; [Math.max] over the
    depths (all non-negative) of the non-empty [tree] that holds [d]. *)
Definition calculateDelay (tree : list Layout.lnode) (d : Layout.lnode) (t : Q) : Q :=
  let delay_level := t * (4 # 10) in
  let ancestry_levels :=
    fold_left Nat.max (map (fun d => if Layout.is_ancestry d then Layout.depth d else 0%nat) tree) 0%nat in
  let qn (n : nat) := inject_Z (Z.of_nat n) in
  let delay := qn (Layout.depth d) * delay_level in
  let has_sp := match Layout.spouse d with Some _ => true | None => false end in
  if (negb (Nat.eqb (Layout.depth d) 0) || has_sp) && negb (Layout.is_ancestry d) then
    delay + qn ancestry_levels * delay_level + (if has_sp then delay_level else 0)
          + qn (Layout.depth d) * delay_level
  else delay.

End Fit.

Module Samples.

(** Sample inputs for the history properties: two saved copies, an
    older one holding only [B] saved while [B] was focused, and the
    current one holding [A] and [B] saved while [A] was focused. *)
Definition hist_A : Person.person := Person.mkPerson "A" [] Person.no_rels None false false.
Definition hist_B : Person.person := Person.mkPerson "B" [] Person.no_rels None false false.

Definition hist_two : History.hist :=
  History.mkH [History.mkSnap [hist_B] (Some "B"); History.mkSnap [hist_A; hist_B] (Some "A")] 1.

Definition hist_store : History.hstore := History.mkHS (Some "A") [Some "B"; Some "A"] [hist_A; hist_B].

(** Sample tree for the layout properties: a main card at the origin
    with a parent above it, and a child with a spouse below. *)
Definition fit_tree : list Layout.lnode :=
  [ Layout.mkL None 0 0 0 None false false None [] [] [];
    Layout.mkL None 1 (-125) (-150) (Some 0%nat) true false None [] [] [];
    Layout.mkL None 1 125 150 (Some 0%nat) false false None [] [] [];
    Layout.mkL None 1 375 150 None false false (Some 2%nat) [] [] [] ].

End Samples.

Module LayoutSort.
Import Person Layout.

(** The sort key of [sortChildrenWithSpouses] for a child [c]: the index
    of [c]'s other parent among [datum]'s spouses, [-1] when [c] has no
    other parent or it is not listed ([a_i] and [b_i] in the source). *)
Definition spouse_index (datum : person) (ds : list person) (c : person) : Z :=
  let sps := match spouses (rels datum) with Some l => l | None => [] end in
  match otherParent c datum ds with
  | Some p2 => JS.findIndex (String.eqb (id p2)) sps
  | None => (-1)%Z
  end.

End LayoutSort.

Module SortSamples.
Import Person.

(** A father [F] with two partners [W1] and [W2] (in that order) and
    three children: [K1] and [K3] with [W2], [K2] with [W1]. *)
Definition sp_F : person :=
  mkPerson "F" [("gender", Some "M")] (mkRels None None (Some ["W1"; "W2"]) (Some ["K1"; "K2"; "K3"])) None false false.
Definition sp_W1 : person :=
  mkPerson "W1" [("gender", Some "F")] (mkRels None None (Some ["F"]) (Some ["K2"])) None false false.
Definition sp_W2 : person :=
  mkPerson "W2" [("gender", Some "F")] (mkRels None None (Some ["F"]) (Some ["K1"; "K3"])) None false false.
Definition sp_K1 : person := mkPerson "K1" [] (mkRels (Some "F") (Some "W2") None None) None false false.
Definition sp_K2 : person := mkPerson "K2" [] (mkRels (Some "F") (Some "W1") None None) None false false.
Definition sp_K3 : person := mkPerson "K3" [] (mkRels (Some "F") (Some "W2") None None) None false false.
Definition sp_data : list person := [sp_F; sp_W1; sp_W2; sp_K1; sp_K2; sp_K3].

End SortSamples.

Module Middle.
Local Open Scope Q_scope.

(** [cardToMiddle({datum, svg, svg_dim, scale})]: the transform handed
    to [positionTree] for the card at ([dx], [dy]) on a screen of size
    [sw] x [sh]; [scale || 1] turns a missing or zero scale into [1]. *)
Definition cardToMiddle (scale : option Q) (sw sh dx dy : Q) : Q * Q * Q :=
  let k := match scale with Some s => if Qeq_bool s 0 then 1 else s | None => 1 end in
  let x := sw / 2 - dx * k in
  let y := sh / 2 - dy in
  (k, x / k, y / k).

End Middle.

Module DataKeys.
Import Person.

(** [Object.keys(d.data)]. *)
Definition keys (p : person) : list string := map fst (data p).

End DataKeys.

Module SyncSamples.
Import Person.

(** Two spouses whose wedding date is a reference field mirrored on
    both sides. *)
Definition sync_A : person :=
  mkPerson "A" [("gender", Some "F"); ("wedding__ref__B", Some "1990")] no_rels None false false.
Definition sync_B : person :=
  mkPerson "B" [("gender", Some "M"); ("wedding__ref__A", Some "1990")] no_rels None false false.
Definition sync_B_after : person :=
  mkPerson "B" [("gender", Some "M")] no_rels None false false.

End SyncSamples.

Module Connected.
Import Person.

(** One iteration of [r_ids.forEach(r_id => ...)] in [checkRels]; the
    state is the shared [rels_checked] array and the [connected] flag,
    [None] a thrown [TypeError] (reading [.id] of a missing person).
    [rec] is the recursive [checkRels(person)]. *)
Definition checkRels_step (rec : person -> list string * bool -> option (list string * bool))
    (ds : list person) (first_id : string)
    (acc : option (list string * bool)) (r_id : string) : option (list string * bool) :=
  match acc with
  | None => None
  | Some (checked, conn) =>
      if JS.includes checked r_id then Some (checked, conn)
      else
        let checked := (checked ++ [r_id])%list in
        match find_person ds r_id with
        | None => None
        | Some person =>
            if String.eqb (id person) first_id then Some (checked, true)
            else rec person (checked, conn)
        end
  end.

(** [checkRels(d0)]: returns at once when [connected] is set, otherwise
    walks the relatives of [d0].  Each nested call follows the push of a
    new id of a person of [data_stash], so [length data_stash + 2] units
    of fuel are enough. *)
Fixpoint checkRels (fuel : nat) (ds : list person) (first_id : string) (d0 : person)
    (st : list string * bool) : option (list string * bool) :=
  match fuel with
  | O => None
  | S f =>
      if snd st then Some st
      else fold_left (checkRels_step (fun p s => checkRels f ds first_id p s) ds first_id)
                     (rel_ids (rels d0)) (Some st)
  end.

(** [checkIfConnectedToFirstPerson(datum, data_stash)]; [None] is the
    [TypeError] of an empty [data_stash] or of a missing relative. *)
Definition checkIfConnectedToFirstPerson (datum : person) (ds : list person) : option bool :=
  match ds with
  | [] => None
  | first :: _ =>
      if String.eqb (id datum) (id first) then Some true
      else match checkRels (S (S (length ds))) ds (id first) datum ([], false) with
           | None => None
           | Some (_, c) => Some c
           end
  end.

(** [p] is linked to the person with id [target] by a chain of relation
    ids ([father], [mother], [spouses], [children]), each naming a
    person of [ds]. *)
Inductive reaches (ds : list person) (target : string) : person -> Prop :=
  | reach_here p r q :
      In r (rel_ids (rels p)) -> find_person ds r = Some q -> id q = target ->
      reaches ds target p
  | reach_step p r q :
      In r (rel_ids (rels p)) -> find_person ds r = Some q -> reaches ds target q ->
      reaches ds target p.

End Connected.

Module Private.
Import Person.

(** [[rels.father, rels.mother, ...(rels.spouses || [])]]. *)
Definition ps_ids (d : person) : list (option string) :=
  ([father (rels d); mother (rels d)] ++
   map Some (match spouses (rels d) with Some l => l | None => [] end))%list.

(** [private_persons[d_id]]: the object written by [isPrivate]; the
    latest write comes first. *)
Definition lookup_memo (memo : list (string * bool)) (x : string) : option bool :=
  option_map snd (find (fun kv => String.eqb (fst kv) x) memo).

Section WithCondition.
Variable condition : person -> bool.

(** One iteration of the [forEach] in [checkParentsAndSpouses]; the
    state is [parents_and_spouses_checked] and [is_private]. *)
Definition checkPS_step (rec : string -> list string * bool -> option (list string * bool))
    (acc : option (list string * bool)) (o : option string) : option (list string * bool) :=
  match acc with
  | None => None
  | Some (checked, ip) =>
      if negb (truthy o) then Some (checked, ip)
      else
        let x := match o with Some x => x | None => "" end in
        if JS.includes checked x then Some (checked, ip)
        else rec x ((checked ++ [x])%list, ip)
  end.

(** [checkParentsAndSpouses(d_id)]; [None] is the [TypeError] of a
    missing person.  The persons of this model carry no
    [_new_rel_data], so that early return never fires.  Each nested call
    follows the push of a new id, so [length data_stash + 2] units of
    fuel are enough. *)
Fixpoint checkParentsAndSpouses (fuel : nat) (ds : list person) (memo : list (string * bool))
    (d_id : string) (st : list string * bool) : option (list string * bool) :=
  match fuel with
  | O => None
  | S f =>
      let '(checked, ip) := st in
      if ip then Some st
      else match lookup_memo memo d_id with
           | Some b => Some (checked, b)
           | None =>
               match find_person ds d_id with
               | None => None
               | Some d =>
                   if condition d then Some (checked, true)
                   else fold_left (checkPS_step (fun x s => checkParentsAndSpouses f ds memo x s))
                                  (ps_ids d) (Some (checked, ip))
               end
           end
  end.

(** [isPrivate(d_id)]: the answer and the updated [private_persons]. *)
Definition isPrivate (ds : list person) (memo : list (string * bool)) (d_id : string)
    : option (bool * list (string * bool)) :=
  match checkParentsAndSpouses (S (S (length ds))) ds memo d_id ([], false) with
  | None => None
  | Some (_, ip) => Some (ip, (d_id, ip) :: memo)
  end.

(** [tree.forEach(...)]: the [is_private] flag of each tree node, given
    by its person [d.data]. *)
Fixpoint private_loop (ds : list person) (memo : list (string * bool)) (tree : list person)
    : option (list bool) :=
  match tree with
  | [] => Some []
  | d :: t =>
      match isPrivate ds memo (id d) with
      | None => None
      | Some (b, memo') => option_map (cons b) (private_loop ds memo' t)
      end
  end.

End WithCondition.

(** [handlePrivateCards({tree, data_stash, private_cards_config})]: the
    [is_private] flags of the tree nodes; without a condition nothing is
    flagged. *)
Definition handlePrivateCards (condition : option (person -> bool)) (ds : list person)
    (tree : list person) : option (list bool) :=
  match condition with
  | None => Some (map (fun _ => false) tree)
  | Some c => private_loop c ds [] tree
  end.

(** The person with id [x] meets [condition], or one of its parents or
    spouses does, transitively, every id naming a person of [ds]. *)
Inductive priv_reach (condition : person -> bool) (ds : list person) : string -> Prop :=
  | pr_here x d :
      find_person ds x = Some d -> condition d = true -> priv_reach condition ds x
  | pr_step x d y :
      find_person ds x = Some d -> In (Some y) (ps_ids d) -> priv_reach condition ds y ->
      priv_reach condition ds x.

End Private.

Module DupStash.
Import Dup.

(** [stashTgdpSpouse(d, parent_id, p2)] on the cells [_tgdp_sp] and the
    stash [__tgdp_sp]: a cell that is set moves to the stash. *)
Definition stashTgdpSpouse (s stash : store) (k : key) : store * store :=
  match lookup s k with
  | Some v => (remove s k, set stash k v)
  | None => (s, stash)
  end.

End DupStash.

(** * [setupSiblings]: siblings of the main person, placed left and right
    of the main card and its spouses. Nodes are represented by their
    [data]; the result lists each placed sibling with its [x]. *)
Module Siblings.
Import Person.
Local Open Scope Q_scope.

(** [findSiblings()]: people other than [main] sharing its father or its
    mother (the parent id has to be truthy). *)
Definition findSiblings (main : person) (data_stash : list person) : list person :=
  let main_father_id := father (rels main) in
  let main_mother_id := mother (rels main) in
  filter (fun d =>
            if String.eqb (id d) (id main) then false
            else if truthy main_father_id &&
                    Augment.opt_str_eqb (father (rels d)) main_father_id then true
            else if truthy main_mother_id &&
                    Augment.opt_str_eqb (mother (rels d)) main_mother_id then true
            else false) data_stash.

(** [main.parents.find(d => d.data.id === r)] is found. *)
Definition parent_found (main_parents : list person) (r : option string) : bool :=
  existsb (fun p => Augment.opt_str_eqb (Some (id p)) r) main_parents.

(** The comparator of the second [sort] of [positionSiblings]. *)
Definition sib_cmp (main_parents : list person) (a b : person) : Z :=
  let a_father := parent_found main_parents (father (rels a)) in
  let a_mother := parent_found main_parents (mother (rels a)) in
  let b_father := parent_found main_parents (father (rels b)) in
  let b_mother := parent_found main_parents (mother (rels b)) in
  if negb a_mother && b_mother then (-1)%Z
  else if a_mother && negb b_mother then 1%Z
  else if negb a_father && b_father then 1%Z
  else if a_father && negb b_father then (-1)%Z
  else 0%Z.

(** The [x] given to the sibling at index [i], [m] being
    [main_sorted_index] and [lo], [hi] the two ends of [x_range]. *)
Definition place (lo hi ns : Q) (m i : Z) : Q :=
  if Z.ltb i m then lo - ns * inject_Z (m - i) else hi + ns * inject_Z (i - m).

(** The [for] loop over [sorted_siblings] from index [i], skipping
    [main_sorted_index]. *)
Fixpoint place_all (lo hi ns : Q) (m i : Z) (l : list person) : list (person * Q) :=
  match l with
  | [] => []
  | s :: l' =>
      if Z.eqb i m then place_all lo hi ns m (i + 1) l'
      else (s, place lo hi ns m i) :: place_all lo hi ns m (i + 1) l'
  end.

(** [positionSiblings()]: [main_parents] are the data of [main.parents],
    [main_x] is [main.x] and [spouses_x] the [x] of [main.spouses]. *)
Definition positionSiblings (sortChildrenFunction : option (person -> person -> Z))
    (node_separation : Q) (main_parents : list person) (main : person)
    (main_x : Q) (spouses_x : list Q) (siblings_added : list person) : list (person * Q) :=
  let sorted_siblings := main :: siblings_added in
  let sorted_siblings :=
    match sortChildrenFunction with
    | Some f => Layout.sort_by f sorted_siblings
    | None => sorted_siblings
    end in
  let sorted_siblings := Layout.sort_by (sib_cmp main_parents) sorted_siblings in
  let x_range := (Layout.qmin (main_x :: spouses_x), Layout.qmax (main_x :: spouses_x)) in
  let main_sorted_index :=
    JS.findIndex (fun d => String.eqb (id d) (id main)) sorted_siblings in
  place_all (fst x_range) (snd x_range) node_separation main_sorted_index 0 sorted_siblings.

(** [setupSiblings(...)]: the siblings found in [data_stash] and the
    [x] each one receives. *)
Definition setupSiblings (sortChildrenFunction : option (person -> person -> Z))
    (node_separation : Q) (main_parents : list person) (main : person)
    (main_x : Q) (spouses_x : list Q) (data_stash : list person) : list (person * Q) :=
  positionSiblings sortChildrenFunction node_separation main_parents main main_x spouses_x
    (findSiblings main data_stash).

End Siblings.

(** * [handleDuplicateHierarchyAncestry] on the ancestry hierarchy.
    The d3 hierarchy is an array of nodes: the root is node [0], and a
    node records its person's id ([d.data.id]), its parent and its
    [children] array ([None] once deleted). The [_tgdp] cells of the
    persons form a [Dup.store] keyed by [[person id; parent_id]]. *)
Module DupTree.
Import Person.
Local Set Warnings "-register-all".

Record hnode := mkH { hdata : string; hparent : option nat; hchildren : option (list nat) }.

(** The nested value [d3.hierarchy] builds before it numbers the nodes. *)
Inductive rtree := RNode : string -> list rtree -> rtree.

(** [hierarchyGetterParents(d)]: [[d.rels.father, d.rels.mother]
    .filter(d => d).map(id => data_stash.find(d => d.id === id))];
    [None] when an id has no person (the hierarchy then throws on the
    [undefined] node) or the fuel runs out. *)
Definition hierarchyGetterParents (ds : list person) (p : person) : option (list person) :=
  let ids := filter truthy [father (rels p); mother (rels p)] in
  fold_right (fun o acc =>
                match o, acc with
                | Some x, Some l => match find_person ds x with
                                    | Some q => Some (q :: l)
                                    | None => None
                                    end
                | _, _ => None
                end) (Some []) ids.

Fixpoint hierarchy (fuel : nat) (ds : list person) (p : person) : option rtree :=
  match fuel with
  | O => None
  | S f =>
      match hierarchyGetterParents ds p with
      | None => None
      | Some qs =>
          match fold_right (fun q acc =>
                              match hierarchy f ds q, acc with
                              | Some t, Some ts => Some (t :: ts)
                              | _, _ => None
                              end) (Some []) qs with
          | Some ts => Some (RNode (id p) ts)
          | None => None
          end
      end
  end.

Fixpoint rsize (t : rtree) : nat :=
  match t with
  | RNode _ ks => S ((fix go (ks : list rtree) : nat :=
                        match ks with [] => O | k :: ks' => rsize k + go ks' end) ks)
  end.

(** The nodes in pre-order from index [i]; a node without parents gets
    no [children] property, as in [d3.hierarchy]. *)
Fixpoint flatten (t : rtree) (parent : option nat) (i : nat) : list hnode :=
  match t with
  | RNode x ks =>
      let fix go (ks : list rtree) (j : nat) : list nat * list hnode :=
        match ks with
        | [] => ([], [])
        | k :: ks' => let '(ix, ns) := go ks' (j + rsize k) in
                      (j :: ix, (flatten k (Some i) j ++ ns)%list)
        end in
      let '(ix, ns) := go ks (S i) in
      mkH x parent (match ks with [] => None | _ => Some ix end) :: ns
  end.

Definition node_id (tree : list hnode) (n : nat) : string :=
  match nth_error tree n with Some h => hdata h | None => "" end.

Definition children_of (tree : list hnode) (n : nat) : option (list nat) :=
  match nth_error tree n with Some h => hchildren h | None => None end.

(** [root === d ? 'main' : d.parent.data.id]. *)
Definition parent_key (tree : list hnode) (n : nat) : string :=
  if Nat.eqb n 0 then "main"
  else match nth_error tree n with
       | Some h => match hparent h with Some q => node_id tree q | None => "main" end
       | None => "main"
       end.

(** The cell [d.data._tgdp[parent_id]]. *)
Definition cell_key (tree : list hnode) (n : nat) : Dup.key :=
  [node_id tree n; parent_key tree n].

(** [delete d.children]. *)
Definition delete_children (tree : list hnode) (n : nat) : list hnode :=
  update_at n (fun h => mkH (hdata h) (hparent h) None) tree.

(** [checkIfDuplicate(children_1, d.children)]: [arr1 !== arr2] holds
    unless [d] is the node [head] whose array [children_1] is, and every
    node of [children_1] has a node of the same person in [d.children]. *)
Definition checkIfDuplicate (tree : list hnode) (head d : nat) (arr1 arr2 : list nat) : bool :=
  negb (Nat.eqb head d) &&
  forallb (fun a => existsb (fun b => String.eqb (node_id tree a) (node_id tree b)) arr2) arr1.

(** [checkChildren(d)] of [findDuplicates(children_1)], pushing onto
    [duplicates]. *)
Fixpoint checkChildren (fuel : nat) (tree : list hnode) (head : nat) (children_1 : list nat)
    (d : nat) (duplicates : list nat) : list nat :=
  match fuel with
  | O => duplicates
  | S f =>
      match children_of tree d with
      | None => duplicates
      | Some cs =>
          if checkIfDuplicate tree head d children_1 cs then (duplicates ++ [d])%list
          else fold_left (fun acc c => checkChildren f tree head children_1 c acc) cs duplicates
      end
  end.

Definition findDuplicates (tree : list hnode) (head : nat) (children_1 : list nat) : list nat :=
  checkChildren (length tree) tree head children_1 0 [].

Record st := mkSt { tree : list hnode; cells : Dup.store; ancestry_duplicates : list (list nat) }.

(** [handleToggleOff(all_duplicates)]: the members whose cell is
    negative lose their children. *)
Definition handleToggleOff (t : list hnode) (all_duplicates : list nat) (off : list bool) : list hnode :=
  fold_left (fun (t : list hnode) (nb : nat * bool) => if snd nb then delete_children t (fst nb) else t) (combine all_duplicates off) t.

(** [loopChildren(d)], with [on_toggle_one_close_others = true]; the
    [forEach] runs over the array [d.children] held when it starts. *)
Fixpoint loopChildren (fuel : nat) (d : nat) (s : st) : st :=
  match fuel with
  | O => s
  | S f =>
      match children_of (tree s) d with
      | None => s
      | Some cs =>
          if existsb (fun g => existsb (Nat.eqb d) g) (ancestry_duplicates s) then s
          else
            match findDuplicates (tree s) d cs with
            | [] => fold_left (fun s c => loopChildren f c s) cs s
            | dups =>
                let all_duplicates := d :: dups in
                let '(c', ms) := Dup.resolve_anc (cells s) (map (cell_key (tree s)) all_duplicates) in
                mkSt (handleToggleOff (tree s) all_duplicates (Dup.toggled_off c' ms)) c'
                     (ancestry_duplicates s ++ [all_duplicates])%list
            end
      end
  end.

Definition handleDuplicateHierarchyAncestry (tree0 : list hnode) (c : Dup.store) : st :=
  loopChildren (length tree0) 0 (mkSt tree0 c []).

(** The ancestry side of [CalculateTree] up to the duplicate handling,
    with [duplicate_branch_toggle] and [on_toggle_one_close_others] on,
    no [ancestry_depth] (so [trimTree] does nothing) and no
    [modifyTreeHierarchy]: [data_stash] is [createRelsToAdd(data)] when
    [single_parent_empty_card] (uuids drawn from [gen] from [n]), [main]
    the person [main_id] or [data_stash[0]], then [d3.hierarchy(main,
    hierarchyGetterParents)] and [handleDuplicateHierarchyAncestry].
    Returns [data_stash], the uuid count and the final state; [None] on
    empty data or a throw. *)
Definition ancestryLayout (gen : nat -> string) (n : nat) (single_parent_empty_card : bool)
    (main_id : option string) (data : list person) (c : Dup.store)
  : option (list person * nat * st) :=
  match (if single_parent_empty_card then Augment.createRelsToAdd gen n data
         else Some (data, n)) with
  | None => None
  | Some (data_stash, n') =>
      match data_stash with
      | [] => None
      | d0 :: _ =>
          let main := match main_id with
                      | Some x => match find_person data_stash x with Some p => p | None => d0 end
                      | None => d0
                      end in
          match hierarchy (length data_stash) data_stash main with
          | Some t => Some (data_stash, n', handleDuplicateHierarchyAncestry (flatten t None 0) c)
          | None => None
          end
      end
  end.

(** A click on the toggle of an ancestry card whose cell is [k]:
    [val < 0 ? Date.now() : -Date.now()]. *)
Definition toggle_click (c : Dup.store) (k : Dup.key) (now : Z) : Dup.store :=
  match Dup.lookup c k with
  | Some v => if Z.ltb v 0 then Dup.set c k now else Dup.set c k (- now)
  | None => Dup.set c k (- now)
  end.

Definition has_children (t : list hnode) (n : nat) : bool :=
  match children_of t n with Some _ => true | None => false end.

(** For each group of [ancestry_duplicates], which members still have
    their children, and the persons of the members. *)
Definition groups_open (s : st) : list (list bool) :=
  map (map (has_children (tree s))) (ancestry_duplicates s).

Definition groups_persons (s : st) : list (list string) :=
  map (map (node_id (tree s))) (ancestry_duplicates s).

End DupTree.

(* ================================================================== *)
(** * Properties *)
(* ================================================================== *)

Example nat_to_string_12 : JS.nat_to_string 12 = "12".
Proof. reflexivity. Qed.

Example splice_last : JS.splice1 [1;2;3] (-1)%Z = [1;2].
Proof. reflexivity. Qed.

Module TidFacts.
Import Tid.
Local Open Scope nat_scope.
Local Open Scope list_scope.

Lemma count_id_cons x d l :
  count_id x (d :: l) = (if String.eqb (data_id d) x then 1 else 0) + count_id x l.
Proof. unfold count_id; simpl. destruct (String.eqb (data_id d) x); reflexivity. Qed.

Lemma count_id_app x l1 l2 : count_id x (l1 ++ l2) = count_id x l1 + count_id x l2.
Proof. unfold count_id. rewrite filter_app, length_app. reflexivity. Qed.

Lemma count_id_ids x l1 l2 :
  map data_id l1 = map data_id l2 -> count_id x l1 = count_id x l2.
Proof.
  revert l2; induction l1 as [|a l1 IH]; intros [|b l2] H; simpl in H;
    try discriminate; [reflexivity|].
  injection H as Hab Hl. rewrite !count_id_cons, Hab, (IH l2 Hl). reflexivity.
Qed.

Lemma firstn_nth_S {A} (l : list A) k d :
  nth_error l k = Some d -> firstn (S k) l = firstn k l ++ [d].
Proof.
  revert k; induction l as [|a l IH]; intros [|k] H; simpl in *; try discriminate.
  - injection H as ->. reflexivity.
  - rewrite (IH k H). reflexivity.
Qed.

Lemma count_before {A} (f : A -> string) x (l : list A) p k e :
  nth_error l p = Some e -> p < k -> f e = x ->
  existsb (fun a => String.eqb (f a) x) (firstn k l) = true.
Proof.
  revert p k; induction l as [|a l IH]; intros [|p] [|k] H Hlt Hx; simpl in *;
    try discriminate; try lia.
  - injection H as ->. rewrite Hx, String.eqb_refl. reflexivity.
  - rewrite (IH p k H ltac:(lia) Hx), orb_true_r. reflexivity.
Qed.

Lemma count_id_pos x l :
  existsb (fun a => String.eqb (data_id a) x) l = true -> 1 <= count_id x l.
Proof.
  induction l as [|a l IH]; simpl; [discriminate|].
  rewrite count_id_cons. destruct (String.eqb (data_id a) x); simpl; intros H; [lia|].
  specialize (IH H); lia.
Qed.

Lemma count_id_zero x l :
  count_id x l = 0 -> existsb (fun a => String.eqb (data_id a) x) l = false.
Proof.
  intros H. destruct (existsb _ l) eqn:E; [|reflexivity].
  apply count_id_pos in E. lia.
Qed.

Lemma mark_nth id n i l p :
  nth_error (mark_duplicates id n i l) p =
  option_map (fun d0 => if String.eqb (data_id d0) id
                        then set_tid d0 (id ++ "--x"
                               ++ JS.nat_to_string (S (i + count_id id (firstn p l))))%string
                               (Some n)
                        else d0) (nth_error l p).
Proof.
  revert i p; induction l as [|d0 l IH]; intros i [|p]; simpl; try reflexivity.
  - destruct (String.eqb (data_id d0) id); simpl; [|reflexivity].
    rewrite Nat.add_0_r. reflexivity.
  - rewrite count_id_cons.
    destruct (String.eqb (data_id d0) id); simpl; rewrite IH;
      destruct (nth_error l p); simpl; try reflexivity.
    + rewrite Nat.add_succ_r. reflexivity.
Qed.

Lemma mark_ids id n i l : map data_id (mark_duplicates id n i l) = map data_id l.
Proof.
  revert i; induction l as [|d0 l IH]; intros i; simpl; [reflexivity|].
  destruct (String.eqb (data_id d0) id) eqn:E; simpl; rewrite IH; [|reflexivity].
  reflexivity.
Qed.

Lemma replace_nth {A} (l : list A) k y p :
  k < length l ->
  nth_error (firstn k l ++ y :: skipn (S k) l) p =
  if p =? k then Some y else nth_error l p.
Proof.
  revert k p; induction l as [|a l IH]; intros k p Hk.
  - simpl in Hk. lia.
  - destruct k as [|k], p as [|p]; simpl in *; try reflexivity.
    apply IH. lia.
Qed.

Lemma replace_ids (l : list node) k y :
  k < length l -> (forall d, nth_error l k = Some d -> data_id y = data_id d) ->
  map data_id (firstn k l ++ y :: skipn (S k) l) = map data_id l.
Proof.
  revert k; induction l as [|a l IH]; intros k Hk Hy.
  - simpl in Hk. lia.
  - destruct k as [|k]; simpl in *.
    + rewrite (Hy a eq_refl). reflexivity.
    + rewrite IH; [reflexivity|lia|exact Hy].
Qed.

Lemma tid_after_id tree k p d : data_id (tid_after tree k p d) = data_id d.
Proof.
  unfold tid_after. destruct (Nat.leb _ _); [reflexivity|].
  destruct (_ && _); reflexivity.
Qed.

Lemma firstn_ids (l1 l2 : list node) n :
  map data_id l1 = map data_id l2 -> map data_id (firstn n l1) = map data_id (firstn n l2).
Proof. intros H. rewrite <- !firstn_map, H. reflexivity. Qed.

Lemma count_single x d : count_id x [d] = if String.eqb (data_id d) x then 1 else 0.
Proof. rewrite count_id_cons. simpl. destruct (String.eqb (data_id d) x); reflexivity. Qed.

Lemma setupTid_step_inv tree k st :
  k < length tree -> tid_inv tree k st -> tid_inv tree (S k) (setupTid_step st k).
Proof.
  intros Hk [Ha [Hb Hc]]. destruct st as [t ids]. simpl in Ha, Hb, Hc.
  destruct (nth_error tree k) as [d|] eqn:Ed;
    [|apply nth_error_None in Ed; lia].
  assert (Htk : nth_error t k = Some (tid_after tree k k d)) by (rewrite Hb, Ed; reflexivity).
  pose proof (firstn_nth_S tree k d Ed) as Hf.
  unfold setupTid_step. rewrite Htk, tid_after_id, Hc.
  set (x := data_id d) in *.
  destruct (existsb (fun a => String.eqb (data_id a) x) (firstn k tree)) eqn:Ex.
  - pose proof (count_id_pos _ _ Ex) as Hpos.
    rewrite (count_id_ids x t tree Ha).
    split; [|split]; cbn [fst snd].
    + rewrite mark_ids. exact Ha.
    + intros p. rewrite mark_nth, Hb.
      destruct (nth_error tree p) as [e|] eqn:Ep; simpl; [|reflexivity].
      rewrite tid_after_id.
      destruct (String.eqb (data_id e) x) eqn:Eq.
      * apply String.eqb_eq in Eq. f_equal.
        unfold tid_after at 2. rewrite Eq, Hf, count_id_app, count_single.
        unfold x. rewrite String.eqb_refl.
        replace (Nat.leb 2 (count_id (data_id d) (firstn k tree) + 1)) with true
          by (symmetry; apply Nat.leb_le; unfold x in Hpos; lia).
        unfold set_tid. rewrite tid_after_id, Eq. simpl.
        rewrite (count_id_ids _ (firstn p t) (firstn p tree) (firstn_ids _ _ p Ha)).
        reflexivity.
      * unfold tid_after. rewrite Hf, count_id_app, count_single.
        assert (Hne : String.eqb x (data_id e) = false)
          by (rewrite String.eqb_sym; exact Eq).
        unfold x in Hne. rewrite Hne, Nat.add_0_r.
        destruct (Nat.eq_dec p k) as [->|Hpk].
        { rewrite Ed in Ep. injection Ep as <-. unfold x in Eq.
          rewrite String.eqb_refl in Eq. discriminate. }
        replace (Nat.ltb p (S k)) with (Nat.ltb p k); [reflexivity|].
        destruct (Nat.ltb_spec p k), (Nat.ltb_spec p (S k)); try reflexivity; lia.
    + intros y. unfold JS.includes in *. rewrite existsb_app, Hc, Hf, existsb_app.
      simpl. destruct (String.eqb y x) eqn:Eyx.
      * apply String.eqb_eq in Eyx. subst y. rewrite Ex. reflexivity.
      * assert (Hr : existsb (String.eqb y) (repeat x (count_id x tree)) = false).
        { induction (count_id x tree); simpl; [reflexivity|]. rewrite Eyx. exact IHn. }
        rewrite Hr. rewrite String.eqb_sym in Eyx. unfold x in Eyx |- *. rewrite Eyx.
        reflexivity.
  - assert (H0 : count_id x (firstn k tree) = 0).
    { destruct (count_id x (firstn k tree)) eqn:E; [reflexivity|].
      exfalso. unfold count_id in E.
      destruct (filter (fun d0 => String.eqb (data_id d0) x) (firstn k tree)) as [|a r] eqn:F;
        [discriminate|].
      assert (Ha' : In a (filter (fun d0 => String.eqb (data_id d0) x) (firstn k tree)))
        by (rewrite F; left; reflexivity).
      apply filter_In in Ha' as [Hin Heq].
      assert (existsb (fun a => String.eqb (data_id a) x) (firstn k tree) = true)
        by (apply existsb_exists; eauto).
      congruence. }
    assert (Hdd : tid_after tree k k d = d).
    { unfold tid_after. fold x. rewrite H0. reflexivity. }
    rewrite Hdd.
    assert (Hlt : k < length t)
      by (rewrite <- (length_map data_id t), Ha, length_map; exact Hk).
    split; [|split]; cbn [fst snd].
    + rewrite replace_ids; [exact Ha|exact Hlt|].
      intros d' Hd'. rewrite Htk, Hdd in Hd'. injection Hd' as <-. reflexivity.
    + intros p. rewrite (replace_nth t k _ p Hlt).
      destruct (Nat.eqb_spec p k) as [->|Hpk].
      * rewrite Ed. simpl. unfold tid_after. fold x.
        rewrite Hf, count_id_app, count_single, H0. unfold x. rewrite String.eqb_refl.
        simpl.
        replace (Nat.ltb k (S k)) with true by (symmetry; apply Nat.ltb_lt; lia).
        reflexivity.
      * rewrite Hb. destruct (nth_error tree p) as [e|] eqn:Ep; simpl; [|reflexivity].
        f_equal. unfold tid_after. rewrite Hf, count_id_app, count_single.
        destruct (String.eqb (data_id d) (data_id e)) eqn:Ede.
        { apply String.eqb_eq in Ede. rewrite <- Ede. fold x. rewrite H0. simpl.
          destruct (Nat.ltb_spec p (S k)); [|reflexivity].
          assert (p < k) by lia.
          pose proof (count_before data_id x tree p k e Ep H1 ltac:(unfold x; congruence)).
          congruence. }
        rewrite Nat.add_0_r.
        replace (Nat.ltb p (S k)) with (Nat.ltb p k); [reflexivity|].
        destruct (Nat.ltb_spec p k), (Nat.ltb_spec p (S k)); try reflexivity; lia.
    + intros y. unfold JS.includes in *. rewrite existsb_app, Hc, Hf, existsb_app.
      simpl. unfold x. rewrite (String.eqb_sym y (data_id d)).
      destruct (String.eqb (data_id d) y); reflexivity.
Qed.

Lemma setupTid_loop_inv tree n :
  n <= length tree ->
  tid_inv tree n (fold_left setupTid_step (seq 0 n) (tree, [])).
Proof.
  induction n as [|n IH]; intros Hn.
  - split; [reflexivity|split]; cbn [fst snd].
    + intros p. simpl. destruct (nth_error tree p) as [e|]; [|reflexivity].
      simpl. unfold tid_after. simpl. reflexivity.
    + intros x. reflexivity.
  - rewrite seq_S, fold_left_app. simpl.
    apply setupTid_step_inv; [lia|]. apply IH. lia.
Qed.

Lemma setupTid_nth tree p d :
  nth_error tree p = Some d -> nth_error (setupTid tree) p = Some (final_tid tree p d).
Proof.
  intros Ep. unfold setupTid.
  destruct (setupTid_loop_inv tree (length tree) (le_n _)) as [_ [Hb _]].
  rewrite Hb, Ep. simpl. f_equal.
  unfold tid_after, final_tid. rewrite firstn_all.
  assert (Hp : p < length tree) by (apply nth_error_Some; congruence).
  assert (H1 : 1 <= count_id (data_id d) tree).
  { apply count_id_pos.
    rewrite <- (firstn_all tree).
    apply (count_before data_id (data_id d) tree p (length tree) d Ep Hp eq_refl). }
  destruct (Nat.leb 2 (count_id (data_id d) tree)) eqn:E2; [reflexivity|].
  apply Nat.leb_gt in E2.
  replace (count_id (data_id d) tree) with 1 by lia.
  replace (Nat.ltb p (length tree)) with true by (symmetry; apply Nat.ltb_lt; exact Hp).
  reflexivity.
Qed.

End TidFacts.

(** Two appearances of one person, as the layout produces for a shared
    ancestor. *)
Definition tid_pair : list Tid.node := [Tid.mkNode "a" None None; Tid.mkNode "a" None None].

(** Claim C1, counterexample: when a person appears twice, [setupTid]
    renames the first appearance as well, so its [tid] is [a--x1], not
    [a]; the second appearance gets [a--x2]; both get [duplicate = 2]. *)
Lemma C1_first_occurrence_renamed :
  map Tid.tid (Tid.setupTid tid_pair) = [Some "a--x1"; Some "a--x2"] /\
  map Tid.duplicate (Tid.setupTid tid_pair) = [Some 2; Some 2] /\
  Tid.tid (hd (Tid.mkNode "" None None) (Tid.setupTid tid_pair)) <> Some "a".
Proof. split; [reflexivity|split; [reflexivity|]]. simpl. discriminate. Qed.

(** Claim C1 (amended): for the node at position [p] of the layout list
    with person id [x]: if [x] appears once, [setupTid] gives it
    [tid = x] and leaves [duplicate] alone; if [x] appears [n >= 2]
    times, every appearance, the first included, gets
    [tid = x--x(j+1)] where [j] is the number of earlier appearances of
    [x], and [duplicate = n]. *)
Theorem C1_setupTid_tids (tree : list Tid.node) (p : nat) (d : Tid.node) :
  nth_error tree p = Some d ->
  exists d',
    nth_error (Tid.setupTid tree) p = Some d' /\
    Tid.data_id d' = Tid.data_id d /\
    (Tid.count_id (Tid.data_id d) tree = 1 ->
       Tid.tid d' = Some (Tid.data_id d) /\ Tid.duplicate d' = Tid.duplicate d) /\
    (2 <= Tid.count_id (Tid.data_id d) tree ->
       Tid.tid d' = Some (Tid.data_id d ++ "--x"
                          ++ JS.nat_to_string
                               (S (Tid.count_id (Tid.data_id d) (firstn p tree))))
       /\ Tid.duplicate d' = Some (Tid.count_id (Tid.data_id d) tree)).
Proof.
  intros Ep. exists (Tid.final_tid tree p d).
  split; [apply TidFacts.setupTid_nth; exact Ep|].
  unfold Tid.final_tid.
  destruct (Nat.leb 2 (Tid.count_id (Tid.data_id d) tree)) eqn:E2.
  - apply Nat.leb_le in E2. split; [reflexivity|]. split; [intros; lia|].
    intros _. split; reflexivity.
  - apply Nat.leb_gt in E2. split; [reflexivity|]. split; [intros _; split; reflexivity|].
    intros; lia.
Qed.

Lemma C1_setupTid_tids_witness :
  nth_error tid_pair 1 = Some (Tid.mkNode "a" None None) /\
  exists d',
    nth_error (Tid.setupTid tid_pair) 1 = Some d' /\ Tid.tid d' = Some "a--x2".
Proof.
  split; [reflexivity|].
  destruct (C1_setupTid_tids tid_pair 1 (Tid.mkNode "a" None None) eq_refl)
    as [d' [Hn [_ [_ H2]]]].
  exists d'. split; [exact Hn|].
  destruct (H2 ltac:(vm_compute; lia)) as [Ht _]. rewrite Ht. reflexivity.
Defined.

Module StoreFacts.
Import Store.
Local Open Scope nat_scope.
Local Open Scope list_scope.

Lemma NoDup_skipn {A} (k : nat) (l : list A) : NoDup l -> NoDup (skipn k l).
Proof.
  intros H. rewrite <- (firstn_skipn k l) in H.
  apply NoDup_app_remove_l in H. exact H.
Qed.

Lemma pushed_history_nodup (id : string) (h : list string) :
  NoDup h ->
  NoDup (JS.slice_neg 10 (filter (fun d => negb (String.eqb d id)) h) ++ [id]).
Proof.
  intros H. unfold JS.slice_neg.
  apply (Permutation_NoDup (Permutation_cons_append _ id)).
  constructor.
  - intros Hin.
    assert (Hin' : In id (filter (fun d => negb (String.eqb d id)) h)).
    { rewrite <- (firstn_skipn (length (filter (fun d => negb (String.eqb d id)) h) - 10)).
      apply in_or_app. right. exact Hin. }
    apply filter_In in Hin' as [_ Hf].
    rewrite String.eqb_refl in Hf. discriminate.
  - apply NoDup_skipn, NoDup_filter, H.
Qed.

Lemma updateMainId_nodup id s :
  NoDup (main_id_history s) -> NoDup (main_id_history (updateMainId id s)).
Proof.
  intros H. unfold updateMainId.
  destruct (main_id s) as [m|]; [destruct (String.eqb id m); [exact H|]|];
    apply pushed_history_nodup, H.
Qed.

Lemma run_nodup ids s :
  NoDup (main_id_history s) -> NoDup (main_id_history (run ids s)).
Proof.
  revert s; induction ids as [|id ids IH]; intros s H; simpl; [exact H|].
  apply IH, updateMainId_nodup, H.
Qed.

End StoreFacts.

(** Eleven focus changes in a row, from a fresh store. *)
Definition ten_ids : list string := ["1";"2";"3";"4";"5";"6";"7";"8";"9";"10"].

(** Claim C5, counterexample: after ten focus changes the focus is
    ["10"]; moving it to ["11"] appends ["11"] (the new id, not the
    prior focus ["10"]) and leaves eleven entries in the history. *)
Lemma C5_history_exceeds_ten :
  let s := Store.run ten_ids (Store.initial None) in
  let s' := Store.updateMainId "11" s in
  Store.main_id s = Some "10" /\
  Store.main_id s' = Some "11" /\
  last (Store.main_id_history s') "" = "11" /\
  length (Store.main_id_history s') = 11.
Proof. vm_compute. repeat split. Qed.

(** Claim C5 (amended): on a store whose history was built by
    [updateMainId] calls from the empty history, a call with an [id]
    that is not the current focus makes [id] the focus and appends [id]
    itself as the last history entry, after dropping earlier copies of
    [id] and keeping only the last 10 remaining entries; the history
    never holds the same id twice. *)
Theorem C5_updateMainId_history (ids : list string) (m : option string) (id : string) :
  let s := Store.run ids (Store.initial m) in
  Store.main_id s <> Some id ->
  Store.main_id (Store.updateMainId id s) = Some id /\
  Store.main_id_history (Store.updateMainId id s)
    = (JS.slice_neg 10 (filter (fun d => negb (String.eqb d id))
                                (Store.main_id_history s)) ++ [id])%list /\
  NoDup (Store.main_id_history (Store.updateMainId id s)).
Proof.
  intros s Hne.
  assert (Hnd : NoDup (Store.main_id_history s))
    by (apply StoreFacts.run_nodup; constructor).
  split; [|split].
  - unfold Store.updateMainId. destruct (Store.main_id s) as [m'|]; [|reflexivity].
    destruct (String.eqb_spec id m'); [subst; contradiction|reflexivity].
  - unfold Store.updateMainId. destruct (Store.main_id s) as [m'|]; [|reflexivity].
    destruct (String.eqb_spec id m'); [subst; contradiction|reflexivity].
  - apply StoreFacts.updateMainId_nodup, Hnd.
Qed.

Lemma C5_updateMainId_history_witness :
  Store.main_id (Store.run ten_ids (Store.initial None)) <> Some "11" /\
  Store.main_id_history (Store.updateMainId "11" (Store.run ten_ids (Store.initial None)))
    = ["1";"2";"3";"4";"5";"6";"7";"8";"9";"10";"11"].
Proof.
  assert (Hne : Store.main_id (Store.run ten_ids (Store.initial None)) <> Some "11")
    by (vm_compute; discriminate).
  split; [exact Hne|].
  destruct (C5_updateMainId_history ten_ids None "11" Hne) as [_ [Hh _]].
  rewrite Hh. vm_compute. reflexivity.
Defined.

(** Two siblings with the same father and mother, one of them married. *)
Definition sep_married : Sep.hnode :=
  Sep.mkH (Some 0) (Person.mkRels (Some "f") (Some "m") (Some ["s"]) None).
Definition sep_single : Sep.hnode :=
  Sep.mkH (Some 0) (Person.mkRels (Some "f") (Some "m") None None).

(** Claim C3, counterexample: with [one_level_rels] on, the spouse
    allowance is not added: two full siblings, one with a spouse, are
    separated by 1 in the descendant tree, where the claim gives 1.5. *)
Lemma C3_one_level_rels_drops_spouse_room :
  Sep.separation false true sep_married sep_single == 1 /\
  Sep.separation_claimed false sep_married sep_single == 3 # 2.
Proof. split; reflexivity. Qed.

(** Claim C3 (amended): in the descendant tree the separation is 1,
    plus 1/4 when the two nodes have different layout parents, plus
    1/8 when they have the same layout parent but not the same father
    and mother, plus half the sum of their spouse counts when one of
    them has spouses and [one_level_rels] is off; in the ancestor tree
    it is exactly 1. *)
Theorem C3_separation_value (is_ancestry one_level_rels : bool) (a b : Sep.hnode) :
  Sep.separation is_ancestry one_level_rels a b ==
  if is_ancestry then 1 else
  (1 + (if negb (Sep.sameParent a b) then 1 # 4 else 0)
     + (if Sep.sameParent a b && negb (Sep.sameBothParents a b) then 1 # 8 else 0)
     + (if negb one_level_rels && Sep.someSpouses a b
        then Sep.offsetOnPartners a b else 0))%Q.
Proof.
  unfold Sep.separation.
  destruct is_ancestry; simpl; [reflexivity|].
  destruct (Sep.sameParent a b), (Sep.sameBothParents a b), one_level_rels,
    (Sep.someSpouses a b); simpl; ring.
Qed.

Example split_ref_key : Str.split "date__ref__b1" "__ref__" = ["date"; "b1"].
Proof. reflexivity. Qed.

(** A person with the given id, gender and relations. *)
Definition mk (x g : string) (r : Person.rels_t) : Person.person :=
  Person.mkPerson x [("gender", Some g)] r None false false.

(** The linear chain [A - B - C - D] of parents and children. *)
Definition chain : list Person.person :=
  [mk "A" "M" (Person.mkRels None None None (Some ["B"]));
   mk "B" "M" (Person.mkRels (Some "A") None None (Some ["C"]));
   mk "C" "M" (Person.mkRels (Some "B") None None (Some ["D"]));
   mk "D" "M" (Person.mkRels (Some "C") None None None)].

(** Deleting [C] would cut [D] off from [A]: [C] is demoted to an
    unknown person that keeps only its gender. *)
Example delete_articulation_point :
  Delete.deletePerson "new" 2 chain =
  Some (Delete.mkResult true,
        [mk "A" "M" (Person.mkRels None None None (Some ["B"]));
         mk "B" "M" (Person.mkRels (Some "A") None None (Some ["C"]));
         Person.mkPerson "C" [("gender", Some "M")]
           (Person.mkRels (Some "B") None None (Some ["D"])) None false true;
         mk "D" "M" (Person.mkRels (Some "C") None None None)]).
Proof. vm_compute. reflexivity. Qed.

(** Deleting the leaf [D] removes it and its id from [C]'s children. *)
Example delete_leaf :
  Delete.deletePerson "new" 3 chain =
  Some (Delete.mkResult true,
        [mk "A" "M" (Person.mkRels None None None (Some ["B"]));
         mk "B" "M" (Person.mkRels (Some "A") None None (Some ["C"]));
         mk "C" "M" (Person.mkRels (Some "B") None None (Some []))]).
Proof. vm_compute. reflexivity. Qed.

Module DeleteFacts.
Import Person Delete.
Local Open Scope nat_scope.
Local Open Scope list_scope.

Lemma includes_In l x : JS.includes l x = true <-> In x l.
Proof.
  unfold JS.includes. rewrite existsb_exists. split.
  - intros [y [Hy Hxy]]. apply String.eqb_eq in Hxy. subst. exact Hy.
  - intros H. exists x. split; [exact H | apply String.eqb_refl].
Qed.

Lemma remove_first_In x y l : In y (remove_first x l) -> In y l.
Proof.
  induction l as [|a l IH]; simpl; [tauto|].
  destruct (String.eqb a x); simpl; [tauto|]. intros [H|H]; [left|right; apply IH]; assumption.
Qed.

Lemma remove_first_once x l :
  count_occ string_dec l x <= 1 -> ~ In x (remove_first x l).
Proof.
  induction l as [|a l IH]; simpl; [tauto|].
  destruct (String.eqb_spec a x) as [->|Hne].
  - destruct (string_dec x x) as [_|C]; [|congruence].
    intros Hc. apply (count_occ_not_In string_dec). lia.
  - destruct (string_dec a x) as [C|_]; [congruence|].
    intros Hc [Hin|Hin]; [congruence|]. exact (IH Hc Hin).
Qed.

(** Dropping the references to [y] never adds a reference. *)
Lemma mentions_remove_refs x y d :
  mentions x (remove_refs y d) = true -> mentions x d = true.
Proof.
  unfold mentions, remove_refs, set_rels; simpl.
  destruct (rels d) as [f m s c]; simpl.
  intros H. repeat rewrite orb_true_iff in H |- *.
  destruct H as [[[H|H]|H]|H].
  - left; left; left. destruct f as [f|]; [|discriminate].
    destruct (String.eqb f y); [discriminate|exact H].
  - left; left; right. destruct m as [m|]; [|discriminate].
    destruct (String.eqb m y); [discriminate|exact H].
  - left; right. destruct s as [s|]; [|discriminate]. simpl in H.
    apply includes_In in H. apply includes_In. eapply remove_first_In; eauto.
  - right. destruct c as [c|]; [|discriminate]. simpl in H.
    apply includes_In in H. apply includes_In. eapply remove_first_In; eauto.
Qed.

(** Dropping the references to [x] leaves none when no relation list
    repeats [x]. *)
Lemma remove_refs_clean x d :
  (forall l, spouses (rels d) = Some l \/ children (rels d) = Some l ->
             count_occ string_dec l x <= 1) ->
  mentions x (remove_refs x d) = false.
Proof.
  unfold mentions, remove_refs, set_rels; simpl.
  destruct (rels d) as [f m s c]; simpl. intros Hl.
  repeat rewrite orb_false_iff. repeat split.
  - destruct f as [f|]; [|reflexivity].
    destruct (String.eqb_spec f x) as [->|Hne]; [reflexivity|].
    apply String.eqb_neq. exact Hne.
  - destruct m as [m|]; [|reflexivity].
    destruct (String.eqb_spec m x) as [->|Hne]; [reflexivity|].
    apply String.eqb_neq. exact Hne.
  - destruct s as [s|]; [|reflexivity]. simpl.
    destruct (JS.includes (remove_first x s) x) eqn:E; [|reflexivity].
    apply includes_In in E. exfalso. apply (remove_first_once x s); auto.
  - destruct c as [c|]; [|reflexivity]. simpl.
    destruct (JS.includes (remove_first x c) x) eqn:E; [|reflexivity].
    apply includes_In in E. exfalso. apply (remove_first_once x c); auto.
Qed.

Lemma remove_refs_id y d : id (remove_refs y d) = id d.
Proof. reflexivity. Qed.

(** The id and the relations of every person: what [update_at] with a
    data-only change leaves alone. *)
Definition skel (d : person) : string * rels_t := (id d, rels d).

Lemma update_at_skel j f l :
  (forall d, skel (f d) = skel d) -> map skel (update_at j f l) = map skel l.
Proof.
  intros Hf. revert j. induction l as [|a l IH]; intros [|j]; simpl;
    try rewrite Hf; try rewrite IH; reflexivity.
Qed.

Lemma update_at_length {A} j (f : A -> A) l : length (update_at j f l) = length l.
Proof. revert j. induction l; intros [|j]; simpl; auto. Qed.

Lemma update_at_nth {A} j (f : A -> A) l a :
  nth_error l j = Some a -> nth_error (update_at j f l) j = Some (f a).
Proof.
  revert j. induction l as [|b l IH]; intros [|j]; simpl; try discriminate.
  - congruence.
  - apply IH.
Qed.

Lemma onDeleteSync_skel datum ds :
  map skel (onDeleteSyncRelReference datum ds) = map skel ds.
Proof.
  unfold onDeleteSyncRelReference.
  generalize (data datum) as kvs. intros kvs. revert ds.
  induction kvs as [|kv kvs IH]; intros ds; simpl; [reflexivity|].
  rewrite IH. destruct (Str.includes (fst kv) "__ref__"); [|reflexivity].
  destruct (find_index ds _); [|reflexivity].
  apply update_at_skel. reflexivity.
Qed.

Lemma skel_In l l' d :
  map skel l' = map skel l -> In d l' -> exists d0, In d0 l /\ skel d0 = skel d.
Proof.
  intros Hm Hd. assert (Hs : In (skel d) (map skel l)).
  { rewrite <- Hm. apply in_map. exact Hd. }
  apply in_map_iff in Hs. destruct Hs as [d0 [H1 H2]]. eauto.
Qed.

Lemma mentions_skel x d d0 : skel d0 = skel d -> mentions x d0 = mentions x d.
Proof. unfold skel, mentions. intros H. injection H as _ ->. reflexivity. Qed.

Lemma cut_In {A} (l : list A) n e : In e (firstn n l ++ skipn (S n) l) -> In e l.
Proof.
  revert n. induction l as [|a l IH]; intros [|n]; simpl; auto.
  intros [H|H]; [left; exact H|right; apply (IH n); exact H].
Qed.

Lemma splice1_In {A} (l : list A) k e : In e (JS.splice1 l k) -> In e l.
Proof.
  unfold JS.splice1. destruct (_ <? _)%Z; [|tauto]. apply cut_In.
Qed.

Lemma skel_ids l l' : map skel l' = map skel l -> map id l' = map id l.
Proof. intros H. apply (f_equal (map fst)) in H. rewrite !map_map in H. exact H. Qed.

Lemma gone_skel x l l' : map skel l' = map skel l -> gone x l -> gone x l'.
Proof.
  intros Hm Hg d Hd. destruct (skel_In l l' d Hm Hd) as [d0 [Hd0 Hs]].
  destruct (Hg d0 Hd0) as [Hi Hc]. split.
  - unfold skel in Hs. injection Hs as <- _. exact Hi.
  - rewrite <- (mentions_skel x d d0 Hs). exact Hc.
Qed.

Lemma changeToUnknown_skel i datum ds :
  map skel (changeToUnknown i datum ds) = map skel ds.
Proof.
  unfold changeToUnknown. rewrite update_at_skel; [apply onDeleteSync_skel|].
  reflexivity.
Qed.

Lemma gone_remove_person x datum ds : gone x ds -> gone x (remove_person datum ds).
Proof.
  intros Hg d Hd. unfold remove_person in Hd. apply splice1_In in Hd.
  destruct (skel_In _ _ d (onDeleteSync_skel _ _) Hd) as [d0 [Hd0 Hs]].
  apply in_map_iff in Hd0. destruct Hd0 as [d1 [<- Hd1]].
  destruct (Hg d1 Hd1) as [Hi Hc].
  rewrite <- (mentions_skel x d _ Hs). unfold skel in Hs. injection Hs as <- _.
  split; [exact Hi|].
  destruct (mentions x (remove_refs (id datum) d1)) eqn:E; [|reflexivity].
  apply mentions_remove_refs in E. congruence.
Qed.

Section Cascade.
Variable x : string.
Variable del : nat -> list person -> option (delete_result * list person).
Hypothesis del_gone : forall k ds r ds', del k ds = Some (r, ds') -> gone x ds -> gone x ds'.

Lemma cascade_gone ks ds ds' : cascade del ks ds = Some ds' -> gone x ds -> gone x ds'.
Proof.
  revert ds. induction ks as [|k ks IH]; intros ds H Hg; simpl in H.
  - injection H as <-. exact Hg.
  - destruct (nth_error ds k) as [d|]; [|eauto].
    destruct (to_add d); [|eauto].
    destruct (del k ds) as [[r ds1]|] eqn:E; [|discriminate].
    eapply IH; [exact H|]. eapply del_gone; eauto.
Qed.

End Cascade.

Lemma gone_blank x new_id : x <> new_id -> gone x [blank_person new_id].
Proof.
  intros Hx d [<-|[]]. split; [simpl; congruence|reflexivity].
Qed.

(** Deleting anybody keeps a person who is already gone gone, as long as
    a fresh blank person does not get her id. *)
Lemma deletePerson_fuel_gone x new_id f : x <> new_id ->
  forall j ds r ds', deletePerson_fuel f new_id j ds = Some (r, ds') ->
  gone x ds -> gone x ds'.
Proof.
  intros Hx. induction f as [|f IH]; intros j ds r ds' H Hg; simpl in H; [discriminate|].
  destruct (nth_error ds j) as [datum|]; [|discriminate].
  destruct (checkIfRelativesConnectedWithoutPerson datum ds) as [[|]|]; [|
    injection H as _ <-; exact (gone_skel _ _ _ (changeToUnknown_skel _ _ _) Hg)|discriminate].
  destruct (cascade _ _ _) as [ds4|] eqn:E; [|discriminate].
  assert (G4 : gone x ds4).
  { eapply cascade_gone; [exact (IH) | exact E | apply gone_remove_person; exact Hg]. }
  destruct ds4 as [|p ds4]; injection H as _ <-; [apply gone_blank; exact Hx|exact G4].
Qed.

(** Every [Some] result of the fuelled [deletePerson] is a success. *)
Lemma deletePerson_fuel_success new_id f j ds r ds' :
  deletePerson_fuel f new_id j ds = Some (r, ds') -> r = mkResult true.
Proof.
  destruct f as [|f]; simpl; [discriminate|].
  destruct (nth_error ds j) as [datum|]; [|discriminate].
  destruct (checkIfRelativesConnectedWithoutPerson datum ds) as [[|]|]; [|congruence|discriminate].
  destruct (cascade _ _ _) as [[|p ds4]|]; congruence.
Qed.

Lemma findIndex_app {A} (p : A -> bool) l1 a l2 :
  (forall b, In b l1 -> p b = false) -> p a = true ->
  JS.findIndex p (l1 ++ a :: l2) = Z.of_nat (length l1).
Proof.
  intros H1 Ha. induction l1 as [|b l1 IH]; simpl; [rewrite Ha; reflexivity|].
  rewrite (H1 b (or_introl eq_refl)). rewrite IH; [|intros c Hc; apply H1; right; exact Hc].
  assert (Hn : (0 <= Z.of_nat (length l1))%Z) by lia.
  destruct (Z.of_nat (length l1)) eqn:E; rewrite Zpos_P_of_succ_nat; lia.
Qed.

Lemma splice1_app {A} (l1 : list A) a l2 :
  JS.splice1 (l1 ++ a :: l2) (Z.of_nat (length l1)) = l1 ++ l2.
Proof.
  unfold JS.splice1. rewrite length_app. simpl length.
  replace (Z.of_nat (length l1) <? 0)%Z with false by (symmetry; apply Z.ltb_ge; lia).
  replace (Z.of_nat (length l1) <? Z.of_nat (length l1 + S (length l2)))%Z with true
    by (symmetry; apply Z.ltb_lt; lia).
  rewrite Nat2Z.id. clear. induction l1 as [|b l1 IH]; [reflexivity|].
  cbn [length firstn skipn app]. cbn [app]. f_equal. exact IH.
Qed.

(** Removing a person whose id is unique and appears at most once in
    each relation list leaves her gone. *)
Lemma remove_person_gone i datum ds :
  NoDup (map id ds) -> nth_error ds i = Some datum ->
  (forall d l, In d ds -> spouses (rels d) = Some l \/ children (rels d) = Some l ->
               count_occ string_dec l (id datum) <= 1) ->
  gone (id datum) (remove_person datum ds).
Proof.
  intros Hnd Hi Hl. unfold remove_person.
  set (x := id datum).
  set (ds2 := onDeleteSyncRelReference datum (map (remove_refs x) ds)).
  assert (Hids : map id ds2 = map id ds).
  { unfold ds2. rewrite (skel_ids _ _ (onDeleteSync_skel _ _)). rewrite map_map. reflexivity. }
  assert (Hx : nth_error (map id ds2) i = Some x).
  { rewrite Hids, nth_error_map, Hi. reflexivity. }
  rewrite nth_error_map in Hx.
  destruct (nth_error ds2 i) as [d2|] eqn:E2; [|discriminate]. injection Hx as Hd2.
  destruct (nth_error_split ds2 i E2) as [l1 [l2 [Hsplit Hlen]]].
  assert (Hnd2 : NoDup (map id l1 ++ x :: map id l2)).
  { rewrite <- Hd2. rewrite <- map_cons, <- map_app, <- Hsplit, Hids. exact Hnd. }
  assert (Hout : ~ In x (map id l1 ++ map id l2)) by (eapply NoDup_remove_2; exact Hnd2).
  rewrite Hsplit, findIndex_app with (l1 := l1).
  2:{ intros b Hb. apply String.eqb_neq. intros Hbx. apply Hout.
      apply in_or_app. left. rewrite <- Hbx. apply in_map. exact Hb. }
  2:{ apply String.eqb_eq. exact Hd2. }
  rewrite splice1_app. intros d Hd. split.
  - intros Hdx. apply Hout. rewrite <- map_app, <- Hdx. apply in_map. exact Hd.
  - assert (Hd' : In d ds2) by (rewrite Hsplit; apply in_app_or in Hd; apply in_or_app;
                                destruct Hd; [left|right; right]; assumption).
    destruct (skel_In _ _ d (onDeleteSync_skel _ _) Hd') as [d0 [Hd0 Hs]].
    apply in_map_iff in Hd0. destruct Hd0 as [d1 [<- Hd1]].
    rewrite <- (mentions_skel x d _ Hs). apply remove_refs_clean.
    intros l Hsl. apply (Hl d1 l Hd1 Hsl).
Qed.

(** Demoting the element [i] keeps it at index [i], with its id. *)
Lemma changeToUnknown_nth i datum ds :
  nth_error ds i = Some datum ->
  exists d', nth_error (changeToUnknown i datum ds) i = Some d' /\
    id d' = id datum /\ unknown d' = true /\ data d' = [("gender", gender datum)].
Proof.
  intros Hi. unfold changeToUnknown.
  set (ds2 := onDeleteSyncRelReference datum ds).
  assert (Hx : nth_error (map id ds2) i = Some (id datum)).
  { unfold ds2. rewrite (skel_ids _ _ (onDeleteSync_skel _ _)), nth_error_map, Hi.
    reflexivity. }
  rewrite nth_error_map in Hx.
  destruct (nth_error ds2 i) as [d2|] eqn:E2; [|discriminate]. injection Hx as Hd2.
  eexists. split; [apply update_at_nth; exact E2|]. simpl. auto.
Qed.

End DeleteFacts.

(** [A] lists her child [X] twice. *)
Definition dup_child : list Person.person :=
  [mk "A" "F" (Person.mkRels None None None (Some ["X"; "X"]));
   mk "X" "M" (Person.mkRels None (Some "A") None None)].

Module DeleteClaims.
Import Person Delete DeleteFacts.

(** C4 (code bug).  Removing [X] splices only the first copy of
    her id out of [A]'s children: the removal branch is taken, [X] is
    gone from the stash, yet [A] keeps a dangling child id [X]. *)
Example C4_dangling_child_reference :
  checkIfRelativesConnectedWithoutPerson
    (mk "X" "M" (mkRels None (Some "A") None None)) dup_child = Some true /\
  deletePerson "new" 1 dup_child =
    Some (mkResult true, [mk "A" "F" (mkRels None None None (Some ["X"]))]) /\
  mentions "X" (mk "A" "F" (mkRels None None None (Some ["X"]))) = true.
Proof. vm_compute. auto. Qed.

(** [deletePerson] on a stash without repeated ids.  Let [datum] be the element [i] of a stash whose ids
    are unique, where no spouses or children list holds her id twice,
    and let the uuid of a possible blank person differ from her id.  If
    [checkIfRelativesConnectedWithoutPerson] fails, [deletePerson] keeps
    her id in the stash on a person that is unknown and whose data is
    exactly her gender; if it succeeds, no remaining person has her id
    and no father, mother, spouses or children slot holds it. *)
Theorem deletePerson_outcome new_id i ds datum r ds' :
  NoDup (map id ds) ->
  nth_error ds i = Some datum ->
  (forall d l, In d ds -> spouses (rels d) = Some l \/ children (rels d) = Some l ->
               count_occ string_dec l (id datum) <= 1) ->
  new_id <> id datum ->
  deletePerson new_id i ds = Some (r, ds') ->
  (checkIfRelativesConnectedWithoutPerson datum ds = Some false ->
     exists d', In d' ds' /\ id d' = id datum /\ unknown d' = true /\
                data d' = [("gender", gender datum)]) /\
  (checkIfRelativesConnectedWithoutPerson datum ds = Some true ->
     forall d', In d' ds' -> id d' <> id datum /\ mentions (id datum) d' = false).
Proof.
  intros Hnd Hi Hl Hnew H. unfold deletePerson in H. cbn [deletePerson_fuel] in H.
  rewrite Hi in H.
  destruct (checkIfRelativesConnectedWithoutPerson datum ds) as [[|]|] eqn:Hc;
    [|injection H as _ <-|discriminate]; split; intros Hb; try discriminate.
  - destruct (cascade _ _ _) as [ds4|] eqn:E; [|discriminate].
    assert (G4 : gone (id datum) ds4).
    { eapply cascade_gone; [|exact E|exact (remove_person_gone i datum ds Hnd Hi Hl)].
      intros k ds0 r0 ds0'. apply deletePerson_fuel_gone. congruence. }
    destruct ds4 as [|p ds4]; injection H as _ <-;
      [apply gone_blank; congruence|exact G4].
  - destruct (changeToUnknown_nth i datum ds Hi) as [d' [Hn Hd']].
    exists d'. split; [eapply nth_error_In; exact Hn|exact Hd'].
Qed.

Lemma deletePerson_outcome_witness :
  (checkIfRelativesConnectedWithoutPerson
     (mk "D" "M" (mkRels (Some "C") None None None)) chain = Some false ->
   exists d', In d' [mk "A" "M" (mkRels None None None (Some ["B"]));
                     mk "B" "M" (mkRels (Some "A") None None (Some ["C"]));
                     mk "C" "M" (mkRels (Some "B") None None (Some []))] /\
     id d' = "D" /\ unknown d' = true /\ data d' = [("gender", Some "M")]) /\
  (checkIfRelativesConnectedWithoutPerson
     (mk "D" "M" (mkRels (Some "C") None None None)) chain = Some true ->
   forall d', In d' [mk "A" "M" (mkRels None None None (Some ["B"]));
                     mk "B" "M" (mkRels (Some "A") None None (Some ["C"]));
                     mk "C" "M" (mkRels (Some "B") None None (Some []))] ->
     id d' <> "D" /\ mentions "D" d' = false).
Proof.
  apply (deletePerson_outcome "new" 3 chain
           (mk "D" "M" (mkRels (Some "C") None None None)) (mkResult true)).
  - vm_compute. repeat constructor; simpl; intuition discriminate.
  - reflexivity.
  - intros d l Hd Hsl. simpl in Hd.
    repeat (destruct Hd as [<-|Hd]; [simpl in Hsl; destruct Hsl as [Hsl|Hsl];
                                     try discriminate; injection Hsl as <-; simpl; lia|]).
    destruct Hd.
  - discriminate.
  - vm_compute. reflexivity.
Defined.

(** C10.  Whenever [deletePerson] returns, in the demotion branch as in
    the removal branch, its result is [{success: true}]. *)
Theorem C10_deletePerson_success new_id i ds r ds' :
  deletePerson new_id i ds = Some (r, ds') -> r = mkResult true /\ success r = true.
Proof.
  unfold deletePerson. intros H. apply deletePerson_fuel_success in H. subst. auto.
Qed.

Lemma C10_deletePerson_success_witness :
  mkResult true = mkResult true /\ success (mkResult true) = true.
Proof.
  apply (C10_deletePerson_success "new" 2 chain (mkResult true)
           [mk "A" "M" (mkRels None None None (Some ["B"]));
            mk "B" "M" (mkRels (Some "A") None None (Some ["C"]));
            Person.mkPerson "C" [("gender", Some "M")]
              (mkRels (Some "B") None None (Some ["D"])) None false true;
            mk "D" "M" (mkRels (Some "C") None None None)]).
  vm_compute. reflexivity.
Defined.

End DeleteClaims.

Module AugmentFacts.
Import Person Augment.
Local Open Scope nat_scope.
Local Open Scope list_scope.

Lemma find_index_ids ds ds' x :
  map id ds' = map id ds -> find_index ds' x = find_index ds x.
Proof.
  revert ds'. induction ds as [|d ds IH]; intros [|d' ds'] H; simpl in *; try discriminate; auto.
  injection H as H1 H2. rewrite H1, (IH ds' H2). reflexivity.
Qed.

Lemma find_index_nth ds x j :
  find_index ds x = Some j -> exists c, nth_error ds j = Some c /\ id c = x.
Proof.
  revert j. induction ds as [|d ds IH]; intros j H; simpl in H; [discriminate|].
  destruct (String.eqb_spec (id d) x) as [E|_].
  - injection H as <-. exists d. auto.
  - destruct (find_index ds x) as [j'|] eqn:E; [|discriminate]. injection H as <-.
    exact (IH j' eq_refl).
Qed.

Lemma find_index_app ds e x j :
  find_index ds x = Some j -> find_index (ds ++ e) x = Some j.
Proof.
  revert j. induction ds as [|d ds IH]; intros j H; simpl in *; [discriminate|].
  destruct (String.eqb (id d) x); [exact H|].
  destruct (find_index ds x) as [j'|]; [|discriminate]. rewrite (IH j' eq_refl). exact H.
Qed.

Lemma find_index_lt ds x j : find_index ds x = Some j -> j < length ds.
Proof.
  intros H. destruct (find_index_nth ds x j H) as [c [Hc _]].
  apply nth_error_Some. congruence.
Qed.

Lemma nth_update_at {A} j (f : A -> A) l k :
  nth_error (update_at j f l) k =
  if Nat.eqb j k then option_map f (nth_error l k) else nth_error l k.
Proof.
  revert j k. induction l as [|a l IH]; intros [|j] [|k]; simpl; auto;
    try (destruct (Nat.eqb _ _); reflexivity).
Qed.

Lemma map_update_at {A B} (g : A -> B) j f l :
  (forall a, g (f a) = g a) -> map g (update_at j f l) = map g l.
Proof.
  intros Hf. revert j. induction l as [|a l IH]; intros [|j]; simpl; rewrite ?Hf, ?IH; reflexivity.
Qed.

Lemma length_update_at {A} j (f : A -> A) l : length (update_at j f l) = length l.
Proof. revert j. induction l; intros [|j]; simpl; auto. Qed.

Lemma key_ids ds ds' : map key ds' = map key ds -> map id ds' = map id ds.
Proof.
  intros H. apply (f_equal (map (fun k => fst (fst k)))) in H. rewrite !map_map in H. exact H.
Qed.

Lemma key_length ds ds' : map key ds' = map key ds -> length ds' = length ds.
Proof. intros H. rewrite <- (length_map key ds'), <- (length_map key ds), H. reflexivity. Qed.

Lemma key_nth ds ds' k p' : map key ds' = map key ds -> nth_error ds' k = Some p' ->
  exists p, nth_error ds k = Some p /\ key p = key p'.
Proof.
  intros H Hk. assert (E : nth_error (map key ds') k = nth_error (map key ds) k) by (rewrite H; reflexivity).
  rewrite !nth_error_map, Hk in E. destruct (nth_error ds k) as [p|]; [|discriminate].
  exists p. cbn [option_map] in E. split; [reflexivity|congruence].
Qed.

Lemma is_male_key p p' : key p = key p' -> is_male p = is_male p'.
Proof. unfold key, is_male, gender. intros H. injection H as _ -> _. reflexivity. Qed.

Lemma good_key p p' c : key p = key p' -> good p c = good p' c.
Proof.
  intros H. unfold good. rewrite (is_male_key p p' H).
  unfold key in H. injection H as -> _ _. reflexivity.
Qed.

Lemma full_good p c : full c = true -> good p c = true.
Proof.
  unfold full, good. intros H. apply andb_true_iff in H. destruct H as [Hf Hm].
  apply orb_true_iff. right. destruct (is_male p); simpl; assumption.
Qed.

Lemma good_le p c c' : good p c = true -> slots_le c c' -> good p c' = true.
Proof.
  intros H [[Hf Hm]|Hc]; [|apply full_good; exact Hc].
  unfold good, slot in *. rewrite Hf, Hm. exact H.
Qed.

Lemma settled_grows ds ds' p p' x :
  settled ds p x -> grows ds ds' -> key p' = key p -> settled ds' p' x.
Proof.
  intros [j [c [Hj [Hc Hg]]]] [Hk Hs] Hp.
  assert (Hj' : find_index ds' x = Some j) by (rewrite (find_index_ids ds ds' x (key_ids _ _ Hk)); exact Hj).
  destruct (find_index_nth ds' x j Hj') as [c' [Hc' _]].
  destruct (Hs j c' Hc') as [c0 [Hc0 Hle]]. rewrite Hc in Hc0. injection Hc0 as <-.
  exists j, c'. repeat split; auto.
  rewrite (good_key p' p c' Hp). eapply good_le; eauto.
Qed.

Lemma grows_refl ds : grows ds ds.
Proof. split; [reflexivity|]. intros j c' H. exists c'. split; [exact H|left; auto]. Qed.

Lemma grows_trans a b c : grows a b -> grows b c -> grows a c.
Proof.
  intros [K1 S1] [K2 S2]. split; [congruence|].
  intros j z Hz. destruct (S2 j z Hz) as [y [Hy Hyz]]. destruct (S1 j y Hy) as [x [Hx Hxy]].
  exists x. split; [exact Hx|].
  destruct Hyz as [[F1 M1]|F]; [|right; exact F].
  destruct Hxy as [[F2 M2]|F]; [left; split; congruence|right].
  unfold full in *. rewrite F1, M1. exact F.
Qed.

Lemma done_step Q ds ds' p p' :
  done ds p -> grows ds ds' -> step_ok Q p p' -> (forall x q, Q x -> settled ds' q x) ->
  done ds' p'.
Proof.
  intros [D1 D2] Hg [Hk [Hs Hc]] HQ. split.
  - intros l Hl Hne. apply Hs. destruct Hc as [Hc|[l0 [x [H0 [H1 [_ Hsp]]]]]].
    + apply (D1 l); congruence.
    + exact Hsp.
  - intros l Hl y Hy. destruct Hc as [Hc|[l0 [x [H0 [H1 [Hx _]]]]]].
    + eapply settled_grows; [apply (D2 l); [congruence|exact Hy]|exact Hg|exact Hk].
    + rewrite H1 in Hl. injection Hl as <-. apply in_app_or in Hy. destruct Hy as [Hy|[<-|[]]].
      * eapply settled_grows; [apply (D2 l0 H0 y Hy)|exact Hg|exact Hk].
      * apply HQ. exact Hx.
Qed.

(** The parent slots of a person. *)
Definition pslots (p : person) : option string * option string :=
  (father (rels p), mother (rels p)).

Lemma grows_pslots ds ds' :
  map key ds' = map key ds -> map pslots ds' = map pslots ds -> grows ds ds'.
Proof.
  intros Hk Hp. split; [exact Hk|]. intros j c' Hc'.
  assert (E : nth_error (map pslots ds') j = nth_error (map pslots ds) j) by (rewrite Hp; reflexivity).
  rewrite !nth_error_map, Hc' in E. destruct (nth_error ds j) as [c|]; [|discriminate].
  exists c. split; [reflexivity|left]. cbn [option_map] in E. unfold pslots in E.
  injection E as E1 E2. auto.
Qed.

Lemma step_ok_refl Q p : step_ok Q p p.
Proof. split; [reflexivity|split; [auto|left; reflexivity]]. Qed.

Lemma upd_step Q j f ds :
  (forall p0, nth_error ds j = Some p0 -> step_ok Q p0 (f p0)) ->
  forall k p', nth_error (update_at j f ds) k = Some p' ->
  exists p, nth_error ds k = Some p /\ step_ok Q p p'.
Proof.
  intros Hf k p' H. rewrite nth_update_at in H.
  destruct (Nat.eqb_spec j k) as [<-|_].
  - destruct (nth_error ds j) as [p0|] eqn:E; [|discriminate]. injection H as <-.
    exists p0. auto.
  - exists p'. split; [exact H|apply step_ok_refl].
Qed.

Lemma Inv_transfer Q n i s s' :
  Inv n i s -> grows (sdata s) (sdata s') ->
  (forall k p', nth_error (sdata s') k = Some p' ->
     exists p, nth_error (sdata s) k = Some p /\ step_ok Q p p') ->
  (forall p', In p' (pend s') ->
     (exists p, In p (pend s) /\ step_ok Q p p') \/
     (id p' <> "" /\ spouses (rels p') <> None /\ children (rels p') = Some [])) ->
  (forall x q, Q x -> settled (sdata s') q x) ->
  Inv n i s'.
Proof.
  intros [HL [HD HP]] Hg Hst Hpd HQ. split; [|split].
  - rewrite (key_length _ _ (proj1 Hg)). exact HL.
  - intros k p' Hk. destruct (Hst k p' Hk) as [p [Hp Hs]].
    destruct (HD k p Hp) as [Hid [Hta Hdone]].
    pose proof Hs as [Hkey [Hsp _]]. unfold key in Hkey. injection Hkey as E1 E2 E3.
    split; [congruence|split].
    + intros Ht. apply Hsp, Hta. congruence.
    + intros Hki. eapply done_step; eauto.
  - intros p' Hp'. destruct (Hpd p' Hp') as [[p [Hp Hs]]|[Hid [Hsp Hc]]].
    + destruct (HP p Hp) as [Hid [Hsp Hdone]].
      pose proof Hs as [Hkey [Hsp' _]]. unfold key in Hkey. injection Hkey as E1 E2 E3.
      split; [congruence|split; [auto|]]. eapply done_step; eauto.
    + split; [exact Hid|split; [exact Hsp|]]. split.
      * intros l Hl Hne. exact Hsp.
      * intros l Hl y Hy. rewrite Hc in Hl. injection Hl as <-. destruct Hy.
Qed.

(** The part of [InvIn] about the person being iterated. *)
Lemma dpart_transfer Q i is_f rem rem' s s' :
  dpart i is_f rem s ->
  grows (sdata s) (sdata s') ->
  (forall k p', nth_error (sdata s') k = Some p' ->
     exists p, nth_error (sdata s) k = Some p /\ step_ok Q p p') ->
  (forall x q, Q x -> settled (sdata s') q x) ->
  (forall y, In y rem -> In y rem' \/ forall q, settled (sdata s') q y) ->
  dpart i is_f rem' s'.
Proof.
  intros [d [Hd [Hm [Hsp Hch]]]] Hg Hst HQ Hrem.
  assert (Hi : exists d', nth_error (sdata s') i = Some d').
  { destruct (nth_error (sdata s') i) as [d'|] eqn:E; [eauto|].
    apply nth_error_None in E. rewrite (key_length _ _ (proj1 Hg)) in E.
    assert (nth_error (sdata s) i = None) by (apply nth_error_None; exact E). congruence. }
  destruct Hi as [d' Hd']. destruct (Hst i d' Hd') as [d0 [Hd0 [Hk [Hs Hc]]]].
  rewrite Hd in Hd0. injection Hd0 as <-.
  exists d'. split; [exact Hd'|split; [rewrite (is_male_key d' d); [exact Hm|exact Hk]|split; [auto|]]].
  intros l Hl y Hy.
  assert (Old : forall l0, children (rels d) = Some l0 -> In y l0 ->
                In y rem' \/ settled (sdata s') d' y).
  { intros l0 H0 Hy0. destruct (Hch l0 H0 y Hy0) as [Hr|Hset].
    - destruct (Hrem y Hr) as [Hr'|Hall]; [left; exact Hr'|right; apply Hall].
    - right. eapply settled_grows; eauto. }
  destruct Hc as [Hc|[l0 [x [H0 [H1 [Hx _]]]]]].
  - apply (Old l); [congruence|exact Hy].
  - rewrite H1 in Hl. injection Hl as <-. apply in_app_or in Hy. destruct Hy as [Hy|[<-|[]]].
    + exact (Old l0 H0 Hy).
    + right. apply HQ. exact Hx.
Qed.

Lemma nth_upd_cases {A} j (g : A -> A) ds k c :
  nth_error (update_at j g ds) k = Some c ->
  exists b, nth_error ds k = Some b /\ ((k = j /\ c = g b) \/ (k <> j /\ c = b)).
Proof.
  rewrite nth_update_at. destruct (Nat.eqb_spec j k) as [<-|Hne].
  - destruct (nth_error ds j) as [b|]; [|discriminate]. intros H. injection H as <-.
    exists b. auto.
  - intros H. exists c. auto.
Qed.

Lemma step_ok_same Q a b c :
  step_ok Q a b -> key c = key b -> spouses (rels c) = spouses (rels b) ->
  children (rels c) = children (rels b) -> step_ok Q a c.
Proof.
  intros [Hk [Hs Hc]] E1 E2 E3. split; [congruence|split].
  - rewrite E2. exact Hs.
  - rewrite E3. exact Hc.
Qed.

Lemma truthy_ne w : w <> "" -> truthy (Some w) = true.
Proof.
  intros H. unfold truthy. destruct (String.eqb_spec w ""); [contradiction|reflexivity].
Qed.

Lemma opt_str_eqb_some a w : opt_str_eqb a (Some w) = true -> a = Some w.
Proof.
  destruct a as [v|]; simpl; [|discriminate]. intros H. apply String.eqb_eq in H. congruence.
Qed.

(** Setting the empty slot completes a child whose other slot is set. *)
Lemma set_slot_full b c v w :
  slot b (rels c) = Some w -> w <> "" -> v <> "" ->
  full (set_rels c (set_slot (negb b) (Some v) (rels c))) = true.
Proof.
  intros Hw Hw0 Hv. unfold full, set_rels, set_slot, slot in *.
  destruct b; simpl; rewrite Hw; simpl;
    destruct (String.eqb_spec v ""), (String.eqb_spec w ""); try contradiction; reflexivity.
Qed.

Lemma done_app ds e p : done ds p -> done (ds ++ e) p.
Proof.
  intros [D1 D2]. split; [exact D1|]. intros l Hl x Hx.
  destruct (D2 l Hl x Hx) as [j [c [Hj [Hc Hg]]]].
  exists j, c. split; [apply find_index_app; exact Hj|split; [|exact Hg]].
  rewrite nth_error_app1; [exact Hc|]. apply nth_error_Some. congruence.
Qed.

Section Ops.
Variable gen : nat -> string.
Hypothesis gen_ne : forall k, gen k <> "".

(** [d.rels.spouses = []] at the start of iteration [i]. *)
Lemma spouses_set_inv n i s :
  Inv n i s ->
  Inv n i (upd_ref (InData i) (fun p => set_rels p (set_spouses (Some []) (rels p))) s).
Proof.
  intros HI. apply (Inv_transfer (fun _ => False) n i s); auto.
  - apply grows_pslots; simpl; apply map_update_at; reflexivity.
  - simpl. apply upd_step. intros p0 _. split; [reflexivity|split].
    + simpl. discriminate.
    + left. reflexivity.
  - intros p' Hp'. left. exists p'. split; [exact Hp'|apply step_ok_refl].
  - intros x q [].
Qed.

Lemma createToAddSpouse_inv n i is_f rem s r s1 :
  createToAddSpouse gen i s = Some (r, s1) ->
  Inv n i s -> dpart i is_f rem s ->
  Inv n i s1 /\ dpart i is_f rem s1 /\ taspart (Some r) s1 /\
  map key (sdata s1) = map key (sdata s) /\ map pslots (sdata s1) = map pslots (sdata s).
Proof.
  unfold createToAddSpouse. destruct (nth_error (sdata s) i) as [d|] eqn:Hd; [|discriminate].
  destruct (spouses (rels d)) as [l|] eqn:Hsp; [|discriminate].
  intros H. injection H as <- <-. intros HI HD.
  set (sp := mkPerson (gen (cnt s)) _ _ _ _ _).
  assert (HK : map key (update_at i (push_spouses (gen (cnt s))) (sdata s)) = map key (sdata s))
    by (apply map_update_at; reflexivity).
  assert (HP : map pslots (update_at i (push_spouses (gen (cnt s))) (sdata s)) = map pslots (sdata s))
    by (apply map_update_at; reflexivity).
  assert (HG := grows_pslots _ _ HK HP).
  assert (HS : forall k p', nth_error (update_at i (push_spouses (gen (cnt s))) (sdata s)) k = Some p' ->
                 exists p, nth_error (sdata s) k = Some p /\ step_ok (fun _ => False) p p').
  { apply upd_step. intros p0 _. split; [reflexivity|split].
    - unfold push_spouses; simpl. destruct (spouses (rels p0)); simpl; congruence.
    - left. reflexivity. }
  split; [|split; [|split; [|split]]]; simpl.
  - apply (Inv_transfer (fun _ => False) n i s); auto.
    + simpl. intros p' Hp'. apply in_app_or in Hp'. destruct Hp' as [Hp'|[<-|[]]].
      * left. exists p'. split; [exact Hp'|apply step_ok_refl].
      * right. simpl. split; [apply gen_ne|split; [discriminate|reflexivity]].
    + intros x q [].
  - apply (dpart_transfer (fun _ => False) i is_f rem rem s); auto.
    + intros x q [].
  - split; [intros p sp0 E; discriminate|].
    intros p E. injection E as <-. rewrite ?length_app. simpl. rewrite ?length_app. simpl. lia.
  - exact HK.
  - exact HP.
Qed.

Lemma find_to_add_spec ds l j :
  find_to_add ds l = Some (Some j) -> exists sp, nth_error ds j = Some sp /\ to_add sp = true.
Proof.
  induction l as [|x l IH]; simpl; [discriminate|].
  destruct (find_index ds x) as [j'|]; [|discriminate].
  destruct (nth_error ds j') as [sp|] eqn:E; [|discriminate].
  destruct (to_add sp) eqn:T; [|exact IH].
  intros H. injection H as <-. eauto.
Qed.

Lemma findOrCreate_inv n i is_f rem s r s1 :
  findOrCreateToAddSpouse gen i s = Some (r, s1) ->
  Inv n i s -> dpart i is_f rem s ->
  Inv n i s1 /\ dpart i is_f rem s1 /\ taspart (Some r) s1 /\
  map key (sdata s1) = map key (sdata s) /\ map pslots (sdata s1) = map pslots (sdata s).
Proof.
  unfold findOrCreateToAddSpouse. destruct (nth_error (sdata s) i) as [d|] eqn:Hd; [|discriminate].
  destruct (spouses (rels d)) as [l|]; [|discriminate].
  destruct (find_to_add (sdata s) l) as [[j|]|] eqn:F; [| |discriminate].
  - intros H. injection H as <- <-. intros HI HD.
    split; [exact HI|split; [exact HD|split; [split|split; reflexivity]]].
    + intros p sp E Hp. injection E as <-. destruct (find_to_add_spec _ _ _ F) as [sp' [H1 H2]].
      congruence.
    + intros p E. discriminate.
  - intros H HI HD. eapply createToAddSpouse_inv; eauto.
Qed.

Lemma in_upd_cases {A} j (g : A -> A) l c :
  In c (update_at j g l) -> exists b, nth_error l j = Some b /\ c = g b \/ In c l.
Proof.
  intros H. apply In_nth_error in H. destruct H as [k Hk].
  destruct (nth_upd_cases j g l k c Hk) as [b [Hb [[-> ->]|[_ ->]]]].
  - exists b. left. auto.
  - exists b. right. eapply nth_error_In; eauto.
Qed.

Lemma push_step_ok x sp lsp :
  children (rels sp) = Some lsp -> spouses (rels sp) <> None ->
  step_ok (fun y => y = x) sp (push_children x sp).
Proof.
  intros Hc Hs. split; [reflexivity|split; [simpl; auto|right]].
  exists lsp, x. unfold push_children; simpl. rewrite Hc. auto.
Qed.

(** Pushing the child onto [to_add_spouse] and filling the child's empty
    slot with the spouse's id. *)
Lemma pair_inv n i is_f x rem s1 r sp lsp j c1 w :
  Inv n i s1 -> dpart i is_f (x :: rem) s1 -> taspart (Some r) s1 ->
  find_index (sdata s1) x = Some j -> nth_error (sdata s1) j = Some c1 ->
  slot is_f (rels c1) = Some w -> w <> "" ->
  get_ref s1 r = Some sp -> children (rels sp) = Some lsp ->
  InvIn n i is_f rem
    (upd_ref (InData j) (fun c => set_rels c (set_slot (negb is_f) (Some (id sp)) (rels c)))
       (upd_ref r (push_children x) s1)) (Some r).
Proof.
  intros HI HD HT Hj Hc1 Hw Hw0 Hsp Hlsp.
  set (g := fun c => set_rels c (set_slot (negb is_f) (Some (id sp)) (rels c))).
  destruct HI as [HL [HDs HPs]].
  assert (Sp : id sp <> "" /\ spouses (rels sp) <> None).
  { destruct r as [p|p]; simpl in Hsp.
    - destruct (HDs p sp Hsp) as [H1 [H2 _]]. split; [exact H1|apply H2].
      apply (proj1 HT p sp eq_refl Hsp).
    - destruct (HPs sp (nth_error_In _ _ Hsp)) as [H1 [H2 _]]. auto. }
  destruct Sp as [Spid Spsp].
  set (D2 := sdata (upd_ref r (push_children x) s1)).
  assert (K2 : map key D2 = map key (sdata s1)).
  { unfold D2. destruct r; simpl; [apply map_update_at; reflexivity|reflexivity]. }
  assert (P2 : map pslots D2 = map pslots (sdata s1)).
  { unfold D2. destruct r; simpl; [apply map_update_at; reflexivity|reflexivity]. }
  assert (S2 : forall k p', nth_error D2 k = Some p' ->
                 exists p, nth_error (sdata s1) k = Some p /\ step_ok (fun y => y = x) p p').
  { unfold D2. destruct r as [p|p]; simpl.
    - apply upd_step. intros p0 Hp0. simpl in Hsp. rewrite Hsp in Hp0. injection Hp0 as <-.
      apply push_step_ok with (lsp := lsp); auto.
    - intros k p' Hk. exists p'. split; [exact Hk|apply step_ok_refl]. }
  assert (Hj2 : find_index D2 x = Some j) by (rewrite (find_index_ids _ _ x (key_ids _ _ K2)); exact Hj).
  destruct (find_index_nth D2 x j Hj2) as [b [Hb _]].
  assert (Hbw : slot is_f (rels b) = Some w).
  { assert (E : nth_error (map pslots D2) j = nth_error (map pslots (sdata s1)) j) by (rewrite P2; reflexivity).
    rewrite !nth_error_map, Hb, Hc1 in E. cbn [option_map] in E. unfold pslots in E.
    injection E as E1 E2. unfold slot in *. destruct is_f; congruence. }
  set (s' := upd_ref (InData j) g (upd_ref r (push_children x) s1)).
  assert (Ds' : sdata s' = update_at j g D2) by reflexivity.
  assert (K' : map key (sdata s') = map key (sdata s1))
    by (rewrite Ds', <- K2; apply map_update_at; reflexivity).
  assert (Full : nth_error (sdata s') j = Some (g b) /\ full (g b) = true).
  { rewrite Ds', nth_update_at, Nat.eqb_refl, Hb. split; [reflexivity|].
    apply set_slot_full with (w := w); auto. }
  assert (G' : grows (sdata s1) (sdata s')).
  { apply grows_trans with D2; [apply grows_pslots; auto|].
    split; [rewrite Ds'; apply map_update_at; reflexivity|].
    intros k c' Hk. rewrite Ds' in Hk. destruct (nth_upd_cases j g D2 k c' Hk) as [b' [Hb' [[-> ->]|[_ ->]]]].
    - exists b'. split; [exact Hb'|right]. rewrite Hb in Hb'. injection Hb' as <-. apply Full.
    - exists b'. split; [exact Hb'|left; auto]. }
  assert (S' : forall k p', nth_error (sdata s') k = Some p' ->
                 exists p, nth_error (sdata s1) k = Some p /\ step_ok (fun y => y = x) p p').
  { intros k p' Hk. rewrite Ds' in Hk. destruct (nth_upd_cases j g D2 k p' Hk) as [b' [Hb' [[-> ->]|[_ ->]]]].
    - destruct (S2 j b' Hb') as [p [Hp Hs]]. exists p. split; [exact Hp|].
      eapply step_ok_same; [exact Hs|reflexivity| |];
        unfold g, set_slot; destruct (negb is_f); reflexivity.
    - apply S2. exact Hb'. }
  assert (Set' : forall y q, y = x -> settled (sdata s') q y).
  { intros y q ->. exists j, (g b). split; [|split; [apply Full|apply full_good; apply Full]].
    rewrite (find_index_ids _ _ x (key_ids _ _ K')). exact Hj. }
  split; [|split].
  - apply (Inv_transfer (fun y => y = x) n i s1); auto.
    + split; [exact HL|split; assumption].
    + intros p' Hp'. left. destruct r as [p|p]; simpl in Hp'.
      * exists p'. split; [exact Hp'|apply step_ok_refl].
      * destruct (in_upd_cases p (push_children x) (pend s1) p' Hp') as [b' [[Hb' ->]|Hin]].
        -- exists b'. split; [eapply nth_error_In; eauto|]. simpl in Hsp. rewrite Hsp in Hb'.
           injection Hb' as <-. apply push_step_ok with (lsp := lsp); auto.
        -- exists p'. split; [exact Hin|apply step_ok_refl].
  - apply (dpart_transfer (fun y => y = x) i is_f (x :: rem) rem s1); auto.
    intros y [<-|Hy]; [right; intros q; apply Set'; reflexivity|left; exact Hy].
  - split.
    + intros p sp' E Hp. injection E as ->. destruct (key_nth _ _ p sp' K' Hp) as [sp0 [H0 Hk]].
      pose proof (proj1 HT p sp0 eq_refl H0) as Ht. unfold key in Hk. injection Hk as _ _ E3. congruence.
    + intros p E. injection E as ->. simpl. rewrite length_update_at. apply (proj2 HT p eq_refl).
Qed.

Lemma pslots_nth ds ds' j c :
  map pslots ds' = map pslots ds -> nth_error ds j = Some c ->
  exists c', nth_error ds' j = Some c' /\ pslots c' = pslots c.
Proof.
  intros H Hc. assert (E : nth_error (map pslots ds') j = nth_error (map pslots ds) j) by (rewrite H; reflexivity).
  rewrite !nth_error_map, Hc in E. destruct (nth_error ds' j) as [c'|]; [|discriminate].
  exists c'. cbn [option_map] in E. split; [reflexivity|congruence].
Qed.

Lemma slot_pslots b a c : pslots a = pslots c -> slot b (rels a) = slot b (rels c).
Proof. unfold pslots, slot. intros H. injection H as E1 E2. destruct b; assumption. Qed.

Lemma child_step_inv n i is_f x rem s tas s' tas' :
  InvIn n i is_f (x :: rem) s tas ->
  child_step gen i is_f (Some (s, tas)) x = Some (s', tas') ->
  InvIn n i is_f rem s' tas'.
Proof.
  intros [HI [HD HT]] H. unfold child_step in H.
  destruct (nth_error (sdata s) i) as [d|] eqn:Hd; [|discriminate].
  destruct (find_index (sdata s) x) as [j|] eqn:Hj; [|discriminate].
  destruct (nth_error (sdata s) j) as [child|] eqn:Hc; [|discriminate].
  destruct HD as [d0 [Hd0 [Hm [Hsp Hch]]]]. rewrite Hd in Hd0. injection Hd0 as <-.
  assert (Skip : good d child = true -> InvIn n i is_f rem s tas).
  { intros Hg. split; [exact HI|split; [|exact HT]].
    exists d. split; [exact Hd|split; [exact Hm|split; [exact Hsp|]]].
    intros l Hl y Hy. destruct (Hch l Hl y Hy) as [[<-|Hr]|Hset]; auto.
    right. exists j, child. auto. }
  destruct (negb (opt_str_eqb (slot is_f (rels child)) (Some (id d)))) eqn:E1.
  - injection H as <- <-. apply Skip. unfold good. rewrite Hm, E1. reflexivity.
  - destruct (truthy (slot (negb is_f) (rels child))) eqn:E2.
    + injection H as <- <-. apply Skip. unfold good. rewrite Hm, E2, orb_true_r. reflexivity.
    + destruct (match tas with Some r => Some (r, s) | None => findOrCreateToAddSpouse gen i s end)
        as [[r s1]|] eqn:F; [|discriminate].
      destruct (get_ref s1 r) as [sp|] eqn:Hsp1; [|discriminate].
      destruct (children (rels sp)) as [lsp|] eqn:Hl; [|discriminate].
      injection H as <- <-.
      assert (St : Inv n i s1 /\ dpart i is_f (x :: rem) s1 /\ taspart (Some r) s1 /\
                   map key (sdata s1) = map key (sdata s) /\ map pslots (sdata s1) = map pslots (sdata s)).
      { destruct tas as [r0|].
        - injection F as <- <-. split; [exact HI|split; [|split; [exact HT|split; reflexivity]]].
          exists d. auto.
        - eapply findOrCreate_inv; eauto. exists d. auto. }
      destruct St as [HI1 [HD1 [HT1 [K1 P1]]]].
      destruct (find_index_nth _ _ _ Hj) as [c0 [Hc0 Hid]]. rewrite Hc in Hc0. injection Hc0 as <-.
      rewrite Hid.
      destruct (pslots_nth _ _ j child P1 Hc) as [c1 [Hc1 Pc1]].
      apply pair_inv with (lsp := lsp) (c1 := c1) (w := id d); auto.
      * rewrite (find_index_ids _ _ x (key_ids _ _ K1)). exact Hj.
      * rewrite (slot_pslots is_f c1 child Pc1). apply opt_str_eqb_some.
        destruct (opt_str_eqb _ _); [reflexivity|discriminate].
      * destruct HI as [_ [HDs _]]. apply (HDs i d Hd).
Qed.

Lemma fold_none {A B} (f : option A -> B -> option A) (Hf : forall b, f None b = None) l :
  fold_left f l None = None.
Proof. induction l as [|b l IH]; simpl; [reflexivity|]. rewrite Hf. exact IH. Qed.

Lemma children_fold_inv n i is_f l s tas s' tas' :
  InvIn n i is_f l s tas ->
  fold_left (child_step gen i is_f) l (Some (s, tas)) = Some (s', tas') ->
  InvIn n i is_f [] s' tas'.
Proof.
  revert s tas. induction l as [|x l IH]; intros s tas HI H; cbn [fold_left] in H.
  - injection H as <- <-. exact HI.
  - destruct (child_step gen i is_f (Some (s, tas)) x) as [[s1 t1]|] eqn:E.
    + eapply IH; [eapply child_step_inv; eauto|exact H].
    + rewrite fold_none in H; [discriminate|reflexivity].
Qed.

Lemma person_step_inv n i s s' :
  Inv n i s -> person_step gen s i = Some s' -> Inv n (S i) s'.
Proof.
  intros HI H. unfold person_step in H.
  assert (Up : forall s0, Inv n i s0 ->
                 (forall p, nth_error (sdata s0) i = Some p -> done (sdata s0) p) -> Inv n (S i) s0).
  { intros s0 [HL [HDs HPs]] Hi. split; [exact HL|split; [|exact HPs]].
    intros k p Hk. destruct (HDs k p Hk) as [H1 [H2 H3]]. split; [exact H1|split; [exact H2|]].
    intros Hlt. destruct (Nat.eq_dec k i) as [->|Hne]; [apply Hi; exact Hk|apply H3; lia]. }
  destruct (nth_error (sdata s) i) as [d|] eqn:Hd.
  2:{ injection H as <-. apply Up; [exact HI|]. intros p Hp. congruence. }
  destruct (children (rels d)) as [[|c cs]|] eqn:Hch.
  1,3: injection H as <-; apply Up; [exact HI|]; intros p Hp; rewrite Hd in Hp; injection Hp as <-;
       split; [intros l Hl Hne|intros l Hl y Hy]; rewrite Hch in Hl; try discriminate;
       injection Hl as <-; first [contradiction (Hne eq_refl)|destruct Hy].
  set (s1 := match spouses (rels d) with
             | None => upd_ref (InData i) (fun p => set_rels p (set_spouses (Some []) (rels p))) s
             | Some _ => s end) in H.
  destruct (fold_left _ _ _) as [[s2 t2]|] eqn:F; [|discriminate]. injection H as <-.
  assert (HI1 : InvIn n i (is_male d) (c :: cs) s1 None).
  { split; [|split; [|split; intros; discriminate]].
    - unfold s1. destruct (spouses (rels d)); [exact HI|apply spouses_set_inv; exact HI].
    - unfold s1. destruct (spouses (rels d)) as [l|] eqn:Hs.
      + exists d. split; [exact Hd|split; [reflexivity|split; [congruence|]]].
        intros l0 Hl0 y Hy. left. rewrite Hch in Hl0. injection Hl0 as <-. exact Hy.
      + unfold dpart; simpl. rewrite nth_update_at, Nat.eqb_refl, Hd. eexists. split; [reflexivity|].
        split; [reflexivity|split; [simpl; discriminate|]].
        intros l0 Hl0 y Hy. left. simpl in Hl0. rewrite Hch in Hl0. injection Hl0 as <-. exact Hy. }
  destruct (children_fold_inv _ _ _ _ _ _ _ _ HI1 F) as [HI2 [[d2 [Hd2 [_ [Hs2 Hc2]]]] _]].
  apply Up; [exact HI2|]. intros p Hp. rewrite Hd2 in Hp. injection Hp as <-.
  split; [intros; exact Hs2|]. intros l Hl y Hy. destruct (Hc2 l Hl y Hy) as [[]|Hset]. exact Hset.
Qed.

Lemma loop_inv n m i s s' :
  Inv n i s -> loop gen (seq i m) s = Some s' -> Inv n (i + m) s'.
Proof.
  unfold loop. revert i s. induction m as [|m IH]; intros i s HI H; simpl in H.
  - injection H as <-. rewrite Nat.add_0_r. exact HI.
  - destruct (person_step gen s i) as [s1|] eqn:E.
    + replace (i + S m) with (S i + m) by lia. eapply IH; [eapply person_step_inv; eauto|exact H].
    + rewrite fold_none in H; [discriminate|reflexivity].
Qed.

End Ops.

(** A run over a stash where every person's iteration changes nothing
    returns the stash unchanged. *)
Lemma createRelsToAdd_fixed gen m ds :
  (forall p, In p ds -> done ds p) -> createRelsToAdd gen m ds = Some (ds, m).
Proof.
  intros Hd. unfold createRelsToAdd.
  assert (L : forall ks, loop gen ks (mkSt ds [] m) = Some (mkSt ds [] m)).
  { unfold loop. induction ks as [|k ks IH]; simpl; [reflexivity|].
    replace (person_step gen (mkSt ds [] m) k) with (Some (mkSt ds [] m)); [exact IH|].
    unfold person_step; cbn [sdata]. destruct (nth_error ds k) as [p|] eqn:Hp; [|reflexivity].
    destruct (Hd p (nth_error_In _ _ Hp)) as [D1 D2].
    destruct (children (rels p)) as [[|c cs]|] eqn:Hc; [reflexivity| |reflexivity].
    destruct (spouses (rels p)) as [l|] eqn:Hs.
    2:{ exfalso. apply (D1 (c :: cs) eq_refl); [discriminate|reflexivity]. }
    assert (F : forall l0, (forall x, In x l0 -> settled ds p x) ->
                fold_left (child_step gen k (is_male p)) l0 (Some (mkSt ds [] m, None)) =
                Some (mkSt ds [] m, None)).
    { induction l0 as [|x l0 IHl]; intros Hx; cbn [fold_left]; [reflexivity|].
      destruct (Hx x (or_introl eq_refl)) as [j [c0 [Hj [Hc0 Hg]]]].
      replace (child_step gen k (is_male p) (Some (mkSt ds [] m, None)) x)
        with (Some (mkSt ds [] m, @None sref)).
      - apply IHl. intros y Hy. apply Hx. right. exact Hy.
      - unfold child_step; simpl. rewrite Hp, Hj, Hc0. unfold good in Hg.
        destruct (negb _) eqn:E; [reflexivity|]. simpl in Hg. rewrite Hg. reflexivity. }
    symmetry. rewrite F; [reflexivity|]. apply D2. reflexivity. }
  rewrite L. simpl. rewrite app_nil_r. reflexivity.
Qed.


End AugmentFacts.

(** The uuids [sp0], [sp1], ... *)
Definition gen_sp (k : nat) : string := "sp" ++ JS.nat_to_string k.

(** A mother whose id is the empty string. *)
Definition aug_empty_id : list Person.person :=
  [mk "" "F" (Person.mkRels None None None (Some ["c"]));
   mk "c" "M" (Person.mkRels None (Some "") None None)].

(** A father with a child that has no mother. *)
Definition aug_single : list Person.person :=
  [mk "a" "M" (Person.mkRels None None None (Some ["c"]));
   mk "c" "M" (Person.mkRels (Some "a") None None None)].

Module AugmentClaims.
Import Person Augment AugmentFacts.

(** The code reads an empty id as an unset slot ([if (child.rels[...])
    return]): a child whose mother is [""] gets a placeholder, and so
    does it again on a second run. *)
Example augment_empty_id_grows :
  exists out1 out2 k1 k2,
    createRelsToAdd gen_sp 0 aug_empty_id = Some (out1, k1) /\
    createRelsToAdd gen_sp k1 out1 = Some (out2, k2) /\
    length out1 = 3 /\ length out2 = 4.
Proof. do 4 eexists. split; [reflexivity|split; [reflexivity|split; reflexivity]]. Qed.

(** C6.  Running [createRelsToAdd] on the result of a successful run
    returns that result unchanged, and draws no uuid.  The conditions are
    those the code keeps: a relation slot holds an id or is unset, and
    the code reads [""] as unset, so no person id is empty; [uuid.v4()]
    is never empty; a [to_add] person is only made by [createToAddSpouse],
    with [spouses: [d.id]], and no code removes that array. *)
Theorem C6_createRelsToAdd_idempotent gen gen' n m data out n' :
  (forall k, gen k <> "") ->
  (forall p, In p data -> id p <> "") ->
  (forall p, In p data -> to_add p = true -> spouses (rels p) <> None) ->
  createRelsToAdd gen n data = Some (out, n') ->
  createRelsToAdd gen' m out = Some (out, m).
Proof.
  intros Hgen Hid Hta H. unfold createRelsToAdd in H.
  destruct (loop gen (seq 0 (length data)) (mkSt data [] n)) as [s|] eqn:L; [|discriminate].
  injection H as <- _.
  assert (I0 : Inv (length data) 0 (mkSt data [] n)).
  { split; [reflexivity|split].
    - intros k p Hk. simpl in Hk. pose proof (nth_error_In _ _ Hk) as Hp.
      split; [apply Hid; exact Hp|split; [apply Hta; exact Hp|intros C; lia]].
    - intros p []. }
  destruct (loop_inv gen Hgen _ _ _ _ _ I0 L) as [HL [HDs HPs]].
  apply createRelsToAdd_fixed. intros p Hp. apply done_app.
  apply in_app_or in Hp. destruct Hp as [Hp|Hp].
  - apply In_nth_error in Hp. destruct Hp as [k Hk].
    apply (HDs k p Hk). simpl. rewrite <- HL. apply nth_error_Some. congruence.
  - apply (HPs p Hp).
Qed.

Lemma C6_createRelsToAdd_idempotent_witness :
  createRelsToAdd gen_sp 0
    [mk "a" "M" (mkRels None None (Some ["sp0"]) (Some ["c"]));
     mk "c" "M" (mkRels (Some "a") (Some "sp0") None None);
     mkPerson "sp0" [("gender", Some "F")] (mkRels None None (Some ["a"]) (Some ["c"])) None true false] =
  Some ([mk "a" "M" (mkRels None None (Some ["sp0"]) (Some ["c"]));
         mk "c" "M" (mkRels (Some "a") (Some "sp0") None None);
         mkPerson "sp0" [("gender", Some "F")] (mkRels None None (Some ["a"]) (Some ["c"])) None true false], 0).
Proof.
  apply (C6_createRelsToAdd_idempotent gen_sp gen_sp 0 0 aug_single _ 1).
  - intros k. simpl. discriminate.
  - intros p Hp. simpl in Hp. repeat (destruct Hp as [<-|Hp]; [simpl; discriminate|]). destruct Hp.
  - intros p Hp. simpl in Hp. repeat (destruct Hp as [<-|Hp]; [simpl; discriminate|]). destruct Hp.
  - vm_compute. reflexivity.
Defined.

End AugmentClaims.

(** A node [p] with children [c1; c2] whose spouse [q] has the children
    [c1; x; c2]. *)
Definition tog_p : Person.person :=
  mk "p" "M" (Person.mkRels None None (Some ["q"]) (Some ["c1"; "c2"])).
Definition tog_q : Person.person :=
  mk "q" "F" (Person.mkRels None None (Some ["p"]) (Some ["c1"; "x"; "c2"])).
Definition tog_pair : list Person.person := [tog_p; tog_q].

Definition tog_node : Toggle.tnode := Toggle.mkT 0 false false None (Some [1]).

Definition tog_hide_show (t : Toggle.tnode) (ds : list Person.person)
  : option (list Person.person) :=
  match Toggle.toggleRels t true ds with
  | Some ds1 => Toggle.toggleRels t false ds1
  | None => None
  end.

Definition tog_ds1 : list Person.person :=
  match Toggle.toggleRels tog_node true tog_pair with Some d => d | None => [] end.
Definition tog_ds2 : list Person.person :=
  match Toggle.toggleRels tog_node false tog_ds1 with Some d => d | None => [] end.

Module ToggleFacts.
Import Person Toggle.
Local Open Scope nat_scope.
Local Open Scope list_scope.

(** The inner [forEach] over the snapshot [L] restricted to one person. *)
Definition move_all (hide : bool) (L : list string) (q : person) : option person :=
  fold_left (fun acc ch => match acc with None => None | Some q => move_child hide ch q end)
    L (Some q).

(** The nested [forEach] over the persons [ks] and the snapshot [L]. *)
Definition outer (hide : bool) (L : list string) (ks : list nat) (acc : option (list person))
  : option (list person) :=
  fold_left (fun acc k => fold_left (child_at hide k) L acc) ks acc.

Lemma child_fold_none hide k L : fold_left (child_at hide k) L None = None.
Proof. apply AugmentFacts.fold_none. reflexivity. Qed.

Lemma move_fold_none hide L :
  fold_left (fun acc ch => match acc with None => None | Some q => move_child hide ch q end)
    L None = None.
Proof. apply AugmentFacts.fold_none. reflexivity. Qed.

Lemma outer_none hide L ks : outer hide L ks None = None.
Proof.
  unfold outer. apply AugmentFacts.fold_none. intros k. apply child_fold_none.
Qed.

Lemma update_at_same {A} k (x : A) l :
  nth_error l k = Some x -> update_at k (fun _ => x) l = l.
Proof.
  revert k. induction l as [|a l IH]; intros [|k]; simpl; try discriminate.
  - intros H. injection H as ->. reflexivity.
  - intros H. rewrite (IH k H). reflexivity.
Qed.

Lemma update_at_twice {A} k (x y : A) l :
  update_at k (fun _ => x) (update_at k (fun _ => y) l) = update_at k (fun _ => x) l.
Proof.
  revert k. induction l as [|a l IH]; intros [|k]; simpl; try reflexivity.
  rewrite IH. reflexivity.
Qed.

Lemma inner_fold hide k L ds q :
  nth_error ds k = Some q ->
  fold_left (child_at hide k) L (Some ds) =
  option_map (fun q' => update_at k (fun _ => q') ds) (move_all hide L q).
Proof.
  unfold move_all. revert ds q. induction L as [|ch L IH]; intros ds q Hq; simpl.
  - rewrite (update_at_same k q ds Hq). reflexivity.
  - rewrite Hq. destruct (move_child hide ch q) as [q1|] eqn:E.
    + rewrite (IH (update_at k (fun _ => q1) ds) q1).
      * destruct (fold_left _ L (Some q1)); simpl; [rewrite update_at_twice|]; reflexivity.
      * apply (DeleteFacts.update_at_nth k (fun _ => q1) ds q Hq).
    + rewrite child_fold_none, move_fold_none. reflexivity.
Qed.

Lemma inner_absent hide k L ds :
  nth_error ds k = None ->
  fold_left (child_at hide k) L (Some ds) = Some ds \/
  fold_left (child_at hide k) L (Some ds) = None.
Proof.
  intros H. destruct L as [|ch L]; simpl; [left; reflexivity|right].
  rewrite H. apply child_fold_none.
Qed.

Lemma outer_spec hide L ks ds ds' :
  NoDup ks -> outer hide L ks (Some ds) = Some ds' ->
  (forall k q, In k ks -> nth_error ds k = Some q ->
     exists q', move_all hide L q = Some q' /\ nth_error ds' k = Some q') /\
  (forall j, ~ In j ks -> nth_error ds' j = nth_error ds j).
Proof.
  unfold outer. revert ds. induction ks as [|k ks IH]; intros ds Hnd Hf; simpl in Hf.
  - injection Hf as <-. split; [intros k q []|reflexivity].
  - inversion Hnd as [|? ? Hk Hnd']; subst.
    destruct (nth_error ds k) as [q|] eqn:Hq.
    + rewrite (inner_fold hide k L ds q Hq) in Hf.
      destruct (move_all hide L q) as [q'|] eqn:Hm; simpl in Hf;
        [|rewrite (AugmentFacts.fold_none _ (fun k => child_fold_none hide k L)) in Hf; discriminate].
      destruct (IH _ Hnd' Hf) as [H1 H2]. split.
      * intros k0 q0 [<-|Hin] Hq0.
        -- rewrite Hq in Hq0. injection Hq0 as <-. exists q'. split; [exact Hm|].
           rewrite (H2 k Hk). apply (DeleteFacts.update_at_nth k (fun _ => q') ds q Hq).
        -- apply H1; [exact Hin|]. rewrite AugmentFacts.nth_update_at.
           destruct (Nat.eqb_spec k k0); [subst; contradiction|exact Hq0].
      * intros j Hj. rewrite (H2 j (fun H => Hj (or_intror H))).
        rewrite AugmentFacts.nth_update_at.
        destruct (Nat.eqb_spec k j); [subst; exfalso; apply Hj; left; reflexivity|reflexivity].
    + destruct (inner_absent hide k L ds Hq) as [E|E]; rewrite E in Hf;
        [|rewrite (AugmentFacts.fold_none _ (fun k => child_fold_none hide k L)) in Hf; discriminate].
      destruct (IH _ Hnd' Hf) as [H1 H2]. split.
      * intros k0 q0 [<-|Hin] Hq0; [congruence|]. apply H1; assumption.
      * intros j Hj. apply H2. intros H. apply Hj. right. exact H.
Qed.

Definition dstl (hide : bool) (q : person) : list string :=
  match get_obj (negb hide) q with
  | Some d => match children d with Some l => l | None => [] end
  | None => []
  end.

Definition d0 (hide : bool) (q : person) : rels_t :=
  match get_obj (negb hide) q with Some d => d | None => no_rels end.

Definition notin (L : list string) (c : string) : bool := negb (JS.includes L c).

Lemma get_set_same b p r : get_obj b (set_obj b p r) = Some r.
Proof. destruct b; reflexivity. Qed.

Lemma get_set_other b p r : get_obj (negb b) (set_obj b p r) = get_obj (negb b) p.
Proof. destruct b; reflexivity. Qed.

Lemma get_set_other' b p r : get_obj b (set_obj (negb b) p r) = get_obj b p.
Proof. destruct b; reflexivity. Qed.

Lemma set_children_twice a b r :
  Augment.set_children a (Augment.set_children b r) = Augment.set_children a r.
Proof. reflexivity. Qed.

Lemma set_children_eta l r : children r = Some l -> Augment.set_children (Some l) r = r.
Proof. destruct r; simpl; intros ->; reflexivity. Qed.

Lemma includes_cons c x L : JS.includes (x :: L) c = String.eqb c x || JS.includes L c.
Proof. reflexivity. Qed.

Lemma includes_remove_first x c S :
  c <> x -> JS.includes (Delete.remove_first x S) c = JS.includes S c.
Proof.
  intros Hne. induction S as [|a S IH]; cbn [Delete.remove_first]; [reflexivity|].
  destruct (String.eqb_spec a x) as [->|Ha].
  - rewrite includes_cons. apply String.eqb_neq in Hne. rewrite Hne. reflexivity.
  - rewrite !includes_cons, IH. reflexivity.
Qed.

Lemma notin_remove_first ch L' S :
  NoDup S ->
  filter (notin L') (Delete.remove_first ch S) = filter (notin (ch :: L')) S.
Proof.
  induction S as [|a S IH]; intros Hnd; simpl; [reflexivity|].
  inversion Hnd as [|? ? Ha Hnd']; subst.
  unfold notin at 2. rewrite includes_cons.
  destruct (String.eqb_spec a ch) as [->|Hne].
  - simpl. apply filter_ext_in. intros c Hc.
    unfold notin. rewrite includes_cons.
    destruct (String.eqb_spec c ch) as [->|]; [contradiction|reflexivity].
  - simpl. rewrite (IH Hnd'). reflexivity.
Qed.

Lemma notin_absent ch L' S :
  JS.includes S ch = false -> filter (notin L') S = filter (notin (ch :: L')) S.
Proof.
  intros H. apply filter_ext_in. intros c Hc. unfold notin. rewrite includes_cons.
  destruct (String.eqb_spec c ch) as [->|]; [|reflexivity].
  apply DeleteFacts.includes_In in Hc. congruence.
Qed.

Lemma filter_notin_nil S : filter (notin []) S = S.
Proof. induction S as [|a S IH]; simpl; [|rewrite IH]; reflexivity. Qed.

Lemma existsb_ext_in (f g : string -> bool) L :
  (forall c, In c L -> f c = g c) -> existsb f L = existsb g L.
Proof.
  induction L as [|a L IH]; intros H; simpl; [reflexivity|].
  rewrite (H a (or_introl eq_refl)), IH; [reflexivity|]. intros c Hc. apply H. right. exact Hc.
Qed.

Lemma existsb_false_filter (f : string -> bool) L : existsb f L = false -> filter f L = [].
Proof.
  induction L as [|a L IH]; simpl; [reflexivity|].
  destruct (f a); simpl; [discriminate|exact IH].
Qed.

Lemma NoDup_remove_first x S : NoDup S -> NoDup (Delete.remove_first x S).
Proof.
  induction S as [|a S IH]; intros Hnd; simpl; [constructor|].
  inversion Hnd as [|? ? Ha Hnd']; subst.
  destruct (String.eqb a x); [exact Hnd'|]. constructor; [|exact (IH Hnd')].
  intros H. apply Ha. apply (DeleteFacts.remove_first_In x a S H).
Qed.

(** One person under the inner [forEach]: the ids of [L] found in the
    source list leave it and are appended, in the order of [L], to the
    target list. *)
Lemma move_all_spec hide L S q r :
  NoDup L -> NoDup S -> get_obj hide q = Some r -> children r = Some S ->
  exists q', move_all hide L q = Some q' /\
    get_obj hide q' = Some (Augment.set_children (Some (filter (notin L) S)) r) /\
    get_obj (negb hide) q' =
      (if existsb (JS.includes S) L
       then Some (Augment.set_children (Some (dstl hide q ++ filter (JS.includes S) L)) (d0 hide q))
       else get_obj (negb hide) q).
Proof.
  unfold move_all. revert S q r.
  induction L as [|ch L IH]; intros S q r HL HS Hq Hr; simpl.
  - exists q. split; [reflexivity|]. split; [|reflexivity].
    rewrite filter_notin_nil, (set_children_eta S r Hr). exact Hq.
  - inversion HL as [|? ? Hch HL']; subst.
    unfold move_child at 2. rewrite Hq, Hr.
    destruct (JS.includes S ch) eqn:Hin.
    + set (X := Augment.set_children (Some (dstl hide q ++ [ch])) (d0 hide q)).
      set (Y := Augment.set_children (Some (Delete.remove_first ch S)) r).
      set (q1 := set_obj hide (set_obj (negb hide) q X) Y).
      assert (E1 : get_obj hide q1 = Some Y) by apply get_set_same.
      assert (E2 : get_obj (negb hide) q1 = Some X).
      { unfold q1. rewrite get_set_other. apply get_set_same. }
      assert (ED : match get_obj (negb hide) q with Some d => d | None => no_rels end = d0 hide q)
        by reflexivity.
      assert (EL : match children (d0 hide q) with Some dl => dl | None => [] end = dstl hide q)
        by (unfold dstl, d0; destruct (get_obj (negb hide) q); reflexivity).
      rewrite ED, EL. fold X. fold Y. fold q1.
      destruct (IH (Delete.remove_first ch S) q1 Y HL' (NoDup_remove_first ch S HS) E1 eq_refl)
        as [q' [Hm [Hs Hd]]].
      exists q'. split; [exact Hm|]. split.
      * rewrite Hs. unfold Y. rewrite set_children_twice, (notin_remove_first ch L S HS).
        reflexivity.
      * rewrite Hd. unfold dstl at 1, d0 at 1. rewrite E2.
        assert (EF : filter (JS.includes (Delete.remove_first ch S)) L = filter (JS.includes S) L).
        { apply filter_ext_in. intros c Hc. apply includes_remove_first.
          intros ->. contradiction. }
        assert (EB : existsb (JS.includes (Delete.remove_first ch S)) L =
                     existsb (JS.includes S) L).
        { apply existsb_ext_in. intros c Hc. apply includes_remove_first. intros ->. contradiction. }
        rewrite EF, EB. unfold X. simpl children. rewrite set_children_twice.
        destruct (existsb (JS.includes S) L) eqn:Eb.
        -- rewrite <- app_assoc. reflexivity.
        -- rewrite (existsb_false_filter _ _ Eb). reflexivity.
    + destruct (IH S q r HL' HS Hq Hr) as [q' [Hm [Hs Hd]]].
      exists q'. split; [exact Hm|]. split.
      * rewrite Hs, (notin_absent ch L S Hin). reflexivity.
      * exact Hd.
Qed.

(** [_rels] of [p] has no hidden children. *)
Definition hid_empty (p : person) : Prop :=
  match hidden_rels p with
  | Some h => match children h with Some l => l = [] | None => True end
  | None => True
  end.

(** [_rels] of [p] holds no truthy [father] ([is_f]) or [mother]. *)
Definition hid_falsy (is_f : bool) (p : person) : Prop :=
  match hidden_rels p with
  | Some h => truthy (Augment.slot is_f h) = false
  | None => True
  end.

Lemma ancestry_restores p :
  (forall is_f, truthy (Augment.slot is_f (rels p)) = true \/ hid_falsy is_f p) ->
  rels (showHideAncestry false false (showHideAncestry false true
          (showHideAncestry true false (showHideAncestry true true p)))) = rels p.
Proof.
  destruct p as [i dt [f m sp ch] h ta un]. intros Hc.
  pose proof (Hc true) as Hf. pose proof (Hc false) as Hm. clear Hc.
  unfold hid_falsy in *.
  destruct h as [[hf hm hs hc]|];
  cbv [showHideAncestry get_obj set_obj Augment.slot Augment.set_slot set_rels set_hidden
       negb rels hidden_rels father mother spouses children id data to_add unknown no_rels] in *.
  all: cbn [truthy].
  all: repeat (match goal with |- context [truthy ?x] => destruct (truthy x) eqn:? end; cbn [truthy]).
  all: destruct Hf as [Hf|Hf]; destruct Hm as [Hm|Hm]; try reflexivity; try congruence;
    match goal with H : truthy None = true |- _ => discriminate H end.
Qed.

Lemma outer_nil hide ks acc : outer hide [] ks acc = acc.
Proof. unfold outer. revert acc. induction ks as [|k ks IH]; intros acc; simpl; auto. Qed.

Lemma move_all_src_none hide L q :
  L <> [] -> match get_obj hide q with Some r => children r | None => None end = None ->
  move_all hide L q = None.
Proof.
  unfold move_all. destruct L as [|ch L]; intros HL H; [contradiction|]. simpl.
  unfold move_child at 2. destruct (get_obj hide q) as [r|].
  - rewrite H. apply move_fold_none.
  - apply move_fold_none.
Qed.

Lemma filter_notin_self C : filter (notin C) C = [].
Proof.
  apply existsb_false_filter. apply Bool.not_true_iff_false. intros H.
  apply existsb_exists in H as [c [Hc H]]. unfold notin in H.
  apply (proj2 (DeleteFacts.includes_In C c)) in Hc. rewrite Hc in H. discriminate.
Qed.

Lemma filter_includes_self C : filter (JS.includes C) C = C.
Proof.
  rewrite <- (filter_true C) at 3. apply filter_ext_in. intros c Hc.
  apply DeleteFacts.includes_In. exact Hc.
Qed.

Lemma existsb_includes_self C : C <> [] -> existsb (JS.includes C) C = true.
Proof.
  destruct C as [|c C]; intros H; [contradiction|]. cbn [existsb].
  rewrite includes_cons, String.eqb_refl. reflexivity.
Qed.

Lemma filter_includes_filter S C :
  filter (JS.includes (filter (JS.includes S) C)) C = filter (JS.includes S) C.
Proof.
  apply filter_ext_in. intros c Hc.
  destruct (JS.includes S c) eqn:E.
  - apply DeleteFacts.includes_In. apply filter_In. split; assumption.
  - apply Bool.not_true_iff_false. intros H. apply DeleteFacts.includes_In in H.
    apply filter_In in H as [_ H]. congruence.
Qed.

(** Showing ([hide = false]): the target is [rels], which always exists. *)
Lemma move_all_rels L S q r :
  NoDup L -> NoDup S -> get_obj false q = Some r -> children r = Some S ->
  forall D, children (rels q) = Some D ->
  exists q', move_all false L q = Some q' /\
    rels q' = Augment.set_children (Some (D ++ filter (JS.includes S) L)) (rels q).
Proof.
  intros HL HS Hq Hr D HD.
  destruct (move_all_spec false L S q r HL HS Hq Hr) as [q' [Hm [_ Hd]]].
  exists q'. split; [exact Hm|]. simpl in Hd.
  unfold dstl, d0 in Hd. simpl in Hd. rewrite HD in Hd.
  destruct (existsb (JS.includes S) L) eqn:E; injection Hd as Hd; rewrite Hd; [reflexivity|].
  rewrite (existsb_false_filter _ _ E), app_nil_r, set_children_eta; [reflexivity|exact HD].
Qed.

(** Hiding ([hide = true]) from [rels]. *)
Lemma move_all_hide L S q :
  NoDup L -> NoDup S -> children (rels q) = Some S -> hid_empty q ->
  exists q', move_all true L q = Some q' /\
    rels q' = Augment.set_children (Some (filter (notin L) S)) (rels q) /\
    (existsb (JS.includes S) L = true ->
       exists r', hidden_rels q' = Some r' /\ children r' = Some (filter (JS.includes S) L)) /\
    (existsb (JS.includes S) L = false -> hidden_rels q' = hidden_rels q).
Proof.
  intros HL HS Hr He.
  destruct (move_all_spec true L S q (rels q) HL HS eq_refl Hr) as [q' [Hm [Hs Hd]]].
  exists q'. split; [exact Hm|]. simpl in Hs, Hd. injection Hs as Hs. split; [exact Hs|].
  unfold dstl, d0 in Hd. simpl in Hd. split; intros E; rewrite E in Hd; [|exact Hd].
  eexists. split; [exact Hd|]. unfold hid_empty in He.
  destruct (hidden_rels q) as [h|]; simpl; [|reflexivity].
  destruct (children h) as [l|]; [subst l|]; reflexivity.
Qed.

Lemma filter_includes_nil C : filter (JS.includes []) C = [].
Proof. induction C as [|c C IH]; [reflexivity|exact IH]. Qed.

End ToggleFacts.

Module ToggleClaims.
Import Person Toggle ToggleFacts.
Local Open Scope nat_scope.
Local Open Scope list_scope.

(** Claim C7 (counterexample): hiding then showing the children of [p]
    gives [p] its children back, but its spouse [q], whose children were
    [c1; x; c2], ends with [x; c1; c2]: the shared children are appended
    after the others. *)
Example C7_spouse_children_reordered :
  children (rels tog_q) = Some ["c1"; "x"; "c2"] /\
  option_map (map (fun d => children (rels d))) (tog_hide_show tog_node tog_pair) =
    Some [Some ["c1"; "c2"]; Some ["x"; "c1"; "c2"]].
Proof. split; [reflexivity|vm_compute; reflexivity]. Qed.

(** Claim C7 (amended): hiding then showing on the same node, when both
    toggles succeed. On an ancestry or main node, the person's [rels]
    comes back exactly, provided each of [father] and [mother] is truthy
    in [rels] or falsy in [_rels]; no other person changes. On another
    node whose children are distinct and whose [_rels] has no hidden
    children, listing distinct spouse persons that each have distinct
    children and no hidden children: the node's [rels] comes back
    exactly; a spouse with children [S] ends with the children of [S]
    not in the node's list [C], followed by those of [C] that are in [S]
    in the order of [C]; no other person changes. *)
Theorem C7_toggle_hide_show (t : tnode) (ds ds1 ds2 : list person) (p : person) :
  nth_error ds (tdata t) = Some p ->
  toggleRels t true ds = Some ds1 ->
  toggleRels t false ds1 = Some ds2 ->
  ((is_ancestry t || data_main t = true ->
    (forall is_f, truthy (Augment.slot is_f (rels p)) = true \/ hid_falsy is_f p) ->
    (exists p2, nth_error ds2 (tdata t) = Some p2 /\ rels p2 = rels p) /\
    (forall j, j <> tdata t -> nth_error ds2 j = nth_error ds j)) /\
   (is_ancestry t || data_main t = false ->
    forall C, children (rels p) = Some C -> NoDup C -> hid_empty p ->
    NoDup (tdata t :: spouse_idx t) ->
    (forall k q, In k (spouse_idx t) -> nth_error ds k = Some q ->
       exists S, children (rels q) = Some S /\ NoDup S /\ hid_empty q) ->
    (exists p2, nth_error ds2 (tdata t) = Some p2 /\ rels p2 = rels p) /\
    (forall k q S, In k (spouse_idx t) -> nth_error ds k = Some q ->
       children (rels q) = Some S ->
       exists q2, nth_error ds2 k = Some q2 /\
         rels q2 = Augment.set_children
                     (Some (filter (notin C) S ++ filter (JS.includes S) C)) (rels q)) /\
    (forall j, ~ In j (tdata t :: spouse_idx t) -> nth_error ds2 j = nth_error ds j))).
Proof.
  intros Hp H1 H2. unfold toggleRels in H1, H2. split.
  - intros Hb Hc. rewrite Hb in H1, H2. rewrite Hp in H1. injection H1 as <-.
    rewrite (DeleteFacts.update_at_nth _ _ ds p Hp) in H2. injection H2 as <-.
    split.
    + rewrite AugmentFacts.nth_update_at, Nat.eqb_refl, (DeleteFacts.update_at_nth _ _ ds p Hp).
      eexists. split; [reflexivity|]. apply ancestry_restores. exact Hc.
    + intros j Hj. rewrite !AugmentFacts.nth_update_at.
      destruct (Nat.eqb_spec (tdata t) j); [congruence|reflexivity].
  - intros Hb C HC HCnd Hhe Hks Hsp. rewrite Hb in H1, H2.
    unfold showHideChildren in H1. rewrite Hp in H1. cbn [get_obj] in H1. rewrite HC in H1.
    change (outer true C (tdata t :: spouse_idx t) (Some ds) = Some ds1) in H1.
    destruct (outer_spec _ _ _ _ _ Hks H1) as [O1 O2].
    destruct (list_eq_dec string_dec C []) as [->|HCne].
    + rewrite outer_nil in H1. injection H1 as <-.
      unfold showHideChildren in H2. rewrite Hp in H2.
      assert (E : ds2 = ds).
      { destruct (get_obj false p) as [h|] eqn:Eh; [|congruence].
        destruct (children h) as [l|] eqn:El; [|congruence].
        unfold hid_empty in Hhe. simpl in Eh. rewrite Eh, El in Hhe. subst l.
        change (outer false [] (tdata t :: spouse_idx t) (Some ds) = Some ds2) in H2.
        rewrite outer_nil in H2. congruence. }
      subst ds2. split; [exists p; split; [exact Hp|reflexivity]|]. split; [|reflexivity].
      intros k q S Hk Hq HS. exists q. split; [exact Hq|]. simpl.
      rewrite filter_notin_nil, app_nil_r, set_children_eta; [reflexivity|exact HS].
    + destruct (move_all_hide C C p HCnd HCnd HC Hhe) as [p1 [Hm1 [Hr1 [Hh1 _]]]].
      destruct (O1 (tdata t) p (or_introl eq_refl) Hp) as [p1' [Hm1' Hn1]].
      rewrite Hm1 in Hm1'. injection Hm1' as <-.
      destruct (Hh1 (existsb_includes_self C HCne)) as [r1 [Hr1h Hr1c]].
      rewrite filter_includes_self in Hr1c. rewrite filter_notin_self in Hr1.
      unfold showHideChildren in H2. rewrite Hn1 in H2. cbn [get_obj] in H2.
      rewrite Hr1h, Hr1c in H2.
      change (outer false C (tdata t :: spouse_idx t) (Some ds1) = Some ds2) in H2.
      destruct (outer_spec _ _ _ _ _ Hks H2) as [P1 P2].
      split; [|split].
      * destruct (move_all_rels C C p1 r1 HCnd HCnd Hr1h Hr1c []) as [p2 [Hm2 Hr2]];
          [rewrite Hr1; reflexivity|].
        destruct (P1 (tdata t) p1 (or_introl eq_refl) Hn1) as [p2' [Hm2' Hn2]].
        rewrite Hm2 in Hm2'. injection Hm2' as <-.
        exists p2. split; [exact Hn2|]. rewrite Hr2, Hr1, filter_includes_self.
        rewrite set_children_twice. apply set_children_eta. exact HC.
      * intros k q S Hk Hq HS.
        destruct (Hsp k q Hk Hq) as [S0 [HS0 [HSnd HqE]]]. rewrite HS in HS0. injection HS0 as <-.
        destruct (move_all_hide C S q HCnd HSnd HS HqE) as [q1 [Hmq [Hrq [Htq Hfq]]]].
        destruct (O1 k q (or_intror Hk) Hq) as [q1' [Hmq' Hnq]].
        rewrite Hmq in Hmq'. injection Hmq' as <-.
        destruct (P1 k q1 (or_intror Hk) Hnq) as [q2 [Hmq2 Hnq2]].
        exists q2. split; [exact Hnq2|].
        destruct (existsb (JS.includes S) C) eqn:Eb.
        -- destruct (Htq eq_refl) as [r' [Hr'h Hr'c]].
           destruct (move_all_rels C _ q1 r' HCnd (NoDup_filter _ HCnd) Hr'h Hr'c
                       (filter (notin C) S)) as [q2' [Hm' Hr']]; [rewrite Hrq; reflexivity|].
           rewrite Hmq2 in Hm'. injection Hm' as <-.
           rewrite Hr', Hrq, filter_includes_filter. reflexivity.
        -- specialize (Hfq eq_refl). unfold hid_empty in HqE.
           destruct (hidden_rels q) as [h|] eqn:Eh.
           ++ destruct (children h) as [l|] eqn:El.
              ** subst l.
                 destruct (move_all_rels C [] q1 h HCnd (NoDup_nil _) Hfq El
                             (filter (notin C) S)) as [q2' [Hm' Hr']];
                   [rewrite Hrq; reflexivity|].
                 rewrite Hmq2 in Hm'. injection Hm' as <-.
                 rewrite Hr', Hrq, filter_includes_nil, (existsb_false_filter _ _ Eb).
                 reflexivity.
              ** exfalso. rewrite (move_all_src_none false C q1 HCne) in Hmq2; [discriminate|].
                 cbn [get_obj]. rewrite Hfq. exact El.
           ++ exfalso. rewrite (move_all_src_none false C q1 HCne) in Hmq2; [discriminate|].
              cbn [get_obj]. rewrite Hfq. reflexivity.
      * intros j Hj. rewrite P2, O2; [reflexivity|exact Hj|exact Hj].
Qed.

(** Claim C7: the amended statement on the couple [tog_pair]. *)
Lemma C7_toggle_hide_show_witness :
  Toggle.toggleRels tog_node true tog_pair = Some tog_ds1 /\
  Toggle.toggleRels tog_node false tog_ds1 = Some tog_ds2 /\
  exists q2, nth_error tog_ds2 1 = Some q2 /\
    rels q2 = Augment.set_children (Some ["x"; "c1"; "c2"]) (rels tog_q).
Proof.
  assert (E1 : Toggle.toggleRels tog_node true tog_pair = Some tog_ds1)
    by (vm_compute; reflexivity).
  assert (E2 : Toggle.toggleRels tog_node false tog_ds1 = Some tog_ds2)
    by (vm_compute; reflexivity).
  split; [exact E1|]. split; [exact E2|].
  destruct (C7_toggle_hide_show tog_node tog_pair tog_ds1 tog_ds2 tog_p eq_refl E1 E2)
    as [_ Hc].
  destruct (Hc eq_refl ["c1"; "c2"] eq_refl) as [_ [Hs _]].
  - repeat constructor; simpl; intuition discriminate.
  - exact I.
  - repeat constructor; simpl; intuition discriminate.
  - intros k q [<-|[]] Hq. simpl in Hq. injection Hq as <-.
    exists ["c1"; "x"; "c2"]. split; [reflexivity|]. split; [|exact I].
    repeat constructor; simpl; intuition discriminate.
  - destruct (Hs 1 tog_q ["c1"; "x"; "c2"] (or_introl eq_refl) eq_refl eq_refl) as [q2 [Hn Hr]].
    exists q2. split; [exact Hn|]. rewrite Hr. vm_compute. reflexivity.
Defined.

End ToggleClaims.

(** The graph [A(M)], [B(F)], [C(M, father=A, mother=B)] with
    [A.spouses = [B]], [A.children = [C]], [B.children = [C]]. *)
Definition c8_graph : list Person.person :=
  [mk "A" "M" (Person.mkRels None None (Some ["B"]) (Some ["C"]));
   mk "B" "F" (Person.mkRels None None None (Some ["C"]));
   mk "C" "M" (Person.mkRels (Some "A") (Some "B") None None)].

(** The default configuration with the focus on [C]. *)
Definition c8_cfg : Layout.cfg :=
  Layout.mkCfg (Some "C") (Layout.node_separation Layout.default_cfg)
    (Layout.level_separation Layout.default_cfg)
    (Layout.single_parent_empty_card Layout.default_cfg)
    (Layout.is_horizontal Layout.default_cfg) (Layout.one_level_rels Layout.default_cfg)
    (Layout.ancestry_depth Layout.default_cfg) (Layout.progeny_depth Layout.default_cfg).

(** The value returned for a missing or empty [data]. *)
Definition empty_result : Layout.result :=
  Layout.mkRes [] [] (Layout.mkDim 0 0 None) None None.

Module LayoutClaims.
Import Person Layout.

(** Claim C8: on the three-person graph focused on [C] with the default
    configuration, [CalculateTree] returns exactly three layout nodes:
    [C] at [(0, 0)], [A] at [(-node_separation/2, -level_separation)]
    and [B] at [(node_separation/2, -level_separation)]. *)
Theorem C8_three_person_layout (gen : nat -> string) :
  match CalculateTree gen 100 c8_cfg (Some c8_graph) with
  | Some r =>
      map (fun d => option_map id (ldata d)) (rdata r) = [Some "C"; Some "A"; Some "B"] /\
      match rdata r with
      | [c; a; b] =>
          (x c == 0 /\ y c == 0 /\
           x a == - node_separation c8_cfg / 2 /\ y a == - level_separation c8_cfg /\
           x b == node_separation c8_cfg / 2 /\ y b == - level_separation c8_cfg)%Q
      | _ => False
      end
  | None => False
  end.
Proof.
  vm_compute. split; [reflexivity|]. repeat split; reflexivity.
Qed.

(** Claim C9: when [data] is missing or empty, [CalculateTree] returns
    [{data: [], data_stash: [], dim: {width: 0, height: 0}, main_id: null}]
    and adds no person, whatever the configuration. *)
Theorem C9_empty_data (gen : nat -> string) (fuel : nat) (c : cfg) :
  CalculateTree gen fuel c None = Some empty_result /\
  CalculateTree gen fuel c (Some []) = Some empty_result /\
  rdata empty_result = [] /\ data_stash empty_result = [] /\
  dim empty_result = mkDim 0 0 None /\ rmain_id empty_result = None.
Proof. repeat split. Qed.

End LayoutClaims.

Module DupFacts.
Import Dup.

Lemma key_eqb_eq (a b : key) : key_eqb a b = true <-> a = b.
Proof.
  revert b; induction a as [|x a IH]; intros [|y b]; cbn; try (split; congruence).
  rewrite andb_true_iff, String.eqb_eq, IH. split; [intros [-> ->]; reflexivity|].
  intros H; injection H; auto.
Qed.

Lemma key_eqb_refl (a : key) : key_eqb a a = true.
Proof. apply key_eqb_eq; reflexivity. Qed.

Lemma key_eqb_neq (a b : key) : a <> b -> key_eqb a b = false.
Proof. intros H. destruct (key_eqb a b) eqn:E; [apply key_eqb_eq in E; congruence|reflexivity]. Qed.

Lemma lookup_set_same (s : store) k v : lookup (set s k v) k = Some v.
Proof. unfold lookup, set. cbn. rewrite key_eqb_refl. reflexivity. Qed.

Lemma find_filter_other (s : store) k k' :
  k' <> k ->
  find (fun kv => key_eqb (fst kv) k') (filter (fun kv => negb (key_eqb (fst kv) k)) s)
  = find (fun kv => key_eqb (fst kv) k') s.
Proof.
  intros Hne. induction s as [|[k0 v0] s IH]; cbn; [reflexivity|].
  destruct (key_eqb k0 k) eqn:E1; cbn.
  - apply key_eqb_eq in E1; subst k0. rewrite (key_eqb_neq k k') by congruence. exact IH.
  - destruct (key_eqb k0 k'); [reflexivity|exact IH].
Qed.

Lemma lookup_set_other (s : store) k k' v :
  k' <> k -> lookup (set s k v) k' = lookup s k'.
Proof.
  intros Hne. unfold lookup, set. cbn [find fst].
  rewrite (key_eqb_neq k k') by congruence. rewrite find_filter_other by exact Hne.
  reflexivity.
Qed.

Lemma lookup_nonzero (s : store) k v : nonzero s -> lookup s k = Some v -> v <> 0%Z.
Proof.
  unfold lookup, nonzero. intros HF H.
  destruct (find _ s) as [[k0 v0]|] eqn:E; cbn in H; [|discriminate].
  injection H as <-. apply find_some in E as [Hin _].
  rewrite Forall_forall in HF. exact (HF _ Hin).
Qed.

Lemma nonzero_set (s : store) k v : nonzero s -> v <> 0%Z -> nonzero (set s k v).
Proof.
  unfold nonzero, set. intros HF Hv. constructor; [exact Hv|].
  apply Forall_forall. intros x Hx. apply filter_In in Hx as [Hx _].
  rewrite Forall_forall in HF. auto.
Qed.

Lemma nonzero_remove (s : store) k : nonzero s -> nonzero (remove s k).
Proof.
  unfold nonzero, remove. intros HF.
  apply Forall_forall. intros x Hx. apply filter_In in Hx as [Hx _].
  rewrite Forall_forall in HF. auto.
Qed.

(** The indices zipped with the keys. *)
Lemma combine_seq_snd (ks : list key) a : map snd (combine (seq a (length ks)) ks) = ks.
Proof. revert a; induction ks as [|k ks IH]; intros a; cbn; [reflexivity|]. f_equal; apply IH. Qed.

Lemma combine_seq_fst (ks : list key) a :
  map fst (combine (seq a (length ks)) ks) = seq a (length ks).
Proof. revert a; induction ks as [|k ks IH]; intros a; cbn; [reflexivity|]. f_equal; apply IH. Qed.

(** The invariant of the first loop: each member read so far finds its
    value in its cell, and that value is not zero. *)
Definition reads (s : store) (ms : list member) : Prop :=
  forall m, In m ms -> lookup s (mkey m) = Some (val m) /\ val m <> 0%Z.

Lemma assign_anc_gen (l : list (nat * key)) s ms :
  NoDup (map mkey ms ++ map snd l) -> reads s ms ->
  let '(s', ms') := fold_left assign_anc_step l (s, ms) in
  map mkey ms' = (map mkey ms ++ map snd l)%list /\
  map pos ms' = (map pos ms ++ map fst l)%list /\ reads s' ms'.
Proof.
  revert s ms; induction l as [|[i k] l IH]; intros s ms Hnd Hr; cbn.
  - rewrite !app_nil_r. auto.
  - set (s1 := match lookup s k with
               | Some v => if Z.eqb v 0 then set s k (-1) else s
               | None => set s k (-1) end).
    assert (Hk : lookup s1 k <> None /\ forall v, lookup s1 k = Some v -> v <> 0%Z).
    { subst s1. destruct (lookup s k) as [v|] eqn:E.
      - destruct (Z.eqb_spec v 0).
        + rewrite lookup_set_same. split; [discriminate|]. intros v' [= <-]. lia.
        + rewrite E. split; [discriminate|]. intros v' [= <-]. exact n.
      - rewrite lookup_set_same. split; [discriminate|]. intros v' [= <-]. lia. }
    assert (Hnot : ~ In k (map mkey ms)).
    { intros Hin. apply NoDup_remove_2 in Hnd. apply Hnd. apply in_or_app; now left. }
    assert (Hs1 : forall k', k' <> k -> lookup s1 k' = lookup s k').
    { intros k' Hne. subst s1. destruct (lookup s k) as [v|]; [destruct (Z.eqb v 0)|];
        try reflexivity; apply lookup_set_other; exact Hne. }
    specialize (IH s1 (ms ++ [mkM i k (match lookup s1 k with Some v => v | None => 0%Z end)])%list).
    destruct (fold_left _ l _) as [s' ms'].
    rewrite !map_app in IH. cbn in IH. rewrite <- !app_assoc in IH. cbn in IH.
    apply IH; [exact Hnd|].
    intros m Hm. apply in_app_or in Hm as [Hm|[<-|[]]].
    + destruct (Hr m Hm) as [Hl Hv]. split; [|exact Hv].
      rewrite Hs1; [exact Hl|]. intros Heq. apply Hnot. rewrite <- Heq. now apply in_map.
    + cbn. destruct Hk as [Hk1 Hk2]. destruct (lookup s1 k) as [v|]; [|congruence].
      split; [reflexivity|]. now apply Hk2.
Qed.

Lemma assign_anc_spec (s : store) (ks : list key) :
  NoDup ks ->
  let '(s', ms) := assign_anc s ks in
  map mkey ms = ks /\ map pos ms = seq 0 (length ks) /\ reads s' ms.
Proof.
  intros Hnd. unfold assign_anc.
  pose proof (assign_anc_gen (combine (seq 0 (length ks)) ks) s []) as H.
  destruct (fold_left _ _ _) as [s' ms]. cbn in H.
  rewrite combine_seq_snd, combine_seq_fst in H. apply H; [exact Hnd|].
  intros m [].
Qed.


Lemma assign_prog_gen (l : list (nat * key)) s stash ms :
  NoDup (map mkey ms ++ map snd l) -> reads s ms -> nonzero s -> nonzero stash ->
  let '(s', _, ms') := fold_left assign_prog_step l (s, stash, ms) in
  map mkey ms' = (map mkey ms ++ map snd l)%list /\
  map pos ms' = (map pos ms ++ map fst l)%list /\ reads s' ms'.
Proof.
  revert s stash ms; induction l as [|[i k] l IH]; intros s stash ms Hnd Hr Hz Hzs; cbn.
  - rewrite !app_nil_r. auto.
  - assert (Hnot : ~ In k (map mkey ms)).
    { intros Hin. apply NoDup_remove_2 in Hnd. apply Hnd. apply in_or_app; now left. }
    assert (Hkeep : forall s0, (forall k', k' <> k -> lookup s0 k' = lookup s k') ->
                    reads s0 ms).
    { intros s0 Hs0 m Hm. destruct (Hr m Hm) as [Hl Hv]. split; [|exact Hv].
      rewrite Hs0; [exact Hl|]. intros Heq. apply Hnot. rewrite <- Heq. now apply in_map. }
    assert (Hpush : forall s0 v, nonzero s0 -> reads s0 ms -> lookup s0 k = Some v ->
                    v <> 0%Z -> reads s0 (ms ++ [mkM i k v])%list).
    { intros s0 v _ Hr0 Hl Hv m Hm. apply in_app_or in Hm as [Hm|[<-|[]]]; [now apply Hr0|].
      cbn. auto. }
    destruct (lookup stash k) as [v0|] eqn:Est.
    + pose proof (lookup_nonzero stash k v0 Hzs Est) as Hv0.
      pose proof (nonzero_set s k v0 Hz Hv0) as Hz1.
      pose proof (Hkeep (set s k v0) (fun k' Hne => lookup_set_other s k k' v0 Hne)) as Hr1.
      rewrite lookup_set_same.
      specialize (IH (set s k v0) (remove stash k) (ms ++ [mkM i k v0])%list).
      destruct (fold_left _ l _) as [[s' st'] ms'].
      rewrite !map_app in IH. cbn in IH. rewrite <- !app_assoc in IH. cbn in IH.
      apply IH; [exact Hnd| |exact Hz1|now apply nonzero_remove].
      apply Hpush; [exact Hz1|exact Hr1|apply lookup_set_same|exact Hv0].
    + destruct (lookup s k) as [v|] eqn:Es.
      * specialize (IH s stash (ms ++ [mkM i k v])%list).
        destruct (fold_left _ l _) as [[s' st'] ms'].
        rewrite !map_app in IH. cbn in IH. rewrite <- !app_assoc in IH. cbn in IH.
        apply IH; [exact Hnd| |exact Hz|exact Hzs].
        apply Hpush; [exact Hz|exact Hr|exact Es|exact (lookup_nonzero s k v Hz Es)].
      * assert (Hz1 : nonzero (set s k 1)) by (apply nonzero_set; [exact Hz|lia]).
        pose proof (Hkeep (set s k 1) (fun k' Hne => lookup_set_other s k k' 1 Hne)) as Hr1.
        specialize (IH (set s k 1) stash (ms ++ [mkM i k 1])%list).
        destruct (fold_left _ l _) as [[s' st'] ms'].
        rewrite !map_app in IH. cbn in IH. rewrite <- !app_assoc in IH. cbn in IH.
        apply IH; [exact Hnd| |exact Hz1|exact Hzs].
        apply Hpush; [exact Hz1|exact Hr1|apply lookup_set_same|lia].
Qed.

Lemma assign_prog_spec (s stash : store) (ks : list key) :
  NoDup ks -> nonzero s -> nonzero stash ->
  let '(s', _, ms) := assign_prog s stash ks in
  map mkey ms = ks /\ map pos ms = seq 0 (length ks) /\ reads s' ms.
Proof.
  intros Hnd Hz Hzs. unfold assign_prog.
  pose proof (assign_prog_gen (combine (seq 0 (length ks)) ks) s stash []) as H.
  destruct (fold_left _ _ _) as [[s' st'] ms]. cbn in H.
  rewrite combine_seq_snd, combine_seq_fst in H. apply H; [exact Hnd| |exact Hz|exact Hzs].
  intros m [].
Qed.

(** The sort: a permutation whose head is the first member holding the
    greatest value. *)
Lemma insert_by_perm (c : member -> member -> Z) x l :
  Permutation (Layout.insert_by c x l) (x :: l).
Proof.
  induction l as [|y l IH]; cbn; [reflexivity|].
  destruct (Z.leb (c y x) 0); [|reflexivity].
  rewrite IH. apply perm_swap.
Qed.

Lemma sort_fold_perm (c : member -> member -> Z) l acc :
  Permutation (fold_left (fun acc x => Layout.insert_by c x acc) l acc) (l ++ acc)%list.
Proof.
  revert acc; induction l as [|x l IH]; intros acc; cbn; [reflexivity|].
  rewrite IH, insert_by_perm. symmetry. apply Permutation_middle.
Qed.

Lemma sort_desc_perm (ms : list member) : Permutation (sort_desc ms) ms.
Proof.
  unfold sort_desc, Layout.sort_by. rewrite sort_fold_perm. now rewrite app_nil_r.
Qed.

Definition best (o : option member) (x : member) : option member :=
  match o with
  | None => Some x
  | Some b => Some (if Z.leb (val x - val b) 0 then b else x)
  end.

Lemma hd_insert_by x l :
  hd_error (Layout.insert_by (fun a b => (val b - val a)%Z) x l) = best (hd_error l) x.
Proof. destruct l as [|y l]; cbn; [reflexivity|]. destruct (Z.leb _ 0); reflexivity. Qed.

Lemma hd_sort_fold l acc :
  hd_error (fold_left (fun acc x => Layout.insert_by (fun a b => (val b - val a)%Z) x acc) l acc)
  = fold_left best l (hd_error acc).
Proof.
  revert acc; induction l as [|x l IH]; intros acc; cbn; [reflexivity|].
  rewrite IH, hd_insert_by. reflexivity.
Qed.

Lemma fold_best (l : list member) (b : member) :
  exists w, fold_left best l (Some b) = Some w /\
  ((w = b /\ Forall (fun m => val m <= val b)%Z l) \/
   ((val b < val w)%Z /\ exists pre post, l = (pre ++ w :: post)%list /\
      Forall (fun m => val m < val w)%Z pre /\ Forall (fun m => val m <= val w)%Z post)).
Proof.
  revert b; induction l as [|x l IH]; intros b; cbn.
  - exists b. split; [reflexivity|]. left; auto.
  - destruct (Z.leb_spec (val x - val b) 0) as [Hle|Hgt].
    + destruct (IH b) as (w & Hw & [[Hwb Hall]|(Hlt & pre & post & -> & Hpre & Hpost)]);
        exists w; split; try exact Hw.
      * left. split; [exact Hwb|]. constructor; [lia|exact Hall].
      * right. split; [exact Hlt|]. exists (x :: pre), post. split; [reflexivity|].
        split; [constructor; [lia|exact Hpre]|exact Hpost].
    + destruct (IH x) as (w & Hw & [[Hwx Hall]|(Hlt & pre & post & -> & Hpre & Hpost)]);
        exists w; split; try exact Hw.
      * subst w. right. split; [lia|]. exists [], l. auto.
      * right. split; [lia|]. exists (x :: pre), post. split; [reflexivity|].
        split; [constructor; [lia|exact Hpre]|exact Hpost].
Qed.

Lemma sort_desc_head (ms : list member) :
  ms <> [] ->
  exists pre w post, hd_error (sort_desc ms) = Some w /\ ms = (pre ++ w :: post)%list /\
    Forall (fun m => val m < val w)%Z pre /\ Forall (fun m => val m <= val w)%Z post.
Proof.
  destruct ms as [|m0 rest]; [congruence|]. intros _.
  unfold sort_desc, Layout.sort_by. rewrite hd_sort_fold. cbn.
  destruct (fold_best rest m0) as (w & Hw & [[Hwm Hall]|(Hlt & pre & post & -> & Hpre & Hpost)]).
  - subst w. exists [], m0, rest. rewrite Hw. auto.
  - exists (m0 :: pre), w, post. rewrite Hw. split; [reflexivity|].
    split; [reflexivity|]. split; [constructor; [lia|exact Hpre]|exact Hpost].
Qed.

Lemma NoDup_map_inj {A B} (f : A -> B) (l : list A) x y :
  NoDup (map f l) -> In x l -> In y l -> f x = f y -> x = y.
Proof.
  induction l as [|a l IH]; intros Hnd Hx Hy Hf; [destruct Hx|].
  cbn in Hnd. inversion Hnd as [|? ? Hnotin Hnd']; subst.
  destruct Hx as [<-|Hx], Hy as [<-|Hy]; auto.
  - exfalso. apply Hnotin. rewrite Hf. now apply in_map.
  - exfalso. apply Hnotin. rewrite <- Hf. now apply in_map.
Qed.

Lemma filter_none {A} (p : A -> bool) l : (forall x, In x l -> p x = false) -> filter p l = [].
Proof.
  induction l as [|a l IH]; intros H; cbn; [reflexivity|].
  rewrite (H a (or_introl eq_refl)). apply IH. intros x Hx. apply H. now right.
Qed.

Lemma two_in_filter {A} (p : A -> bool) l a b :
  NoDup l -> In a l -> In b l -> a <> b -> p a = true -> p b = true ->
  1 < length (filter p l).
Proof.
  intros Hnd Ha Hb Hab Hpa Hpb.
  assert (Hincl : incl [a; b] (filter p l)).
  { intros x [<-|[<-|[]]]; apply filter_In; auto. }
  apply NoDup_incl_length in Hincl; [cbn in Hincl; lia|].
  constructor; [intros [Hba|[]]; congruence|]. constructor; [intros []|constructor].
Qed.

Lemma forallb_false {A} (p : A -> bool) l : forallb p l = false -> exists x, In x l /\ p x = false.
Proof.
  induction l as [|a l IH]; cbn; [discriminate|].
  destruct (p a) eqn:E; cbn.
  - intros H. destruct (IH H) as (x & Hx & Hp). exists x. auto.
  - intros _. exists a. auto.
Qed.

Lemma map_true {A} (f : A -> bool) l : (forall x, In x l -> f x = true) -> map f l = repeat true (length l).
Proof.
  induction l as [|a l IH]; intros H; cbn; [reflexivity|].
  rewrite (H a (or_introl eq_refl)). f_equal. apply IH. intros x Hx. apply H. now right.
Qed.

Lemma lookup_close_fold (w : member) (L : list member) (s : store) k :
  lookup (fold_left (close_step w) L s) k =
  if existsb (fun m => key_eqb (mkey m) k && negb (Nat.eqb (pos m) (pos w))) L
  then Some (-1)%Z else lookup s k.
Proof.
  revert s; induction L as [|m L IH]; intros s; cbn; [reflexivity|].
  rewrite IH. destruct (existsb _ L); [now rewrite orb_true_r|rewrite orb_false_r].
  unfold close_step. destruct (Nat.eqb (pos m) (pos w)); cbn; [now rewrite andb_false_r|].
  rewrite andb_true_r. destruct (key_eqb (mkey m) k) eqn:E.
  - apply key_eqb_eq in E. subst k. apply lookup_set_same.
  - apply lookup_set_other. intros Heq. subst k. rewrite key_eqb_refl in E. discriminate.
Qed.

(** One group: the member the sort puts first is the only one whose cell
    is not negative afterwards. *)
Lemma close_others_spec (s : store) (ms : list member) :
  ms <> [] -> NoDup (map mkey ms) -> NoDup (map pos ms) -> reads s ms ->
  exists pre w post, ms = (pre ++ w :: post)%list /\
    Forall (fun m => val m < val w)%Z pre /\ Forall (fun m => val m <= val w)%Z post /\
    toggled_off (close_others s ms) ms
    = (repeat true (length pre) ++ false :: repeat true (length post))%list.
Proof.
  intros Hne Hkeys Hpos Hr.
  destruct (sort_desc_head ms Hne) as (pre & w & post & Hhd & Hms & Hpre & Hpost).
  exists pre, w, post. split; [exact Hms|]. split; [exact Hpre|]. split; [exact Hpost|].
  assert (Hw : In w ms) by (rewrite Hms; apply in_or_app; right; now left).
  assert (Hmax : forall m, In m ms -> (val m <= val w)%Z).
  { intros m Hm. rewrite Hms in Hm. apply in_app_or in Hm as [Hm|[<-|Hm]].
    - rewrite Forall_forall in Hpre. specialize (Hpre m Hm). lia.
    - lia.
    - rewrite Forall_forall in Hpost. auto. }
  assert (Hkinj : forall m, In m ms -> mkey m = mkey w -> m = w)
    by (intros m Hm; apply (NoDup_map_inj mkey ms m w Hkeys Hm Hw)).
  assert (Hpinj : forall m, In m ms -> pos m = pos w -> m = w)
    by (intros m Hm; apply (NoDup_map_inj pos ms m w Hpos Hm Hw)).
  destruct (sort_desc ms) as [|w' rest] eqn:Hsort; [discriminate|].
  cbn in Hhd. injection Hhd as ->.
  assert (Hin_sorted : forall m, In m (w :: rest) <-> In m ms).
  { intros m. rewrite <- Hsort. split; apply Permutation_in;
      [apply sort_desc_perm|symmetry; apply sort_desc_perm]. }
  (* the cell of each member after the branch *)
  assert (G : forall m, In m ms ->
            exists v, lookup (close_others s ms) (mkey m) = Some v /\
                      (if Nat.eqb (pos m) (pos w) then (0 < v)%Z else (v < 0)%Z)).
  { unfold close_others. rewrite Hsort.
    destruct (forallb (fun m => Z.ltb (val m) 0) ms) eqn:Hall.
    - rewrite forallb_forall in Hall.
      rewrite filter_none.
      2: { intros x Hx. apply Hin_sorted in Hx. specialize (Hall x Hx).
           apply Z.ltb_lt in Hall. apply Z.ltb_ge. lia. }
      cbn. intros m Hm. destruct (Nat.eqb_spec (pos m) (pos w)) as [Hp|Hp].
      + rewrite (Hpinj m Hm Hp). exists 1%Z. split; [apply lookup_set_same|lia].
      + exists (val m). split.
        * rewrite lookup_set_other; [apply Hr, Hm|].
          intros Hk. apply Hp. now rewrite (Hkinj m Hm Hk).
        * specialize (Hall m Hm). now apply Z.ltb_lt in Hall.
    - destruct (forallb_false _ _ Hall) as (m0 & Hm0 & Hp0).
      apply Z.ltb_ge in Hp0. cbv beta iota.
      assert (Hw0 : (0 < val w)%Z).
      { destruct (Hr m0 Hm0) as [_ Hz]. specialize (Hmax m0 Hm0). lia. }
      destruct (Nat.ltb_spec 1 (length (filter (fun m => Z.ltb 0 (val m)) ms))) as [Hgt|Hle].
      + intros m Hm. rewrite Hsort, lookup_close_fold.
        destruct (Nat.eqb_spec (pos m) (pos w)) as [Hp|Hp].
        * rewrite (Hpinj m Hm Hp).
          replace (existsb _ (w :: rest)) with false.
          -- exists (val w). split; [apply Hr, Hw|exact Hw0].
          -- symmetry. apply not_true_iff_false. intros Hex.
             apply existsb_exists in Hex as (x & Hx & Hxk).
             apply andb_true_iff in Hxk as [Hk Hxp]. apply key_eqb_eq in Hk.
             apply Hin_sorted in Hx. rewrite (Hkinj x Hx Hk) in Hxp.
             rewrite Nat.eqb_refl in Hxp. discriminate.
        * replace (existsb _ (w :: rest)) with true.
          -- exists (-1)%Z. split; [reflexivity|lia].
          -- symmetry. apply existsb_exists. exists m. split; [now apply Hin_sorted|].
             rewrite key_eqb_refl. cbn. now destruct (Nat.eqb_spec (pos m) (pos w)).
      + intros m Hm. exists (val m). split; [apply Hr, Hm|].
        destruct (Nat.eqb_spec (pos m) (pos w)) as [Hp|Hp].
        * rewrite (Hpinj m Hm Hp). exact Hw0.
        * destruct (Hr m Hm) as [_ Hz].
          destruct (Z.ltb_spec 0 (val m)) as [Hpos'|Hneg]; [|lia].
          exfalso. assert (Hmw : m <> w) by (intros ->; apply Hp; reflexivity).
          pose proof (two_in_filter (fun m => Z.ltb 0 (val m)) ms m w
                        (NoDup_map_inv pos ms Hpos) Hm Hw Hmw) as H2.
          cbn in H2. rewrite (proj2 (Z.ltb_lt 0 (val m)) Hpos'),
                            (proj2 (Z.ltb_lt 0 (val w)) Hw0) in H2.
          specialize (H2 eq_refl eq_refl). lia. }
  assert (Hmap : toggled_off (close_others s ms) ms = map (fun m => negb (Nat.eqb (pos m) (pos w))) ms).
  { unfold toggled_off. apply map_ext_in. intros m Hm.
    destruct (G m Hm) as (v & -> & Hv).
    destruct (Nat.eqb (pos m) (pos w)); cbn.
    - apply Z.ltb_ge. lia.
    - apply Z.ltb_lt. exact Hv. }
  rewrite Hmap. rewrite Hms in Hpos |- *. rewrite map_app in Hpos. cbn in Hpos.
  apply NoDup_remove_2 in Hpos.
  rewrite map_app. cbn. rewrite Nat.eqb_refl. cbn.
  rewrite !map_true; [reflexivity| |];
    intros x Hx; destruct (Nat.eqb_spec (pos x) (pos w)) as [He|]; try reflexivity;
    exfalso; apply Hpos; rewrite <- He; apply in_or_app; [right|left]; now apply in_map.
Qed.
End DupFacts.

(** Cousins marrying: [M0]'s parents are [P] and [Q]; [P]'s father [X]
    and [Q]'s grandfather [Z] are full brothers (children of [G] and
    [H]), and [Q]'s other grandfather [Y] is their half-brother, with
    the father [G] only. [G]'s gender is not set, so [createRelsToAdd]
    adds no placeholder mother for [Y]. *)
Definition dup_cousins : list Person.person :=
  [mk "M0" "M" (Person.mkRels (Some "P") (Some "Q") None None);
   mk "P" "M" (Person.mkRels (Some "X") (Some "Pm") (Some ["Q"]) (Some ["M0"]));
   mk "Q" "F" (Person.mkRels (Some "Qf") (Some "Qm") (Some ["P"]) (Some ["M0"]));
   mk "X" "M" (Person.mkRels (Some "G") (Some "H") (Some ["Pm"]) (Some ["P"]));
   mk "Pm" "F" (Person.mkRels None None (Some ["X"]) (Some ["P"]));
   mk "Qf" "M" (Person.mkRels (Some "Z") (Some "Qfm") (Some ["Qm"]) (Some ["Q"]));
   mk "Qm" "F" (Person.mkRels (Some "Y") (Some "Qmm") (Some ["Qf"]) (Some ["Q"]));
   mk "Z" "M" (Person.mkRels (Some "G") (Some "H") (Some ["Qfm"]) (Some ["Qf"]));
   mk "Qfm" "F" (Person.mkRels None None (Some ["Z"]) (Some ["Qf"]));
   mk "Y" "M" (Person.mkRels (Some "G") None (Some ["Qmm"]) (Some ["Qm"]));
   mk "Qmm" "F" (Person.mkRels None None (Some ["Y"]) (Some ["Qm"]));
   Person.mkPerson "G" [] (Person.mkRels None None (Some ["H"]) (Some ["X"; "Z"; "Y"])) None false false;
   mk "H" "F" (Person.mkRels None None (Some ["G"]) (Some ["X"; "Z"]))].

(** A group of three with two open members, and the same group on the
    progeny side. *)
Definition dup_cells3 : Dup.store :=
  [(["A"; "c1"], 1760000000000%Z); (["A"; "c2"], 1760000005000%Z); (["A"; "c3"], (-1)%Z)].

Definition dup_group3 : list Dup.key := [["A"; "c1"]; ["A"; "c2"]; ["A"; "c3"]].

Module DupClaims.
Import Dup.

(** C2 (code bug).  Two layouts of [dup_cousins] with the default
    options and [duplicate_branch_toggle].  In the first, [X] (node 2)
    and [Z] (node 8) form a group and [X] is opened; [Y] (node 13), whose
    one parent [G] is among [X]'s parents, forms a second group with [X],
    and stays closed.  The user then opens [Y].  In the second layout the
    group of [Y] keeps [Y], its newest value, and closes [X], so the group
    of [X] and [Z] is left with no member showing its parents. *)
Example C2_group_left_collapsed :
  match DupTree.ancestryLayout gen_sp 0 true None dup_cousins [] with
  | Some (ds1, n1, s1) =>
      DupTree.groups_persons s1 = [["X"; "Z"]; ["Y"; "X"]] /\
      DupTree.groups_open s1 = [[true; false]; [false; true]] /\
      match DupTree.ancestryLayout gen_sp n1 true None ds1
              (DupTree.toggle_click (DupTree.cells s1) ["Y"; "Qm"] 1760000000000%Z) with
      | Some (_, _, s2) =>
          DupTree.groups_persons s2 = [["X"; "Z"]; ["Y"; "X"]] /\
          DupTree.groups_open s2 = [[false; false]; [true; false]]
      | None => False
      end
  | None => False
  end.
Proof. vm_compute. auto. Qed.

(** One duplicate group whose members use distinct toggle cells, on the
    ancestry side and on the progeny side (where the stored and stashed
    values are non-zero): exactly one member keeps its children after
    [assignDuplicateValues] and [handleToggleOff] with
    [on_toggle_one_close_others], the first member holding the greatest
    toggle value. Every member before it has a smaller value, every
    member after it a value no greater, and all other members lose their
    children. *)
Theorem group_one_expanded (s stash : store) (ks : list key) :
  ks <> [] -> NoDup ks ->
  (let '(s', ms) := resolve_anc s ks in
   map mkey ms = ks /\
   exists pre w post, ms = (pre ++ w :: post)%list /\
     Forall (fun m => val m < val w)%Z pre /\ Forall (fun m => val m <= val w)%Z post /\
     toggled_off s' ms = (repeat true (length pre) ++ false :: repeat true (length post))%list) /\
  (nonzero s -> nonzero stash ->
   let '(s', ms) := resolve_prog s stash ks in
   map mkey ms = ks /\
   exists pre w post, ms = (pre ++ w :: post)%list /\
     Forall (fun m => val m < val w)%Z pre /\ Forall (fun m => val m <= val w)%Z post /\
     toggled_off s' ms = (repeat true (length pre) ++ false :: repeat true (length post))%list).
Proof.
  intros Hne Hnd. split.
  - unfold resolve_anc. pose proof (DupFacts.assign_anc_spec s ks Hnd) as H.
    destruct (assign_anc s ks) as [s1 ms]. destruct H as (Hk & Hp & Hr).
    split; [exact Hk|].
    apply DupFacts.close_others_spec; [| rewrite Hk; exact Hnd | rewrite Hp; apply seq_NoDup | exact Hr].
    intros ->. cbn in Hk. subst ks. congruence.
  - intros Hz Hzs. unfold resolve_prog.
    pose proof (DupFacts.assign_prog_spec s stash ks Hnd Hz Hzs) as H.
    destruct (assign_prog s stash ks) as [[s1 st1] ms]. destruct H as (Hk & Hp & Hr).
    split; [exact Hk|].
    apply DupFacts.close_others_spec; [| rewrite Hk; exact Hnd | rewrite Hp; apply seq_NoDup | exact Hr].
    intros ->. cbn in Hk. subst ks. congruence.
Qed.

Lemma group_one_expanded_witness :
  (let '(s', ms) := resolve_anc dup_cells3 dup_group3 in
   map mkey ms = dup_group3 /\
   exists pre w post, ms = (pre ++ w :: post)%list /\
     Forall (fun m => val m < val w)%Z pre /\ Forall (fun m => val m <= val w)%Z post /\
     toggled_off s' ms = (repeat true (length pre) ++ false :: repeat true (length post))%list) /\
  (let '(s', ms) := resolve_prog dup_cells3 [] dup_group3 in
   map mkey ms = dup_group3 /\
   exists pre w post, ms = (pre ++ w :: post)%list /\
     Forall (fun m => val m < val w)%Z pre /\ Forall (fun m => val m <= val w)%Z post /\
     toggled_off s' ms = (repeat true (length pre) ++ false :: repeat true (length post))%list).
Proof.
  destruct (group_one_expanded dup_cells3 [] dup_group3) as [Ha Hp].
  - discriminate.
  - unfold dup_group3. repeat constructor; cbn; intuition discriminate.
  - split; [exact Ha|]. apply Hp.
    + unfold nonzero, dup_cells3. repeat constructor; cbn; discriminate.
    + constructor.
Defined.

End DupClaims.

(* ------------------------------------------------------------------ *)
(** ** Properties of the store's fallback focus *)

Module StoreMainFacts.
Import Person StoreMain.

Lemma find_app {A} (f : A -> bool) l1 l2 :
  find f (l1 ++ l2) = match find f l1 with Some x => Some x | None => find f l2 end.
Proof. induction l1 as [|a l1 IH]; cbn; [reflexivity|]. destruct (f a); [reflexivity|exact IH]. Qed.

Lemma find_none_Forall {A} (f : A -> bool) l :
  Forall (fun x => f x = false) l -> find f l = None.
Proof. induction 1 as [|a l Ha _ IH]; cbn; [reflexivity|]. now rewrite Ha. Qed.

Lemma find_person_first d ds : find_person (d :: ds) (id d) = Some d.
Proof. unfold find_person. cbn. now rewrite String.eqb_refl. Qed.

Lemma has_datum_In ds x :
  has_datum ds x = true -> exists p, find_person ds x = Some p /\ In p ds /\ id p = x.
Proof.
  unfold has_datum. destruct (find_person ds x) as [p|] eqn:E; [|discriminate]. intros _.
  exists p. split; [reflexivity|]. unfold find_person in E.
  apply find_some in E as [Hin Heq]. apply String.eqb_eq in Heq. auto.
Qed.

(** The latest history entry that names a person is the one found. *)
Lemma find_rev_last (f : string -> bool) h1 m h2 :
  f m = true -> Forall (fun x => f x = false) h2 -> find f (rev (h1 ++ m :: h2)) = Some m.
Proof.
  intros Hm Hh2. rewrite rev_app_distr. cbn. rewrite <- app_assoc, find_app.
  rewrite (find_none_Forall f (rev h2)); [cbn; now rewrite Hm|].
  apply Forall_rev. exact Hh2.
Qed.

Lemma opt_eqb_some m o : Sep.opt_eqb (Some m) o = true -> o = Some m.
Proof. destruct o; cbn; [intros H; apply String.eqb_eq in H; now subst|discriminate]. Qed.

Lemma updateMainId_main m s : Store.main_id (Store.updateMainId m s) = Some m.
Proof.
  unfold Store.updateMainId. destruct (Store.main_id s) as [m'|] eqn:E; [|reflexivity].
  destruct (String.eqb_spec m m'); [subst; exact E|reflexivity].
Qed.

Lemma focus_set m s :
  Store.main_id (if negb (Sep.opt_eqb (Some m) (Store.main_id s)) then Store.updateMainId m s else s)
  = Some m.
Proof.
  destruct (Sep.opt_eqb (Some m) (Store.main_id s)) eqn:E; cbn.
  - now apply opt_eqb_some.
  - apply updateMainId_main.
Qed.

End StoreMainFacts.

(* ------------------------------------------------------------------ *)
(** ** Properties of the undo history *)

Module HistoryFacts.
Import Person History.

(** The index points into the saved copies, or is [-1] while none is
    saved. *)
Definition Inv (h : hist) : Prop :=
  (entries h = [] /\ index h = (-1)%Z) \/
  (0 <= index h < Z.of_nat (length (entries h)))%Z.

Lemma changed_shape c st h :
  Inv h ->
  entries (changed c st h) = (firstn (Z.to_nat (index h + 1)) (entries h) ++ [mkSnap c (smain st)])%list /\
  index (changed c st h) = (index h + 1)%Z /\
  length (firstn (Z.to_nat (index h + 1)) (entries h)) = Z.to_nat (index h + 1).
Proof.
  intros [[He Hi]|Hr]; unfold changed; cbn.
  - rewrite He, Hi. cbn. auto.
  - destruct (Z.ltb_spec (index h) (Z.of_nat (length (entries h)) - 1)) as [Hlt|Hge].
    + split; [reflexivity|]. split; [reflexivity|]. rewrite length_firstn. lia.
    + replace (Z.to_nat (index h + 1)) with (length (entries h)) by lia.
      rewrite firstn_all. auto.
Qed.

Lemma step_Inv hs o : Inv (fst hs) -> Inv (fst (step hs o)).
Proof.
  destruct hs as [h st]. cbn. intros HI. destruct o as [c| | |st']; cbn.
  - destruct (changed_shape c st h HI) as (He & Hi & Hl). right.
    rewrite He, Hi, length_app, Hl. cbn.
    destruct HI as [[_ Hi0]|Hr]; rewrite ?Hi0; lia.
  - unfold back. destruct (canBack h) eqn:E; cbn; [|exact HI].
    unfold canBack in E. apply Z.ltb_lt in E. right. cbn.
    destruct HI as [[_ Hi0]|Hr]; lia.
  - unfold forward. destruct (canForward h) eqn:E; cbn; [|exact HI].
    unfold canForward in E. apply Z.ltb_lt in E. right. cbn.
    destruct HI as [[He Hi0]|Hr]; [rewrite He in E; cbn in E; lia|lia].
  - exact HI.
Qed.

Lemma run_Inv os hs : Inv (fst hs) -> Inv (fst (run os hs)).
Proof.
  revert hs; induction os as [|o os IH]; intros hs H; cbn; [exact H|].
  apply IH, step_Inv, H.
Qed.

Lemma existsb_json (f : person -> bool) l :
  (forall p, f (json_person p) = f p) -> existsb f (map json_person l) = existsb f l.
Proof.
  intros Hf. induction l as [|p l IH]; cbn; [reflexivity|]. now rewrite Hf, IH.
Qed.

End HistoryFacts.

Module FitFacts.
Import Layout Fit.
Local Open Scope Q_scope.

Lemma qmin_fold_le (l : list Q) (a : Q) :
  fold_left (fun m v => if Qle_bool v m then v else m) l a <= a /\
  forall v, In v l -> fold_left (fun m v => if Qle_bool v m then v else m) l a <= v.
Proof.
  revert a; induction l as [|b l IH]; intros a; cbn.
  - split; [apply Qle_refl|intros v []].
  - destruct (Qle_bool b a) eqn:E.
    + apply Qle_bool_iff in E. destruct (IH b) as [H1 H2]. split; [lra|].
      intros v [<-|Hv]; [exact H1|auto].
    + assert (a < b) by (apply Qnot_le_lt; intros Hle; apply Qle_bool_iff in Hle; congruence).
      destruct (IH a) as [H1 H2]. split; [exact H1|].
      intros v [<-|Hv]; [lra|auto].
Qed.

Lemma qmax_fold_ge (l : list Q) (a : Q) :
  a <= fold_left (fun m v => if Qle_bool m v then v else m) l a /\
  forall v, In v l -> v <= fold_left (fun m v => if Qle_bool m v then v else m) l a.
Proof.
  revert a; induction l as [|b l IH]; intros a; cbn.
  - split; [apply Qle_refl|intros v []].
  - destruct (Qle_bool a b) eqn:E.
    + apply Qle_bool_iff in E. destruct (IH b) as [H1 H2]. split; [lra|].
      intros v [<-|Hv]; [exact H1|auto].
    + assert (b < a) by (apply Qnot_le_lt; intros Hle; apply Qle_bool_iff in Hle; congruence).
      destruct (IH a) as [H1 H2]. split; [exact H1|].
      intros v [<-|Hv]; [lra|auto].
Qed.

Lemma qmin_le (l : list Q) v : In v l -> qmin l <= v.
Proof.
  destruct l as [|a l]; [intros []|]. cbn. destruct (qmin_fold_le l a) as [H1 H2].
  intros [<-|Hv]; auto.
Qed.

Lemma qmax_ge (l : list Q) v : In v l -> v <= qmax l.
Proof.
  destruct l as [|a l]; [intros []|]. cbn. destruct (qmax_fold_ge l a) as [H1 H2].
  intros [<-|Hv]; auto.
Qed.

(** The scale chosen by [calculateTreeFit]. *)
Lemma fit_scale (sw sh tw th : Q) :
  0 < sw -> 0 < sh -> 0 < tw -> 0 < th ->
  let k := qmin2 (sw / tw) (sh / th) in
  let k := if D3.Qlt_bool 1 k then 1 else k in
  0 < k /\ k <= 1 /\ k * tw <= sw /\ k * th <= sh /\
  (k == 1 \/ k * tw == sw \/ k * th == sh).
Proof.
  intros Hsw Hsh Htw Hth.
  assert (Ha : (sw / tw) * tw == sw) by (field; lra).
  assert (Hb : (sh / th) * th == sh) by (field; lra).
  assert (Ha0 : 0 < sw / tw) by (apply Qlt_shift_div_l; lra).
  assert (Hb0 : 0 < sh / th) by (apply Qlt_shift_div_l; lra).
  unfold qmin2. destruct (Qle_bool (sw / tw) (sh / th)) eqn:E.
  - apply Qle_bool_iff in E.
    assert (Hk : (sw / tw) * th <= sh) by (rewrite <- Hb; apply Qmult_le_compat_r; lra).
    unfold D3.Qlt_bool. destruct (Qle_bool (sw / tw) 1) eqn:E1; cbn.
    + apply Qle_bool_iff in E1. repeat split; try lra; try (right; left; exact Ha).
    + assert (1 < sw / tw) by (apply Qnot_le_lt; intros Hle; apply Qle_bool_iff in Hle; congruence).
      assert (1 * tw <= (sw / tw) * tw) by (apply Qmult_le_compat_r; lra).
      assert (1 * th <= (sw / tw) * th) by (apply Qmult_le_compat_r; lra).
      repeat split; try lra.
  - assert (E' : sh / th < sw / tw)
      by (apply Qnot_le_lt; intros Hle; apply Qle_bool_iff in Hle; congruence).
    assert (Hk : (sh / th) * tw <= sw) by (rewrite <- Ha; apply Qmult_le_compat_r; lra).
    unfold D3.Qlt_bool. destruct (Qle_bool (sh / th) 1) eqn:E1; cbn.
    + apply Qle_bool_iff in E1. repeat split; try lra; try (right; right; exact Hb).
    + assert (1 < sh / th) by (apply Qnot_le_lt; intros Hle; apply Qle_bool_iff in Hle; congruence).
      assert (1 * tw <= (sh / th) * tw) by (apply Qmult_le_compat_r; lra).
      assert (1 * th <= (sh / th) * th) by (apply Qmult_le_compat_r; lra).
      repeat split; try lra.
Qed.

Lemma fit_center (k tw sw xo : Q) :
  ~ k == 0 -> k * (xo + (sw - tw * k) / k / 2) == k * xo + (sw - tw * k) / 2.
Proof. intros Hk. field. exact Hk. Qed.

End FitFacts.

Module DelayFacts.
Import Layout Fit.
Local Open Scope Q_scope.

Lemma fold_max_ge (l : list nat) (a : nat) :
  (a <= fold_left Nat.max l a)%nat /\ forall v, In v l -> (v <= fold_left Nat.max l a)%nat.
Proof.
  revert a; induction l as [|b l IH]; intros a; cbn.
  - split; [lia|intros v []].
  - destruct (IH (Nat.max a b)) as [H1 H2]. split; [lia|].
    intros v [<-|Hv]; [lia|auto].
Qed.

Lemma qn_le (n m : nat) : (n <= m)%nat -> inject_Z (Z.of_nat n) <= inject_Z (Z.of_nat m).
Proof. intros H. rewrite <- Zle_Qle. lia. Qed.

Lemma qn_nonneg (n : nat) : 0 <= inject_Z (Z.of_nat n).
Proof. change 0 with (inject_Z 0). rewrite <- Zle_Qle. lia. Qed.

End DelayFacts.

Module StoreMainExtra.
Import Person StoreMain StoreMainFacts.

(** [getLastAvailableMainDatum] throws on empty data. On non-empty data
    it returns a person of the data and makes it the focus. That person
    is the one named by the latest history entry that names a person of
    the data (when that entry is not the empty string), and the first
    person of the data when no history entry names one. *)
Theorem getLastAvailableMainDatum_spec (s : Store.state) (d0 : person) (ds0 : list person) :
  getLastAvailableMainDatum [] s = None /\
  exists p s', getLastAvailableMainDatum (d0 :: ds0) s = Some (Some p, s') /\
    In p (d0 :: ds0) /\ Store.main_id s' = Some (id p) /\
    (forall h1 m h2, Store.main_id_history s = (h1 ++ m :: h2)%list ->
       has_datum (d0 :: ds0) m = true -> m <> "" ->
       Forall (fun x => has_datum (d0 :: ds0) x = false) h2 -> id p = m) /\
    (Forall (fun x => has_datum (d0 :: ds0) x = false) (Store.main_id_history s) -> p = d0).
Proof.
  split.
  - unfold getLastAvailableMainDatum.
    rewrite find_none_Forall; [reflexivity|].
    apply Forall_forall. intros x _. reflexivity.
  - unfold getLastAvailableMainDatum.
    destruct (find (has_datum (d0 :: ds0)) (rev (Store.main_id_history s))) as [m|] eqn:F.
    + pose proof F as F'. apply find_some in F' as [_ Hm].
      destruct (String.eqb_spec m "") as [He|Hne]; cbn [option_map hd_error].
      * rewrite find_person_first. eexists _, _. split; [reflexivity|].
        split; [now left|]. split; [apply focus_set|]. split.
        -- intros h1 m' h2 Hh Hm' Hne' Hh2.
           rewrite Hh, (find_rev_last _ h1 m' h2 Hm' Hh2) in F. congruence.
        -- intros _. reflexivity.
      * destruct (has_datum_In (d0 :: ds0) m Hm) as (p & Hp & HinP & Hid).
        rewrite Hp. eexists _, _. split; [reflexivity|].
        split; [exact HinP|]. split; [rewrite focus_set, Hid; reflexivity|]. split.
        -- intros h1 m' h2 Hh Hm' Hne' Hh2.
           rewrite Hh, (find_rev_last _ h1 m' h2 Hm' Hh2) in F. congruence.
        -- intros Hall. rewrite find_none_Forall in F; [discriminate|].
           now apply Forall_rev.
    + cbn [option_map hd_error]. rewrite find_person_first. eexists _, _.
      split; [reflexivity|]. split; [now left|]. split; [apply focus_set|]. split.
      * intros h1 m' h2 Hh Hm' Hne' Hh2.
        rewrite Hh, (find_rev_last _ h1 m' h2 Hm' Hh2) in F. discriminate.
      * intros _. reflexivity.
Qed.

End StoreMainExtra.

Module HistoryExtra.
Import Person History HistoryFacts Samples.

(** Whatever sequence of [changed], [back], [forward] and store edits
    runs from a fresh history, [history_index] is [-1] while nothing is
    saved and otherwise points at a saved copy, so [back] and [forward]
    never load [undefined]. *)
Theorem history_index_in_range (os : list op) (st : hstore) :
  let h := fst (run os (init, st)) in
  (entries h = [] /\ index h = (-1)%Z) \/
  (0 <= index h < Z.of_nat (length (entries h)))%Z.
Proof. apply run_Inv. left. split; reflexivity. Qed.

(** On a history reached from a fresh one, [changed] drops every copy
    after the current one, appends the new copy with the store's current
    [main_id] and makes it current; [forward] is then unavailable. *)
Theorem history_changed_truncates (os : list op) (st0 : hstore) (c : list person) (st : hstore) :
  let h := fst (run os (init, st0)) in
  let h' := changed c st h in
  entries h' = (firstn (Z.to_nat (index h + 1)) (entries h) ++ [mkSnap c (smain st)])%list /\
  index h' = (index h + 1)%Z /\ canForward h' = false.
Proof.
  cbn zeta. pose proof (run_Inv os (init, st0) (or_introl (conj eq_refl eq_refl))) as HI.
  destruct (changed_shape c st _ HI) as (He & Hi & Hl).
  split; [exact He|]. split; [exact Hi|].
  unfold canForward. rewrite He, Hi, length_app, Hl. cbn.
  apply Z.ltb_ge. destruct HI as [[_ Hi0]|Hr]; rewrite ?Hi0; lia.
Qed.

(** [back] followed by [forward] returns the history to where it was;
    [back] loads the previous copy and [forward] the current one again,
    each after the JSON round trip. *)
Theorem history_back_forward (h : hist) (st : hstore) :
  (0 < index h < Z.of_nat (length (entries h)))%Z ->
  let '(h1, st1) := back h st in
  let '(h2, st2) := forward h1 st1 in
  h2 = h /\
  sdata st1 = map json_person (snap (nth (Z.to_nat (index h - 1)) (entries h) snap0)) /\
  sdata st2 = map json_person (snap (nth (Z.to_nat (index h)) (entries h) snap0)).
Proof.
  intros [H0 H1]. unfold back, canBack.
  rewrite (proj2 (Z.ltb_lt 0 (index h)) H0). cbn [negb].
  unfold forward, canForward. cbn [entries index].
  rewrite (proj2 (Z.ltb_lt (index h - 1) (Z.of_nat (length (entries h)) - 1))) by lia.
  cbn [negb entries index]. replace (index h - 1 + 1)%Z with (index h) by lia.
  split; [destruct h; reflexivity|]. split; reflexivity.
Qed.

Lemma opt_eqb_none o : Sep.opt_eqb None o = true -> o = None.
Proof. destruct o; [discriminate|reflexivity]. Qed.

(** [back] keeps the focus when the loaded copy holds the focused
    person; otherwise it sets the focus to [undefined]: the [main_id]
    saved with the copy is lost in [updateData]'s JSON round trip, so it
    is never restored. *)
Theorem history_back_focus (h : hist) (st : hstore) :
  canBack h = true ->
  let d := nth (Z.to_nat (index h - 1)) (entries h) snap0 in
  smain (snd (back h st)) =
  if existsb (fun p => Sep.opt_eqb (Some (id p)) (smain st)) (snap d) then smain st else None.
Proof.
  intros Hb. unfold back. rewrite Hb. cbn [negb snd entries index].
  unfold updateData, json_copy. cbn [snap snap_main].
  rewrite existsb_json by reflexivity.
  destruct (existsb _ _); [reflexivity|].
  unfold updateMainId. destruct (Sep.opt_eqb None (smain st)) eqn:E; cbn.
  - now apply opt_eqb_none.
  - reflexivity.
Qed.

Lemma history_back_forward_witness :
  let '(h1, st1) := back hist_two hist_store in
  let '(h2, st2) := forward h1 st1 in
  h2 = hist_two /\
  sdata st1 = map json_person (snap (nth (Z.to_nat (index hist_two - 1)) (entries hist_two) snap0)) /\
  sdata st2 = map json_person (snap (nth (Z.to_nat (index hist_two)) (entries hist_two) snap0)).
Proof. apply (history_back_forward hist_two hist_store). cbn. lia. Defined.

Lemma history_back_focus_witness :
  smain (snd (back hist_two hist_store)) =
  if existsb (fun p => Sep.opt_eqb (Some (Person.id p)) (smain hist_store))
       (snap (nth (Z.to_nat (index hist_two - 1)) (entries hist_two) snap0))
  then smain hist_store else None.
Proof. apply (history_back_focus hist_two hist_store). reflexivity. Defined.

End HistoryExtra.

Module FitExtra.
Import Layout Fit FitFacts Samples.
Local Open Scope Q_scope.

Lemma fit_axis (v lo hi a k sw off : Q) :
  lo <= v -> v <= hi -> 0 < a -> 0 < k -> k * (hi - lo + a) <= sw ->
  off == - lo + a / 2 ->
  0 < k * (v + (off + (sw - (hi - lo + a) * k) / k / 2)) /\
  k * (v + (off + (sw - (hi - lo + a) * k) / k / 2)) < sw.
Proof.
  intros H1 H2 Ha Hk Hsw Hoff.
  assert (E : k * (v + (off + (sw - (hi - lo + a) * k) / k / 2)) ==
              (k * (v - lo) + sw - k * (hi - v)) * (1#2))
    by (rewrite Hoff; field; lra).
  assert (E2 : k * (hi - lo + a) == k * (hi - v) + k * (v - lo) + k * a) by ring.
  rewrite E. rewrite E2 in Hsw.
  assert (0 <= k * (v - lo)) by (apply Qmult_le_0_compat; lra).
  assert (0 <= k * (hi - v)) by (apply Qmult_le_0_compat; lra).
  assert (0 < k * a) by (apply Qmult_lt_0_compat; lra).
  split; lra.
Qed.

(** The scale [k] of [calculateTreeFit] for a non-empty screen and tree
    is positive, never enlarges (at most 1), makes the scaled tree fit
    in both directions and fills the width or the height unless it is 1;
    the translation leaves equal margins on both sides, so the scaled
    tree is centred on the screen. *)
Theorem calculateTreeFit_scale_centre (sw sh tw th xo yo : Q) :
  0 < sw -> 0 < sh -> 0 < tw -> 0 < th ->
  let '(k, x, y) := calculateTreeFit sw sh tw th xo yo in
  0 < k /\ k <= 1 /\ k * tw <= sw /\ k * th <= sh /\
  (k == 1 \/ k * tw == sw \/ k * th == sh) /\
  k * (x - xo) == sw - k * (x - xo + tw) /\
  k * (y - yo) == sh - k * (y - yo + th).
Proof.
  intros Hsw Hsh Htw Hth. unfold calculateTreeFit.
  pose proof (fit_scale sw sh tw th Hsw Hsh Htw Hth) as Hk. cbn zeta in Hk |- *.
  set (k := if D3.Qlt_bool 1 (qmin2 (sw / tw) (sh / th)) then 1 else qmin2 (sw / tw) (sh / th))
    in Hk |- *.
  destruct Hk as (Hk0 & Hk1 & Hk2 & Hk3 & Hk4).
  do 5 (split; [assumption|]). split; field; lra.
Qed.

Lemma calculateTreeFit_scale_centre_witness :
  let '(k, x, y) := calculateTreeFit 1000 600 1250 600 0 0 in
  0 < k /\ k <= 1 /\ k * 1250 <= 1000 /\ k * 600 <= 600 /\
  (k == 1 \/ k * 1250 == 1000 \/ k * 600 == 600) /\
  k * (x - 0) == 1000 - k * (x - 0 + 1250) /\
  k * (y - 0) == 600 - k * (y - 0 + 600).
Proof. apply calculateTreeFit_scale_centre; reflexivity. Defined.

(** Fitting the tree to the screen ([treeFit] on the dimensions from
    [calculateTreeDim]) and applying the zoom transform
    [scale(k).translate(x, y)] puts the centre of every card strictly
    inside the screen. *)
Theorem treeFit_cards_on_screen (c : cfg) (tree : list lnode) (ns ls sw sh : Q) :
  tree <> [] -> 0 < ns -> 0 < ls -> 0 < sw -> 0 < sh ->
  exists t, treeFit sw sh (calculateTreeDim c tree ns ls) = Some t /\
  forall d, In d tree ->
    let '(sx, sy) := screen t (x d) (y d) in 0 < sx < sw /\ 0 < sy < sh.
Proof.
  intros Hne Hns Hls Hsw Hsh.
  assert (Hsep : exists a b, (if is_horizontal c then (ls, ns) else (ns, ls)) = (a, b) /\ 0 < a /\ 0 < b)
    by (destruct (is_horizontal c); eexists _, _; (split; [reflexivity|split; assumption])).
  destruct Hsep as (a & b & Hab & Ha & Hb).
  unfold calculateTreeDim. rewrite Hab. cbn [treeFit offsets width height].
  destruct tree as [|d0 tr]; [congruence|].
  assert (Hx0 : qmin (map x (d0 :: tr)) <= qmax (map x (d0 :: tr))).
  { apply Qle_trans with (x d0); [apply qmin_le|apply qmax_ge]; left; reflexivity. }
  assert (Hy0 : qmin (map y (d0 :: tr)) <= qmax (map y (d0 :: tr))).
  { apply Qle_trans with (y d0); [apply qmin_le|apply qmax_ge]; left; reflexivity. }
  set (lx := qmin (map x (d0 :: tr))) in *. set (hx := qmax (map x (d0 :: tr))) in *.
  set (ly := qmin (map y (d0 :: tr))) in *. set (hy := qmax (map y (d0 :: tr))) in *.
  eexists; split; [reflexivity|].
  intros d Hd.
  assert (Hdx : lx <= x d <= hx)
    by (split; [apply qmin_le|apply qmax_ge]; apply in_map; exact Hd).
  assert (Hdy : ly <= y d <= hy)
    by (split; [apply qmin_le|apply qmax_ge]; apply in_map; exact Hd).
  pose proof (fit_scale sw sh (hx - lx + a) (hy - ly + b) Hsw Hsh ltac:(lra) ltac:(lra)) as Hk.
  unfold calculateTreeFit, screen. cbn zeta in Hk |- *.
  set (k := if D3.Qlt_bool 1 (qmin2 (sw / (hx - lx + a)) (sh / (hy - ly + b))) then 1
            else qmin2 (sw / (hx - lx + a)) (sh / (hy - ly + b))) in Hk |- *.
  destruct Hk as (Hk0 & _ & Hkw & Hkh & _).
  split; apply fit_axis with (lo := _) (hi := _) (a := _); try lra; reflexivity.
Qed.

Lemma treeFit_cards_on_screen_witness :
  exists t, treeFit 1000 600 (calculateTreeDim default_cfg fit_tree 250 150) = Some t /\
  forall d, In d fit_tree ->
    let '(sx, sy) := screen t (x d) (y d) in 0 < sx < 1000 /\ 0 < sy < 600.
Proof.
  apply (treeFit_cards_on_screen default_cfg fit_tree 250 150 1000 600);
    [discriminate|reflexivity..].
Defined.

End FitExtra.

Module DelayExtra.
Import Layout Fit DelayFacts Samples.
Local Open Scope Q_scope.

(** With a non-negative transition time, [calculateDelay] never starts
    a descendant or spouse card (a card that is not an ancestry card and
    has a depth other than 0 or a spouse) before any ancestry card of
    the same tree. *)
Theorem calculateDelay_ancestry_first (tree : list lnode) (a d : lnode) (t : Q) :
  0 <= t -> In a tree -> is_ancestry a = true ->
  In d tree -> is_ancestry d = false -> (depth d <> 0%nat \/ spouse d <> None) ->
  calculateDelay tree a t <= calculateDelay tree d t.
Proof.
  intros Ht Ha Haa Hd Hda Hdd. unfold calculateDelay.
  rewrite Haa, Hda. cbn [negb]. rewrite !andb_true_r, !andb_false_r.
  set (L := t * (4 # 10)).
  assert (HL : 0 <= L) by (unfold L; lra).
  set (m := fold_left Nat.max (map (fun d => if is_ancestry d then depth d else 0%nat) tree) 0%nat).
  assert (Ham : (depth a <= m)%nat).
  { destruct (fold_max_ge (map (fun d => if is_ancestry d then depth d else 0%nat) tree) 0) as [_ H].
    apply H. apply in_map_iff. exists a. rewrite Haa. split; [reflexivity|exact Ha]. }
  destruct (Nat.eqb (depth d) 0) eqn:E0; destruct (spouse d) as [s|] eqn:Es; cbn [negb orb].
  - apply Nat.eqb_eq in E0.
    assert (Hq := qn_le _ _ Ham). assert (H0 := qn_nonneg (depth d)).
    assert (Hm := qn_nonneg m).
    assert (inject_Z (Z.of_nat (depth a)) * L <= inject_Z (Z.of_nat m) * L)
      by (apply Qmult_le_compat_r; assumption).
    assert (0 <= inject_Z (Z.of_nat (depth d)) * L) by (apply Qmult_le_0_compat; assumption).
    lra.
  - apply Nat.eqb_eq in E0. destruct Hdd; congruence.
  - assert (Hq := qn_le _ _ Ham). assert (H0 := qn_nonneg (depth d)).
    assert (inject_Z (Z.of_nat (depth a)) * L <= inject_Z (Z.of_nat m) * L)
      by (apply Qmult_le_compat_r; assumption).
    assert (0 <= inject_Z (Z.of_nat (depth d)) * L) by (apply Qmult_le_0_compat; assumption).
    lra.
  - assert (Hq := qn_le _ _ Ham). assert (H0 := qn_nonneg (depth d)).
    assert (inject_Z (Z.of_nat (depth a)) * L <= inject_Z (Z.of_nat m) * L)
      by (apply Qmult_le_compat_r; assumption).
    assert (0 <= inject_Z (Z.of_nat (depth d)) * L) by (apply Qmult_le_0_compat; assumption).
    lra.
Qed.

Lemma calculateDelay_ancestry_first_witness :
  calculateDelay fit_tree (nth 1 fit_tree l0) 2000 <= calculateDelay fit_tree (nth 3 fit_tree l0) 2000.
Proof.
  apply calculateDelay_ancestry_first;
    [unfold Qle; cbn; lia | cbn; tauto | reflexivity | cbn; tauto | reflexivity | left; discriminate].
Defined.

End DelayExtra.

Module SortFacts.
Import Layout.

Section KeySort.
Context {A : Type} (key : A -> Z).

Definition cmpk (a b : A) : Z := (key a - key b)%Z.
Definition Rk (a b : A) : Prop := (key a <= key b)%Z.
Definition eqk (v : Z) (a : A) : bool := Z.eqb (key a) v.

Lemma cmpk_leb a b : Z.leb (cmpk a b) 0 = Z.leb (key a) (key b).
Proof. unfold cmpk. destruct (Z.leb_spec (key a - key b) 0), (Z.leb_spec (key a) (key b)); lia. Qed.

Lemma insert_perm x l : Permutation (x :: l) (insert_by cmpk x l).
Proof.
  induction l as [|y l IH]; cbn; [reflexivity|].
  destruct (Z.leb (cmpk y x) 0); [|reflexivity].
  rewrite perm_swap. constructor. exact IH.
Qed.

Lemma insert_hd a x l : HdRel Rk a l -> Rk a x -> HdRel Rk a (insert_by cmpk x l).
Proof.
  intros H Hx. destruct l as [|y l]; cbn; [constructor; exact Hx|].
  destruct (Z.leb (cmpk y x) 0); constructor; [inversion H; assumption|exact Hx].
Qed.

Lemma insert_sorted x l : Sorted Rk l -> Sorted Rk (insert_by cmpk x l).
Proof.
  induction l as [|y l IH]; intros Hs; cbn; [repeat constructor|].
  inversion Hs as [|? ? Hl Hh]; subst.
  destruct (Z.leb (cmpk y x) 0) eqn:E.
  - rewrite cmpk_leb in E. apply Z.leb_le in E.
    constructor; [apply IH, Hl|apply insert_hd; assumption].
  - rewrite cmpk_leb in E. apply Z.leb_gt in E.
    constructor; [exact Hs|constructor; unfold Rk; lia].
Qed.

Lemma Rk_trans : Transitive Rk.
Proof. intros a b c. unfold Rk. lia. Qed.

Lemma insert_filter x l v : Sorted Rk l ->
  filter (eqk v) (insert_by cmpk x l) =
  (filter (eqk v) l ++ (if eqk v x then [x] else []))%list.
Proof.
  induction l as [|y l IH]; intros Hs; cbn; [destruct (eqk v x); reflexivity|].
  inversion Hs as [|? ? Hl Hh]; subst.
  destruct (Z.leb (cmpk y x) 0) eqn:E; cbn.
  - rewrite (IH Hl). destruct (eqk v y); reflexivity.
  - rewrite cmpk_leb in E. apply Z.leb_gt in E.
    apply Sorted_StronglySorted in Hs; [|exact Rk_trans].
    inversion Hs as [|? ? _ Hall]; subst.
    assert (Hnone : filter (eqk v) l = [] \/ eqk v x = false).
    { destruct (eqk v x) eqn:Ex; [left|right; reflexivity].
      apply Z.eqb_eq in Ex. unfold eqk. clear IH Hs Hl Hh.
      induction Hall as [|z l Hz Hall' IHa]; [reflexivity|].
      cbn. unfold Rk in Hz. destruct (Z.eqb_spec (key z) v); [lia|].
      exact IHa. }
    destruct (eqk v x) eqn:Ex; destruct (eqk v y) eqn:Ey.
    + apply Z.eqb_eq in Ex, Ey. lia.
    + destruct Hnone as [->|]; [reflexivity|discriminate].
    + rewrite app_nil_r. reflexivity.
    + rewrite app_nil_r. reflexivity.
Qed.

Lemma sort_fold l acc : Sorted Rk acc ->
  let r := fold_left (fun acc x => insert_by cmpk x acc) l acc in
  Permutation (acc ++ l) r /\ Sorted Rk r /\
  forall v, filter (eqk v) r = (filter (eqk v) acc ++ filter (eqk v) l)%list.
Proof.
  revert acc. induction l as [|x l IH]; intros acc Hs; cbn.
  - split; [rewrite app_nil_r; reflexivity|]. split; [exact Hs|].
    intros v. cbn. rewrite app_nil_r. reflexivity.
  - destruct (IH (insert_by cmpk x acc) (insert_sorted x acc Hs)) as (Hp & Hso & Hf).
    split; [|split; [exact Hso|]].
    + rewrite <- Hp. rewrite <- Permutation_middle. rewrite <- insert_perm. reflexivity.
    + intros v. rewrite Hf, insert_filter by exact Hs. rewrite <- app_assoc.
      cbn. destruct (eqk v x); reflexivity.
Qed.

Lemma sort_by_key l :
  Permutation l (sort_by cmpk l) /\ Sorted Rk (sort_by cmpk l) /\
  forall v, filter (eqk v) (sort_by cmpk l) = filter (eqk v) l.
Proof.
  destruct (sort_fold l [] (Sorted_nil _)) as (Hp & Hs & Hf).
  split; [exact Hp|]. split; [exact Hs|]. intros v. rewrite Hf. reflexivity.
Qed.

End KeySort.

Lemma insert_by_ext {A} (c1 c2 : A -> A -> Z) x l :
  (forall a b, Z.leb (c1 a b) 0 = Z.leb (c2 a b) 0) -> insert_by c1 x l = insert_by c2 x l.
Proof.
  intros H. induction l as [|y l IH]; cbn; [reflexivity|]. rewrite H, IH. reflexivity.
Qed.

Lemma sort_by_ext {A} (c1 c2 : A -> A -> Z) l :
  (forall a b, Z.leb (c1 a b) 0 = Z.leb (c2 a b) 0) -> sort_by c1 l = sort_by c2 l.
Proof.
  intros H. unfold sort_by. generalize (@nil A). induction l as [|x l IH]; intros acc; cbn;
    [reflexivity|]. rewrite (insert_by_ext c1 c2 x acc H). apply IH.
Qed.

Lemma Sorted_impl {A} (R1 R2 : A -> A -> Prop) l :
  (forall a b, R1 a b -> R2 a b) -> Sorted R1 l -> Sorted R2 l.
Proof.
  intros H Hs. induction Hs as [|a l Hs IH Hh]; constructor; [exact IH|].
  destruct Hh; constructor; auto.
Qed.

End SortFacts.

Module SortExtra.
Import Person Layout LayoutSort SortFacts SortSamples.

(** [sortChildrenWithSpouses] on a person with a [children] array
    reorders the children, dropping and adding none, by the index of
    their other parent among the person's spouses: ascending when the
    person is male, descending otherwise; children whose other parent
    has the same index keep their order ([Array.prototype.sort] is
    stable). *)
Theorem sortChildrenWithSpouses_stable (cs : list person) (datum : person) (ds : list person) :
  children (rels datum) <> None ->
  let idx := spouse_index datum ds in
  let r := sortChildrenWithSpouses cs datum ds in
  Permutation cs r /\
  Sorted (fun a b => if Augment.is_male datum then (idx a <= idx b)%Z else (idx b <= idx a)%Z) r /\
  forall v, filter (fun c => Z.eqb (idx c) v) r = filter (fun c => Z.eqb (idx c) v) cs.
Proof.
  intros Hc. cbn zeta. unfold sortChildrenWithSpouses.
  destruct (children (rels datum)) as [c0|]; [|congruence].
  destruct (Augment.is_male datum).
  - change (sort_by (cmpk (spouse_index datum ds)) cs) with
      (sort_by (fun a b => (spouse_index datum ds a - spouse_index datum ds b)%Z) cs).
    exact (sort_by_key (spouse_index datum ds) cs).
  - set (k := fun c => (- spouse_index datum ds c)%Z).
    rewrite (sort_by_ext _ (cmpk k)) by (intros a b; unfold cmpk, k;
      cbn zeta; unfold spouse_index; f_equal; lia).
    destruct (sort_by_key k cs) as (Hp & Hs & Hf).
    split; [exact Hp|]. split.
    + apply (Sorted_impl (Rk k)); [|exact Hs]. unfold Rk, k. intros a b H. lia.
    + intros v. specialize (Hf (- v)%Z). unfold eqk, k in Hf.
      assert (Fe : forall l, filter (fun a => Z.eqb (- spouse_index datum ds a) (- v)) l =
                             filter (fun c => Z.eqb (spouse_index datum ds c) v) l).
      { intros l. apply filter_ext. intros a.
        destruct (Z.eqb_spec (spouse_index datum ds a) v),
          (Z.eqb_spec (- spouse_index datum ds a) (- v)); lia. }
      rewrite !Fe in Hf. exact Hf.
Qed.

Lemma sortChildrenWithSpouses_stable_witness :
  let idx := spouse_index sp_F sp_data in
  let r := sortChildrenWithSpouses [sp_K1; sp_K2; sp_K3] sp_F sp_data in
  Permutation [sp_K1; sp_K2; sp_K3] r /\
  Sorted (fun a b => if Augment.is_male sp_F then (idx a <= idx b)%Z else (idx b <= idx a)%Z) r /\
  forall v, filter (fun c => Z.eqb (idx c) v) r = filter (fun c => Z.eqb (idx c) v) [sp_K1; sp_K2; sp_K3].
Proof. apply sortChildrenWithSpouses_stable. discriminate. Defined.

End SortExtra.

Module DeleteExtra.
Import Person Delete DeleteFacts Samples.

Lemma changeToUnknown_length i datum ds : length (changeToUnknown i datum ds) = length ds.
Proof.
  pose proof (f_equal (@length _) (changeToUnknown_skel i datum ds)) as H.
  rewrite !length_map in H. exact H.
Qed.

(** [deletePerson] never leaves the data empty: when the deletion is
    refused the data keeps its persons, and when removing the person
    (and the [to_add] persons it cascades to) empties the data, a blank
    person is created in their place. *)
Theorem deletePerson_never_empty (new_id : string) (i : nat) (ds : list person)
    (r : delete_result) (ds' : list person) :
  deletePerson new_id i ds = Some (r, ds') -> ds' <> [].
Proof.
  unfold deletePerson. cbn [deletePerson_fuel].
  destruct (nth_error ds i) as [datum|] eqn:Hi; [|discriminate].
  destruct (checkIfRelativesConnectedWithoutPerson datum ds) as [[|]|]; [| |discriminate].
  - destruct (cascade _ _ _) as [[|d l]|]; intros H; try discriminate;
      injection H as _ <-; discriminate.
  - intros H. injection H as _ <-. intros He.
    apply (f_equal (@length _)) in He. rewrite changeToUnknown_length in He.
    destruct ds as [|a ds]; [destruct i; discriminate|discriminate].
Qed.

Lemma deletePerson_never_empty_witness : [blank_person "new"] <> [].
Proof.
  apply (deletePerson_never_empty "new" 0 [hist_A] (mkResult true)). vm_compute. reflexivity.
Defined.

Lemma remove_person_single p : remove_person p [p] = [].
Proof.
  unfold remove_person. cbn [map].
  pose proof (onDeleteSync_skel p [remove_refs (id p) p]) as Hs.
  destruct (onDeleteSyncRelReference p [remove_refs (id p) p]) as [|d [|d' l]];
    cbn in Hs; try discriminate.
  apply (f_equal (map fst)) in Hs. cbn in Hs. injection Hs as Hid.
  unfold JS.splice1. cbn [JS.findIndex length].
  rewrite Hid, String.eqb_refl. reflexivity.
Qed.

(** Deleting the only person of the data, when that person has no
    relatives, succeeds and leaves exactly one blank person whose id is
    the newly drawn one. *)
Theorem deletePerson_last_person (new_id : string) (p : person) :
  rel_ids (rels p) = [] ->
  deletePerson new_id 0 [p] = Some (mkResult true, [blank_person new_id]).
Proof.
  intros H. unfold deletePerson.
  cbn -[checkIfRelativesConnectedWithoutPerson remove_person cascade].
  replace (checkIfRelativesConnectedWithoutPerson p [p]) with (Some true)
    by (unfold checkIfRelativesConnectedWithoutPerson; rewrite H; reflexivity).
  rewrite remove_person_single. reflexivity.
Qed.

Lemma deletePerson_last_person_witness :
  deletePerson "new" 0 [hist_A] = Some (mkResult true, [blank_person "new"]).
Proof. apply deletePerson_last_person. reflexivity. Defined.

End DeleteExtra.

Module MiddleExtra.
Import Fit Middle.
Local Open Scope Q_scope.

(** [cardToMiddle] puts the card at the horizontal centre of the screen
    for every scale, but its vertical position is off the centre by
    [(k - 1) * dy]: the [y] offset is not multiplied by [k], so the card
    is vertically centred only when the scale is 1 or the card lies at
    [y = 0]. *)
Theorem cardToMiddle_position (scale : option Q) (sw sh dx dy : Q) :
  let t := cardToMiddle scale sw sh dx dy in
  let k := fst (fst t) in
  let '(sx, sy) := screen t dx dy in
  sx == sw / 2 /\ sy == sh / 2 + (k - 1) * dy /\ (sy == sh / 2 <-> k == 1 \/ dy == 0).
Proof.
  assert (Hk : exists k, ~ k == 0 /\ cardToMiddle scale sw sh dx dy =
                 (k, (sw / 2 - dx * k) / k, (sh / 2 - dy) / k)).
  { unfold cardToMiddle. destruct scale as [s|].
    - destruct (Qeq_bool s 0) eqn:E.
      + exists 1. split; [discriminate|reflexivity].
      + exists s. split; [|reflexivity]. intros H. apply Qeq_bool_iff in H. congruence.
    - exists 1. split; [discriminate|reflexivity]. }
  destruct Hk as (k & Hk & ->). cbn zeta. unfold screen. cbn [fst].
  assert (Ey : k * (dy + (sh / 2 - dy) / k) == sh / 2 + (k - 1) * dy) by (field; exact Hk).
  split; [field; exact Hk|]. split; [exact Ey|]. rewrite Ey. split.
  - intros H. assert (H0 : (k - 1) * dy == 0) by lra.
    apply Qmult_integral in H0. destruct H0 as [H0|H0]; [left; lra|right; exact H0].
  - intros [H|H]; rewrite H; ring.
Qed.

End MiddleExtra.

Module SyncExtra.
Import Person Delete DataKeys SyncSamples.

Definition absent (K r : string) (ds : list person) : Prop :=
  forall p, find_person ds r = Some p -> ~ In K (keys p).

Lemma delete_attr_keys K K' a : In K (map fst (delete_attr K' a)) -> In K (map fst a).
Proof.
  unfold delete_attr. intros H. apply in_map_iff in H as (kv & <- & Hkv).
  apply filter_In in Hkv as [Hkv _]. apply in_map. exact Hkv.
Qed.

Lemma delete_attr_gone K a : ~ In K (map fst (delete_attr K a)).
Proof.
  unfold delete_attr. intros H. apply in_map_iff in H as (kv & <- & Hkv).
  apply filter_In in Hkv as [_ Hkv]. rewrite String.eqb_refl in Hkv. discriminate.
Qed.

Lemma absent_update K K' r j ds :
  absent K r ds ->
  absent K r (update_at j (fun rel => set_data rel (delete_attr K' (data rel))) ds).
Proof.
  unfold absent, find_person. revert j. induction ds as [|d ds IH]; intros j Ha p Hp.
  - destruct j; discriminate.
  - destruct j as [|j]; cbn in Hp |- *.
    + destruct (String.eqb (id d) r) eqn:E.
      * injection Hp as <-. intros Hk. apply (Ha d); [cbn; rewrite E; reflexivity|].
        apply delete_attr_keys with K'. exact Hk.
      * apply (Ha p). cbn. rewrite E. exact Hp.
    + destruct (String.eqb (id d) r) eqn:E.
      * apply (Ha p). cbn. rewrite E. exact Hp.
      * apply (IH j); [|exact Hp]. intros q Hq. apply Ha. cbn. rewrite E. exact Hq.
Qed.

Lemma find_index_none ds r : find_index ds r = None -> find_person ds r = None.
Proof.
  unfold find_person. induction ds as [|d ds IH]; cbn; [reflexivity|].
  destruct (String.eqb (id d) r); [discriminate|].
  destruct (find_index ds r); [discriminate|]. intros _. apply IH. reflexivity.
Qed.

Lemma absent_establish K r j ds :
  find_index ds r = Some j ->
  absent K r (update_at j (fun rel => set_data rel (delete_attr K (data rel))) ds).
Proof.
  unfold absent, find_person. revert j. induction ds as [|d ds IH]; intros j Hj p Hp; cbn in Hj.
  - discriminate.
  - destruct (String.eqb (id d) r) eqn:E.
    + injection Hj as <-. cbn in Hp. rewrite E in Hp. injection Hp as <-.
      apply delete_attr_gone.
    + destruct (find_index ds r) as [j'|] eqn:Ej; [|discriminate].
      injection Hj as <-. cbn in Hp. rewrite E in Hp. exact (IH j' eq_refl p Hp).
Qed.

Definition sync_step (datum : person) (ds : list person) (kv : string * option string) : list person :=
  let k := fst kv in
  if Str.includes k "__ref__" then
    let parts := Str.split k "__ref__" in
    match find_index ds (nth 1 parts "") with
    | None => ds
    | Some j =>
        update_at j (fun rel => set_data rel
                       (delete_attr (nth 0 parts "" ++ "__ref__" ++ id datum) (data rel))) ds
    end
  else ds.

Lemma onDeleteSync_fold datum ds :
  onDeleteSyncRelReference datum ds = fold_left (sync_step datum) (data datum) ds.
Proof. reflexivity. Qed.

Lemma absent_step K r datum ds kv : absent K r ds -> absent K r (sync_step datum ds kv).
Proof.
  intros Ha. unfold sync_step. destruct (Str.includes _ _); [|exact Ha].
  destruct (find_index _ _); [apply absent_update; exact Ha|exact Ha].
Qed.

Lemma absent_fold K r datum kvs ds :
  absent K r ds -> absent K r (fold_left (sync_step datum) kvs ds).
Proof.
  revert ds. induction kvs as [|kv kvs IH]; intros ds Ha; cbn; [exact Ha|].
  apply IH, absent_step, Ha.
Qed.

(** After [onDeleteSyncRelReference(datum, data_stash)], for every
    field [f__ref__r] of [datum], the person with id [r] (when there is
    one) has no field [f__ref__<datum.id>] left: every mirror of a
    reference field of the deleted person is removed. *)
Theorem onDeleteSyncRelReference_clears (datum : person) (ds : list person)
    (k : string) (v : option string) (p : person) :
  In (k, v) (data datum) -> Str.includes k "__ref__" = true ->
  find_person (onDeleteSyncRelReference datum ds) (nth 1 (Str.split k "__ref__") "") = Some p ->
  ~ In (nth 0 (Str.split k "__ref__") "" ++ "__ref__" ++ id datum) (keys p).
Proof.
  intros Hin Hinc. rewrite onDeleteSync_fold. revert p.
  change (absent (nth 0 (Str.split k "__ref__") "" ++ "__ref__" ++ id datum)
                 (nth 1 (Str.split k "__ref__") "")
                 (fold_left (sync_step datum) (data datum) ds)).
  revert Hin. generalize (data datum) as kvs. intros kvs Hkv. revert ds.
  induction kvs as [|kv kvs IH]; intros ds; [destruct Hkv|].
  destruct Hkv as [->|Hkv]; cbn [fold_left].
  - apply absent_fold. unfold sync_step. cbn [fst]. rewrite Hinc.
    destruct (find_index ds _) as [j|] eqn:Ej.
    + apply absent_establish. exact Ej.
    + intros q Hq. rewrite (find_index_none _ _ Ej) in Hq. discriminate.
  - apply IH. exact Hkv.
Qed.

Lemma onDeleteSyncRelReference_clears_witness :
  ~ In (nth 0 (Str.split "wedding__ref__B" "__ref__") "" ++ "__ref__" ++ id sync_A) (keys sync_B_after).
Proof.
  apply (onDeleteSyncRelReference_clears sync_A [sync_A; sync_B] "wedding__ref__B" (Some "1990"));
    [right; left; reflexivity | vm_compute; reflexivity | vm_compute; reflexivity].
Defined.

End SyncExtra.

Module ConnectedExtra.
Import Person Connected SortSamples.

Lemma fold_step_none rec ds fid ids :
  fold_left (checkRels_step rec ds fid) ids None = None.
Proof. induction ids as [|r ids IH]; [reflexivity|exact IH]. Qed.

Lemma checkRels_sound fuel ds fid p st st' :
  checkRels fuel ds fid p st = Some st' -> snd st = false -> snd st' = true ->
  reaches ds fid p.
Proof.
  revert p st st'. induction fuel as [|f IHf]; intros p st st' H Hf Ht; [discriminate|].
  cbn [checkRels] in H. rewrite Hf in H.
  assert (Hincl : incl (rel_ids (rels p)) (rel_ids (rels p))) by (intros x Hx; exact Hx).
  revert Hincl H Hf. generalize (rel_ids (rels p)) at 1 3 as ids. intros ids.
  revert st. induction ids as [|r ids IH]; intros st Hincl H Hf.
  - cbn in H. injection H as <-. congruence.
  - cbn [fold_left] in H. destruct st as [checked conn]. cbn in Hf. subst conn.
    unfold checkRels_step at 2 in H.
    destruct (JS.includes checked r).
    + apply (IH (checked, false)); [intros x Hx; apply Hincl; right; exact Hx|exact H|reflexivity].
    + destruct (find_person ds r) as [q|] eqn:Hq; [|rewrite fold_step_none in H; discriminate].
      destruct (String.eqb_spec (id q) fid) as [Hid|Hid].
      * apply (reach_here ds fid p r q); [apply Hincl; left; reflexivity|exact Hq|exact Hid].
      * destruct (checkRels f ds fid q (checked ++ [r], false)%list) as [[c1 b1]|] eqn:Hr;
          [|rewrite fold_step_none in H; discriminate].
        destruct b1.
        -- apply (reach_step ds fid p r q); [apply Hincl; left; reflexivity|exact Hq|].
           apply (IHf q _ _ Hr); reflexivity.
        -- apply (IH (c1, false)); [intros x Hx; apply Hincl; right; exact Hx|exact H|reflexivity].
Qed.

(** [checkIfConnectedToFirstPerson] throws on empty data, and it
    answers [true] only for the first person itself or for a person
    linked to the first person by a chain of relation ids, each naming
    a person of the data. *)
Theorem checkIfConnectedToFirstPerson_sound (datum : person) (ds : list person) :
  checkIfConnectedToFirstPerson datum [] = None /\
  (checkIfConnectedToFirstPerson datum ds = Some true ->
   exists first rest, ds = first :: rest /\
     (id datum = id first \/ reaches ds (id first) datum)).
Proof.
  split; [reflexivity|].
  destruct ds as [|first rest]; [discriminate|]. intros H.
  exists first, rest. split; [reflexivity|].
  unfold checkIfConnectedToFirstPerson in H.
  destruct (String.eqb_spec (id datum) (id first)) as [E|E]; [left; exact E|right].
  destruct (checkRels _ _ _ _ _) as [[c b]|] eqn:Hc; [|discriminate].
  injection H as ->. eapply checkRels_sound; [exact Hc|reflexivity|reflexivity].
Qed.

Lemma checkIfConnectedToFirstPerson_sound_witness :
  checkIfConnectedToFirstPerson sp_K2 [] = None /\
  (checkIfConnectedToFirstPerson sp_K2 sp_data = Some true ->
   exists first rest, sp_data = first :: rest /\
     (id sp_K2 = id first \/ reaches sp_data (id first) sp_K2)).
Proof. apply checkIfConnectedToFirstPerson_sound. Defined.

End ConnectedExtra.

Module PrivateExtra.
Import Person Private SortSamples.

Section Sound.
Variable c : person -> bool.
Variable ds : list person.

Definition memo_ok (memo : list (string * bool)) : Prop :=
  forall x, lookup_memo memo x = Some true -> priv_reach c ds x.

Lemma checkPS_fold_none rec ids : fold_left (checkPS_step rec) ids None = None.
Proof. induction ids as [|o ids IH]; [reflexivity|exact IH]. Qed.

Lemma checkPS_sound fuel memo x checked st' :
  memo_ok memo ->
  checkParentsAndSpouses c fuel ds memo x (checked, false) = Some st' -> snd st' = true ->
  priv_reach c ds x.
Proof.
  intros Hm. revert x checked st'. induction fuel as [|f IHf]; intros x checked st' H Ht;
    [discriminate|].
  cbn [checkParentsAndSpouses] in H.
  destruct (lookup_memo memo x) as [b|] eqn:Hl.
  - injection H as <-. cbn in Ht. subst b. apply Hm. exact Hl.
  - destruct (find_person ds x) as [d|] eqn:Hd; [|discriminate].
    destruct (c d) eqn:Hc; [exact (pr_here c ds x d Hd Hc)|].
    assert (Hincl : incl (ps_ids d) (ps_ids d)) by (intros o Ho; exact Ho).
    revert Hincl H. generalize (ps_ids d) at 1 3 as os. intros os.
    revert checked. induction os as [|o os IH]; intros checked Hincl H.
    + cbn in H. injection H as <-. discriminate.
    + cbn [fold_left] in H. unfold checkPS_step at 2 in H.
      destruct (negb (truthy o)) eqn:Htr.
      * apply (IH checked); [intros z Hz; apply Hincl; right; exact Hz|exact H].
      * destruct (JS.includes checked _).
        -- apply (IH checked); [intros z Hz; apply Hincl; right; exact Hz|exact H].
        -- destruct o as [y|].
           ++ destruct (checkParentsAndSpouses c f ds memo y (checked ++ [y], false)%list)
                as [[c1 b1]|] eqn:Hr; [|rewrite checkPS_fold_none in H; discriminate].
              destruct b1.
              ** apply (pr_step c ds x d y Hd); [apply Hincl; left; reflexivity|].
                 apply (IHf y _ _ Hr). reflexivity.
              ** apply (IH c1); [intros z Hz; apply Hincl; right; exact Hz|exact H].
           ++ discriminate Htr.
Qed.

Lemma isPrivate_sound memo x b memo' :
  memo_ok memo -> isPrivate c ds memo x = Some (b, memo') ->
  memo_ok memo' /\ (b = true -> priv_reach c ds x).
Proof.
  intros Hm H. unfold isPrivate in H.
  destruct (checkParentsAndSpouses c _ ds memo x ([], false)) as [[ch ip]|] eqn:Hc;
    [|discriminate].
  injection H as <- <-.
  assert (Hx : ip = true -> priv_reach c ds x)
    by (intros ->; exact (checkPS_sound _ memo x [] _ Hm Hc eq_refl)).
  split; [|exact Hx].
  intros z Hz. unfold lookup_memo in Hz. cbn [find fst] in Hz.
  destruct (String.eqb x z) eqn:E.
  - cbn in Hz. injection Hz as ->. apply String.eqb_eq in E. subst z. apply Hx. reflexivity.
  - apply Hm. exact Hz.
Qed.

Lemma private_loop_sound tree memo flags :
  memo_ok memo -> private_loop c ds memo tree = Some flags ->
  forall n d, nth_error tree n = Some d -> nth_error flags n = Some true -> priv_reach c ds (id d).
Proof.
  revert memo flags. induction tree as [|d0 t IH]; intros memo flags Hm H n d Hn Hf.
  - destruct n; discriminate.
  - cbn in H. destruct (isPrivate c ds memo (id d0)) as [[b memo']|] eqn:Hp; [|discriminate].
    destruct (isPrivate_sound memo (id d0) b memo' Hm Hp) as [Hm' Hb].
    destruct (private_loop c ds memo' t) as [fl|] eqn:Hl; [|discriminate].
    injection H as <-. destruct n as [|n]; cbn in Hn, Hf.
    + injection Hn as <-. injection Hf as ->. apply Hb. reflexivity.
    + exact (IH memo' fl Hm' Hl n d Hn Hf).
Qed.

End Sound.

(** [handlePrivateCards] marks a card private only when its person, or
    one of its parents or spouses, transitively (every id naming a
    person of the data), meets [private_cards_config.condition];
    without a condition it marks no card. *)
Theorem handlePrivateCards_sound (condition : person -> bool) (ds tree : list person)
    (flags : list bool) :
  handlePrivateCards None ds tree = Some (map (fun _ => false) tree) /\
  (handlePrivateCards (Some condition) ds tree = Some flags ->
   forall n d, nth_error tree n = Some d -> nth_error flags n = Some true ->
   priv_reach condition ds (id d)).
Proof.
  split; [reflexivity|]. intros H. apply (private_loop_sound condition ds tree [] flags); [|exact H].
  intros x Hx. discriminate.
Qed.

Lemma handlePrivateCards_sound_witness :
  handlePrivateCards None sp_data sp_data = Some (map (fun _ => false) sp_data) /\
  (handlePrivateCards (Some (fun p => String.eqb (id p) "W2")) sp_data sp_data =
     Some [true; true; true; true; true; true] ->
   forall n d, nth_error sp_data n = Some d -> nth_error [true; true; true; true; true; true] n = Some true ->
   priv_reach (fun p => String.eqb (id p) "W2") sp_data (id d)).
Proof. apply handlePrivateCards_sound. Defined.

End PrivateExtra.

Module DupStashExtra.
Import Dup DupFacts DupStash.

Lemma lookup_remove_same (s : store) k : lookup (remove s k) k = None.
Proof.
  unfold lookup, remove. induction s as [|[k0 v0] s IH]; cbn; [reflexivity|].
  destruct (key_eqb k0 k) eqn:E; cbn; [exact IH|]. rewrite E. exact IH.
Qed.

Lemma lookup_remove_other (s : store) k j : j <> k -> lookup (remove s k) j = lookup s j.
Proof. intros H. unfold lookup, remove. rewrite find_filter_other by exact H. reflexivity. Qed.

(** A toggle value stashed by [stashTgdpSpouse] (the branch is not a
    duplicate in this layout) is moved back by the next
    [assignDuplicateValues] on the same cell: the member gets the
    stashed value, every cell holds what it held before the stash, and
    the stash no longer holds that cell while its other entries are
    unchanged. *)
Theorem stash_then_assign (s stash : store) (ms : list member) (i : nat) (k : key) (v : Z) :
  lookup s k = Some v ->
  let '(s1, st1) := stashTgdpSpouse s stash k in
  let '(s2, st2, ms2) := assign_prog_step (s1, st1, ms) (i, k) in
  ms2 = (ms ++ [mkM i k v])%list /\ (forall j, lookup s2 j = lookup s j) /\
  lookup st2 k = None /\ (forall j, j <> k -> lookup st2 j = lookup stash j).
Proof.
  intros Hv. unfold stashTgdpSpouse. rewrite Hv. unfold assign_prog_step.
  rewrite lookup_set_same, lookup_set_same.
  split; [reflexivity|]. split; [|split].
  - intros j. destruct (list_eq_dec String.string_dec j k) as [->|Hne].
    + rewrite lookup_set_same. symmetry. exact Hv.
    + rewrite lookup_set_other, lookup_remove_other by exact Hne. reflexivity.
  - apply lookup_remove_same.
  - intros j Hne. rewrite lookup_remove_other, lookup_set_other by exact Hne. reflexivity.
Qed.

Lemma stash_then_assign_witness :
  let '(s1, st1) := stashTgdpSpouse [(["main"; "W1"], (-5)%Z)] [] ["main"; "W1"] in
  let '(s2, st2, ms2) := assign_prog_step (s1, st1, []) (0%nat, ["main"; "W1"]) in
  ms2 = ([] ++ [mkM 0 ["main"; "W1"] (-5)])%list /\
  (forall j, lookup s2 j = lookup [(["main"; "W1"], (-5)%Z)] j) /\
  lookup st2 ["main"; "W1"] = None /\ (forall j, j <> ["main"; "W1"] -> lookup st2 j = lookup [] j).
Proof. apply stash_then_assign. reflexivity. Defined.

End DupStashExtra.

Module SiblingsExtra.
Import Person Siblings.
Local Open Scope Q_scope.
Local Open Scope list_scope.

Lemma sib_insert_perm {A} (cmp : A -> A -> Z) x l :
  Permutation (Layout.insert_by cmp x l) (x :: l).
Proof.
  induction l as [|y l IH]; cbn; [reflexivity|].
  destruct (Z.leb (cmp y x) 0); [|reflexivity].
  rewrite IH. apply perm_swap.
Qed.

Lemma sort_by_perm {A} (cmp : A -> A -> Z) l : Permutation (Layout.sort_by cmp l) l.
Proof.
  unfold Layout.sort_by.
  assert (H : forall acc, Permutation (fold_left (fun acc x => Layout.insert_by cmp x acc) l acc) (l ++ acc)).
  { induction l as [|x l IH]; intros acc; cbn; [reflexivity|].
    rewrite IH, sib_insert_perm. apply Permutation_sym, Permutation_middle. }
  rewrite H, app_nil_r. reflexivity.
Qed.

Lemma place_all_app lo hi ns m i l1 l2 :
  place_all lo hi ns m i (l1 ++ l2) =
  place_all lo hi ns m i l1 ++ place_all lo hi ns m (i + Z.of_nat (length l1)) l2.
Proof.
  revert i; induction l1 as [|s l1 IH]; intros i; cbn.
  - rewrite Z.add_0_r. reflexivity.
  - replace (i + Z.pos (Pos.of_succ_nat (length l1)))%Z with (i + 1 + Z.of_nat (length l1))%Z by lia.
    destruct (Z.eqb i m); rewrite IH; reflexivity.
Qed.

Lemma place_all_fst lo hi ns m i l :
  (m < i \/ i + Z.of_nat (length l) <= m)%Z -> map fst (place_all lo hi ns m i l) = l.
Proof.
  revert i; induction l as [|s l IH]; intros i Hi; cbn; [reflexivity|].
  cbn [length] in Hi. destruct (Z.eqb_spec i m); [lia|]. cbn. f_equal. apply IH. lia.
Qed.

Lemma place_all_idx lo hi ns m i l :
  Forall (fun e => exists j, (i <= j)%Z /\ j <> m /\ snd e = place lo hi ns m j)
         (place_all lo hi ns m i l).
Proof.
  revert i; induction l as [|s l IH]; intros i; cbn; [constructor|].
  destruct (Z.eqb_spec i m) as [Heq|Hne].
  - eapply Forall_impl; [|apply IH]. intros e (j & H1 & H2 & H3). exists j. repeat split; auto; lia.
  - constructor; [exists i; repeat split; auto; lia|].
    eapply Forall_impl; [|apply IH]. intros e (j & H1 & H2 & H3). exists j. repeat split; auto; lia.
Qed.

Lemma inject_Z_ge1 (z : Z) : (1 <= z)%Z -> 1 <= inject_Z z.
Proof. intros H. change 1 with (inject_Z 1). rewrite <- Zle_Qle. exact H. Qed.

Lemma place_mono lo hi ns m j1 j2 :
  0 <= ns -> lo <= hi -> (j1 < j2)%Z -> j1 <> m -> j2 <> m ->
  place lo hi ns m j1 + ns <= place lo hi ns m j2.
Proof.
  intros Hns Hlh Hj H1 H2. unfold place.
  destruct (Z.ltb_spec j1 m), (Z.ltb_spec j2 m).
  - assert (E : inject_Z (m - j1) = inject_Z (m - j2) + inject_Z (j2 - j1))
      by (rewrite <- inject_Z_plus; f_equal; lia).
    pose proof (inject_Z_ge1 (j2 - j1) ltac:(lia)). rewrite E. nra.
  - pose proof (inject_Z_ge1 (m - j1) ltac:(lia)). pose proof (inject_Z_ge1 (j2 - m) ltac:(lia)). nra.
  - lia.
  - assert (E : inject_Z (j2 - m) = inject_Z (j1 - m) + inject_Z (j2 - j1))
      by (rewrite <- inject_Z_plus; f_equal; lia).
    pose proof (inject_Z_ge1 (j2 - j1) ltac:(lia)). rewrite E. nra.
Qed.

Lemma place_out lo hi ns m j :
  0 <= ns -> j <> m -> place lo hi ns m j + ns <= lo \/ hi + ns <= place lo hi ns m j.
Proof.
  intros Hns Hj. unfold place. destruct (Z.ltb_spec j m).
  - left. pose proof (inject_Z_ge1 (m - j) ltac:(lia)). nra.
  - right. pose proof (inject_Z_ge1 (j - m) ltac:(lia)). nra.
Qed.

Lemma place_all_sorted lo hi ns m i l :
  0 <= ns -> lo <= hi ->
  StronglySorted (fun e1 e2 => snd e1 + ns <= snd e2) (place_all lo hi ns m i l).
Proof.
  intros Hns Hlh. revert i; induction l as [|s l IH]; intros i; cbn; [constructor|].
  destruct (Z.eqb_spec i m); [apply IH|].
  constructor; [apply IH|].
  eapply Forall_impl; [|apply place_all_idx]. intros e (j & H1 & H2 & H3). cbn.
  rewrite H3. apply place_mono; auto; lia.
Qed.

(** [positionSiblings] unfolded: the loop over the sorted nodes. *)
Lemma positionSiblings_eq sortF ns mp main main_x spouses_x sibs :
  let s1 := match sortF with Some f => Layout.sort_by f (main :: sibs) | None => main :: sibs end in
  let s2 := Layout.sort_by (sib_cmp mp) s1 in
  positionSiblings sortF ns mp main main_x spouses_x sibs =
  place_all (Layout.qmin (main_x :: spouses_x)) (Layout.qmax (main_x :: spouses_x)) ns
            (JS.findIndex (fun d => String.eqb (id d) (id main)) s2) 0 s2.
Proof. reflexivity. Qed.

Lemma findSiblings_not_main main ds d : In d (findSiblings main ds) -> id d <> id main.
Proof.
  unfold findSiblings. intros Hd. apply filter_In in Hd as [_ Hd].
  destruct (String.eqb_spec (id d) (id main)); [discriminate|assumption].
Qed.

(** [setupSiblings] places every sibling found by [findSiblings] exactly
    once; in the sorted order their [x] grow by at least [node_separation],
    and each lies at least [node_separation] left of the leftmost or right
    of the rightmost of [main] and its spouses. *)
Theorem setupSiblings_layout sortF ns mp main main_x spouses_x ds :
  0 <= ns ->
  let out := setupSiblings sortF ns mp main main_x spouses_x ds in
  Permutation (map fst out) (findSiblings main ds) /\
  Sorted (fun e1 e2 => snd e1 + ns <= snd e2) out /\
  Forall (fun e => snd e + ns <= Layout.qmin (main_x :: spouses_x) \/
                   Layout.qmax (main_x :: spouses_x) + ns <= snd e) out.
Proof.
  intros Hns out. unfold out, setupSiblings. clear out.
  set (sibs := findSiblings main ds).
  assert (Hsib : forall d, In d sibs -> id d <> id main) by apply findSiblings_not_main.
  rewrite positionSiblings_eq. cbv zeta.
  set (s1 := match sortF with Some f => Layout.sort_by f (main :: sibs) | None => main :: sibs end).
  set (s2 := Layout.sort_by (sib_cmp mp) s1).
  set (lo := Layout.qmin (main_x :: spouses_x)). set (hi := Layout.qmax (main_x :: spouses_x)).
  assert (Hlh : lo <= hi).
  { apply Qle_trans with main_x; [apply FitFacts.qmin_le|apply FitFacts.qmax_ge]; left; reflexivity. }
  assert (Hp : Permutation s2 (main :: sibs)).
  { unfold s2. rewrite sort_by_perm. unfold s1. destruct sortF; [apply sort_by_perm|reflexivity]. }
  set (m := JS.findIndex (fun d => String.eqb (id d) (id main)) s2).
  split; [|split].
  - assert (Hin : In main s2) by (apply (Permutation_in _ (Permutation_sym Hp)); left; reflexivity).
    apply in_split in Hin as (l1 & l2 & Hs).
    assert (Hp' : Permutation sibs (l1 ++ l2)).
    { apply Permutation_cons_app_inv with (a := main). rewrite <- Hs. symmetry. exact Hp. }
    assert (Hm : m = Z.of_nat (length l1)).
    { unfold m. rewrite Hs. apply DeleteFacts.findIndex_app; [|apply String.eqb_refl].
      intros b Hb. apply String.eqb_neq. apply Hsib.
      apply (Permutation_in _ (Permutation_sym Hp')). apply in_or_app. left. exact Hb. }
    rewrite Hs, place_all_app, map_app. cbn [place_all].
    rewrite Z.add_0_l, <- Hm, Z.eqb_refl.
    rewrite !place_all_fst by lia. symmetry. exact Hp'.
  - apply StronglySorted_Sorted, place_all_sorted; assumption.
  - eapply Forall_impl; [|apply place_all_idx]. intros e (j & _ & Hj & He).
    rewrite He. apply place_out; assumption.
Qed.

Lemma setupSiblings_layout_witness :
  let out := setupSiblings None 1 [SortSamples.sp_F; SortSamples.sp_W2] SortSamples.sp_K1 0 []
                           SortSamples.sp_data in
  Permutation (map fst out) (findSiblings SortSamples.sp_K1 SortSamples.sp_data) /\
  Sorted (fun e1 e2 => snd e1 + 1 <= snd e2) out /\
  Forall (fun e => snd e + 1 <= Layout.qmin [0] \/ Layout.qmax [0] + 1 <= snd e) out.
Proof. apply setupSiblings_layout. lra. Defined.

End SiblingsExtra.
